(** * pkgcheck: package-directory and equal-version checks

    A shallow embedding of [src/pkgcheck/checks/pkgdir.py] and the
    properties of its two checks, [PkgDirCheck] and [EqualVersionsCheck].

    Python values are modelled as follows.
    - A [str] is the list of its code points, so that [set(filename)],
      [sorted] and [ord] range over characters and not over bytes.
    - A [set] is a [gset]; [sorted(s)] sorts its elements.
    - A [defaultdict] is an insertion-ordered association list: the order
      of [items()] is the order in which keys were first stored, and it
      decides the order in which results are yielded.
    - A generator is the trace of what it yields, together with the
      exception that ended it, if any.
    - The file system, the git ignore rules, the atom parser, the codec and
      the checksum function are collaborators: they are fields of a record
      [world] that the check reads. *)

From Stdlib Require Import NArith Ascii String.
From Stdlib.Strings Require Import Byte.
From stdpp Require Import base option list sorting gmap.

Local Open Scope N_scope.

(** ** Python strings *)

Definition str := list N.

Definition ord (c : ascii) : N := N_of_ascii c.

(** A literal: the code points of an ASCII string. *)
Definition lit (s : string) : str := ord <$> list_ascii_of_string s.

(** [range(a, b)] *)
Definition range (a b : N) : list N :=
  N.of_nat <$> seq (N.to_nat a) (N.to_nat b - N.to_nat a).

Definition str_eqb (s t : str) : bool := bool_decide (s = t).

(** [s.startswith(p)] and [s.endswith(p)] *)
Definition startswith (s p : str) : bool :=
  str_eqb (take (length p) s) p.

Definition endswith (s p : str) : bool :=
  (length p <=? length s)%nat && str_eqb (drop (length s - length p) s) p.

(** [s < t] on strings: lexicographic on code points, a proper prefix
    first. *)
Fixpoint str_ltb (s t : str) : bool :=
  match s, t with
  | _, [] => false
  | [], _ :: _ => true
  | a :: s', b :: t' => (a <? b) || ((a =? b) && str_ltb s' t')
  end.

(** ** [sorted]

    Python's [sorted] is stable and only asks [<].  An element is put
    before the first element that is not smaller than it. *)

Section Sorted.
Context {A : Type} (ltb : A → A → bool).

Fixpoint insort (x : A) (l : list A) : list A :=
  match l with
  | [] => [x]
  | y :: l' => if ltb y x then y :: insort x l' else x :: y :: l'
  end.

Definition sorted (l : list A) : list A := foldr insort [] l.
End Sorted.

(** ** [os.path] *)

Definition sep : N := ord "/".

(** One step of [os.path.join(a, *p)]. *)
Definition join2 (path b : str) : str :=
  if startswith b [sep] then b
  else if bool_decide (path = []) || endswith path [sep] then path ++ b
  else path ++ sep :: b.

Definition pjoin (a : str) (p : list str) : str := foldl join2 a p.
Global Arguments pjoin : simpl never.

(** [os.path.basename(p)]: what follows the last separator. *)
Definition basename (p : str) : str :=
  foldl (λ acc c, if c =? sep then [] else acc ++ [c]) [] p.

(** ** [defaultdict]

    [dict_upd eqb dflt f k d] is [d[k] = f(d[k])] on a [defaultdict] whose
    factory returns [dflt]: the first stored key equal to [k] keeps its
    place, a missing key is added last. *)

Section Dict.
Context {K V : Type} (eqb : K → K → bool) (dflt : V).

Fixpoint dict_upd (f : V → V) (k : K) (d : list (K * V)) : list (K * V) :=
  match d with
  | [] => [(k, f dflt)]
  | (k', v) :: d' =>
      if eqb k' k then (k', f v) :: d' else (k', v) :: dict_upd f k d'
  end.
End Dict.

(** ** Results *)

Section Results.
Context {P : Type}.

Inductive result : Type :=
| MismatchedPN (ebuilds : list str) (pkg : P)
| InvalidPN (ebuilds : list str) (pkg : P)
| EqualVersions (versions : list str) (pkg : P)
| DuplicateFiles (files : list str) (pkg : P)
| EmptyFile (filename : str) (pkg : P)
| ExecutableFile (filename : str) (pkg : P)
| UnknownPkgDirEntry (filenames : list str) (pkg : P)
| SizeViolation (filename : str) (size : N) (pkg : P)
| BannedCharacter (filename : str) (chars : list N) (pkg : P)
| InvalidUTF8 (filename : str) (err : str) (pkg : P).

Global Instance result_eq_dec `{EqDecision P} : EqDecision result.
Proof. solve_decision. Defined.
End Results.
Global Arguments result : clear implicits.

(** A package of the package set: what the checks read of it. *)
Record Pkg {atom : Type} := {
  category : str;
  package : str;
  fullver : str;
  versioned_atom : atom;
}.
Global Arguments Pkg : clear implicits.

Global Instance Pkg_eq_dec `{EqDecision atom} : EqDecision (Pkg atom).
Proof. solve_decision. Defined.

(** ** Generators

    Running a generator to its end gives the events it produced, in order,
    and either its return value or the exception that stopped it.  Calls
    of the checksum function are events too, so that one can count them. *)

Inductive exn : Type :=
| OSError (filename : str)
| IndexError.

Global Instance exn_eq_dec : EqDecision exn.
Proof. solve_decision. Defined.

Section Gen.
Context {P : Type}.

Inductive event : Type :=
| Yield (r : result P)
| Chksum (path : str).

Global Instance event_eq_dec `{EqDecision P} : EqDecision event.
Proof. solve_decision. Defined.

Definition gen (A : Type) : Type := list event * (exn + A).

Definition ret {A} (a : A) : gen A := ([], inr a).

Definition raise {A} (e : exn) : gen A := ([], inl e).

Definition bind {A B} (m : gen A) (k : A → gen B) : gen B :=
  match m.2 with
  | inl e => (m.1, inl e)
  | inr a => (m.1 ++ (k a).1, (k a).2)
  end.

Definition yield (r : result P) : gen unit := ([Yield r], inr tt).

(** The result of a call that may raise. *)
Definition call {A} (r : exn + A) : gen A := ([], r).

Definition logged {A} (ev : event) (r : exn + A) : gen A := ([ev], r).

Definition when (b : bool) (m : gen unit) : gen unit :=
  if b then m else ret tt.

(** [for x in xs: s = body(x, s)] *)
Fixpoint for_each {X S} (xs : list X) (body : X → S → gen S) (s : S)
  : gen S :=
  match xs with
  | [] => ret s
  | x :: xs' => bind (body x s) (for_each xs' body)
  end.

(** The results yielded in a trace, and the files it hashed. *)
Definition yields (tr : list event) : list (result P) :=
  omap (λ ev, match ev with Yield r => Some r | _ => None end) tr.

Definition chksum_calls (tr : list event) : list str :=
  omap (λ ev, match ev with Chksum p => Some p | _ => None end) tr.
End Gen.
Global Arguments event : clear implicits.
Global Arguments gen : clear implicits.

Declare Scope gen_scope.
Delimit Scope gen_scope with gen.
Notation "x <- m ;; k" := (bind m (λ x, k))
  (at level 100, m at next level, right associativity) : gen_scope.
Notation "m ;; k" := (bind m (λ _, k))
  (at level 100, right associativity) : gen_scope.


(** ** The collaborators

    What [os.stat] and [os.lstat] return, as far as the check reads it. *)

Record stat_result := {
  st_mode : N;
  st_size : N;
}.

(** [stat.S_ISREG]: the file-type bits [0o170000] are [0o100000]. *)
Definition S_IFMT (mode : N) : N := N.land mode 61440.

Definition S_ISREG (mode : N) : bool := S_IFMT mode =? 32768.

(** A directory as [os.walk] sees it: the entries it calls directories,
    each with what a walk of it finds, and the other entries.  [Unlisted]
    is a path of which [os.walk] yields nothing: it is missing, it cannot
    be listed, or it is a symbolic link, which is not followed. *)
#[warnings="-register-all"]
Inductive dirtree : Type :=
| Unlisted
| Dir (dirs : list (str * dirtree)) (nondirs : list str).

Record world := {
  (** [options.target_repo.location] and [options.gentoo_repo] *)
  target_repo_location : str;
  gentoo_repo : bool;
  (** [git_addon.gitignored(path)] *)
  gitignored : str → bool;
  (** [listdir(path)] *)
  listdir : str → exn + list str;
  (** [os.stat(path)], which follows links, and [os.lstat(path)] *)
  os_stat : str → exn + stat_result;
  os_lstat : str → exn + stat_result;
  (** [open(path, mode='rb')] and the bytes of the file *)
  open_rb : str → exn + list byte;
  (** [bytes.decode()]: [Some msg] is a [UnicodeDecodeError] whose text
      is [msg] *)
  decode : list byte → option str;
  (** [atom_cls(s).package]; [None] is [MalformedAtom] *)
  atom_cls : str → option str;
  (** the directory tree below a path *)
  scandir : str → dirtree;
  (** [get_chksums(path, digest_algo)[0]] *)
  get_chksums : str → exn + N;
}.

(** [f.read(n)] on a file just opened: its first [n] bytes. *)
Definition read (n : N) (content : list byte) : list byte :=
  take (N.to_nat n) content.

(** ** [allowed_filename_chars_set] *)

Definition allowed_filename_chars_set : gset N :=
  list_to_set (range (ord "a") (ord "z" + 1))
  ∪ list_to_set (range (ord "A") (ord "Z" + 1))
  ∪ list_to_set (range (ord "0") (ord "9" + 1))
  ∪ list_to_set (ord <$> ["."; "-"; "_"; "+"; ":"]%char).

(** [set(filename) - allowed_filename_chars_set] *)
Definition banned_chars (filename : str) : gset N :=
  list_to_set filename ∖ allowed_filename_chars_set.

(** The truth value of a set. *)
Definition nonempty (s : gset N) : bool := negb (bool_decide (s = ∅)).

(** [sorted(s)] of a set of characters, of a list of strings. *)
Definition sorted_chars (s : gset N) : list N := sorted N.ltb (elements s).

Definition sorted_strs (l : list str) : list str := sorted str_ltb l.

(** ** [os.walk]

    [for d in ignore_dirs.intersection(dirs): dirs.remove(d)] takes the
    first entry of each ignored name out of [dirs]; [os.walk] then
    descends into what is left. *)

Definition ignore_dirs : list str := [lit "cvs"; lit ".svn"; lit ".bzr"].

Fixpoint list_remove {X} (d : str) (dirs : list (str * X)) : list (str * X) :=
  match dirs with
  | [] => []
  | e :: dirs' => if str_eqb e.1 d then dirs' else e :: list_remove d dirs'
  end.

Definition prune_ignore_dirs {X} (dirs : list (str * X)) : list (str * X) :=
  foldl (λ ds d, list_remove d ds) dirs
        (filter (λ d, d ∈ dirs.*1) ignore_dirs).

(** The triples [(root, dirs, files)] of a top-down walk whose consumer
    prunes [dirs] as above before the walk goes on. *)
Fixpoint os_walk (t : dirtree) (top : str) : list (str * list str * list str) :=
  match t with
  | Unlisted => []
  | Dir dirs nondirs =>
      (top, dirs.*1, nondirs) ::
      mjoin ((λ e : str * (str → _), e.2 (pjoin top [e.1])) <$>
             prune_ignore_dirs ((λ e, (e.1, os_walk e.2)) <$> dirs))
  end.

(** * [PkgDirCheck] *)

Module PkgDirCheck.
Section Check.
Context {atom : Type} (w : world).

Local Open Scope gen_scope.

Abbreviation pkg_t := (Pkg atom).

(** [os.path.isfile(path)]: [os.stat] succeeds and finds a regular file. *)
Definition isfile (path : str) : bool :=
  match os_stat w path with
  | inr st => S_ISREG (st_mode st)
  | inl _ => false
  end.

Definition ebuild_ext : str := lit ".ebuild".

(** The names collected during the listing. *)
Record names := {
  mismatched : list str;
  invalid : list str;
  unknown : list str;
}.

(** The body of [for filename in listdir(pkg_path)]. *)
Definition pkgdir_entry (pkg : pkg_t) (pkg_path filename : str) (acc : names)
  : gen pkg_t names :=
  let path := pjoin pkg_path [filename] in
  if gitignored w path then ret acc else
  (executable <-
     (if isfile path
      then st <- call (os_stat w path) ;;
           ret (negb (N.land (st_mode st) 73 (* 0o111 *) =? 0))
      else ret false) ;;
   when executable (yield (ExecutableFile filename pkg)) ;;
   when (nonempty (banned_chars filename))
     (yield (BannedCharacter filename (sorted_chars (banned_chars filename))
               pkg)) ;;
   if endswith filename ebuild_ext then
     (content <- call (open_rb w path) ;;
      match decode w (read 8192 content) with
      | Some e => yield (InvalidUTF8 filename e pkg)
      | None => ret tt
      end ;;
      let pkg_name :=
        basename (take (length filename - length ebuild_ext) filename) in
      match atom_cls w (lit "=" ++ category pkg ++ lit "/" ++ pkg_name) with
      | Some pn =>
          if negb (str_eqb pn (basename pkg_path))
          then ret {| mismatched := mismatched acc ++ [pkg_name];
                      invalid := invalid acc; unknown := unknown acc |}
          else ret acc
      | None =>
          ret {| mismatched := mismatched acc;
                 invalid := invalid acc ++ [pkg_name];
                 unknown := unknown acc |}
      end)
   else if gentoo_repo w &&
           negb (bool_decide
                   (filename ∈ [lit "Manifest"; lit "metadata.xml";
                                lit "files"]))
   then ret {| mismatched := mismatched acc; invalid := invalid acc;
               unknown := unknown acc ++ [filename] |}
   else ret acc).

(** The first loop and the three results that follow it. *)
Definition scan_pkgdir (pkg : pkg_t) (pkg_path : str) : gen pkg_t unit :=
  filenames <- call (listdir w pkg_path) ;;
  acc <- for_each filenames (pkgdir_entry pkg pkg_path)
           {| mismatched := []; invalid := []; unknown := [] |} ;;
  when (negb (bool_decide (mismatched acc = [])))
    (yield (MismatchedPN (sorted_strs (mismatched acc)) pkg)) ;;
  when (negb (bool_decide (invalid acc = [])))
    (yield (InvalidPN (sorted_strs (invalid acc)) pkg)) ;;
  when (negb (bool_decide (unknown acc = [])))
    (yield (UnknownPkgDirEntry (sorted_strs (unknown acc)) pkg)).

(** [files_by_size] and [files_by_digest]: [defaultdict(list)]. *)
Abbreviation filegroups := (list (N * list str)).

Definition group_append (key : N) (f : str) (d : filegroups) : filegroups :=
  dict_upd N.eqb [] (λ files, files ++ [f]) key d.

(** The body of [for filename in files] in the walk of [files/]. *)
Definition filesdir_entry (pkg : pkg_t) (root base_dir filename : str)
    (files_by_size : filegroups) : gen pkg_t filegroups :=
  let path := pjoin root [filename] in
  if gitignored w path then ret files_by_size else
  (file_stat <- call (os_lstat w path) ;;
   if S_ISREG (st_mode file_stat) then
     (when (negb (N.land (st_mode file_stat) 73 (* 0o111 *) =? 0))
        (yield (ExecutableFile (pjoin base_dir [filename]) pkg)) ;;
      files_by_size <-
        (if st_size file_stat =? 0
         then yield (EmptyFile (pjoin base_dir [filename]) pkg) ;;
              ret files_by_size
         else
           let files_by_size :=
             group_append (st_size file_stat) (pjoin base_dir [filename])
               files_by_size in
           when (20480 <? st_size file_stat)
             (yield (SizeViolation (pjoin base_dir [filename])
                       (st_size file_stat) pkg)) ;;
           ret files_by_size) ;;
      when (nonempty (banned_chars filename))
        (yield (BannedCharacter (pjoin base_dir [filename])
                  (sorted_chars (banned_chars filename)) pkg)) ;;
      ret files_by_size)
   else ret files_by_size).

(** The walk of [files/], which fills [files_by_size]. *)
Definition walk_filesdir (pkg : pkg_t) (pkg_path : str)
  : gen pkg_t filegroups :=
  let pkg_path_len := (length pkg_path + 1)%nat in
  for_each (os_walk (scandir w (pjoin pkg_path [lit "files"]))
              (pjoin pkg_path [lit "files"]))
    (λ '(root, _, files) files_by_size,
       let base_dir := drop pkg_path_len root in
       for_each files (filesdir_entry pkg root base_dir) files_by_size)
    [].

(** The files of every size that occurs twice are hashed. *)
Definition group_by_digest (pkg_path : str) (files_by_size : filegroups)
  : gen pkg_t filegroups :=
  for_each files_by_size
    (λ '(size, files) files_by_digest,
       if (1 <? length files)%nat then
         for_each files
           (λ f files_by_digest,
              digest <- logged (Chksum (pjoin pkg_path [f]))
                          (get_chksums w (pjoin pkg_path [f])) ;;
              ret (group_append digest f files_by_digest))
           files_by_digest
       else ret files_by_digest)
    [].

Definition yield_duplicates (pkg : pkg_t) (files_by_digest : filegroups)
  : gen pkg_t unit :=
  for_each files_by_digest
    (λ '(digest, files) _,
       when (1 <? length files)%nat
         (yield (DuplicateFiles (sorted_strs files) pkg)))
    tt.

Definition feed (pkgset : list pkg_t) : gen pkg_t unit :=
  match pkgset with
  | [] => raise IndexError
  | pkg :: _ =>
      let pkg_path :=
        pjoin (target_repo_location w) [category pkg; package pkg] in
      scan_pkgdir pkg pkg_path ;;
      files_by_size <- walk_filesdir pkg pkg_path ;;
      files_by_digest <- group_by_digest pkg_path files_by_size ;;
      yield_duplicates pkg files_by_digest
  end.

End Check.
End PkgDirCheck.

(** * [EqualVersionsCheck] *)

Module EqualVersionsCheck.
Section Check.
(** The version library: [==] on versioned atoms and [<] on packages. *)
Context {atom : Type} (atom_eqb : atom → atom → bool).
Context (pkg_ltb : Pkg atom → Pkg atom → bool).

Local Open Scope gen_scope.

Abbreviation pkg_t := (Pkg atom).

(** [equal_versions]: [defaultdict(set)], keyed by versioned atom. *)
Abbreviation versiongroups := (list (atom * gset str)).

(** [for i, pkg_a in enumerate(sorted_pkgset)]: the loop breaks at the
    [IndexError] of [sorted_pkgset[i + 1]]. *)
Fixpoint scan (sorted_pkgset : list pkg_t) (l : list (nat * pkg_t))
    (equal_versions : versiongroups) : versiongroups :=
  match l with
  | [] => equal_versions
  | (i, pkg_a) :: l' =>
      match sorted_pkgset !! (i + 1)%nat with
      | None => equal_versions
      | Some pkg_b =>
          scan sorted_pkgset l'
            (if atom_eqb (versioned_atom pkg_a) (versioned_atom pkg_b)
             then dict_upd atom_eqb ∅
                    (λ versions,
                       versions ∪ list_to_set [fullver pkg_a; fullver pkg_b])
                    (versioned_atom pkg_a) equal_versions
             else equal_versions)
      end
  end.

(** [enumerate(l)] *)
Definition enumerate {X} (l : list X) : list (nat * X) :=
  zip (seq 0 (length l)) l.

Definition equal_versions (pkgset : list pkg_t) : versiongroups :=
  let sorted_pkgset := sorted pkg_ltb pkgset in
  scan sorted_pkgset (enumerate sorted_pkgset) [].

Definition feed (pkgset : list pkg_t) : gen atom unit :=
  for_each (equal_versions pkgset)
    (λ '(pkg, versions) _,
       yield (EqualVersions (sorted str_ltb (elements versions)) pkg))
    tt.

End Check.
End EqualVersionsCheck.

(** * Vocabulary of the properties *)

(** [d.get(k, dflt)]: the value of the first stored key equal to [k]. *)
Fixpoint dict_get {K V} (eqb : K → K → bool) (dflt : V) (k : K)
    (d : list (K * V)) : V :=
  match d with
  | [] => dflt
  | (k', v) :: d' => if eqb k' k then v else dict_get eqb dflt k d'
  end.

(** The order that [sorted] leaves a list of strings in. *)
Definition str_le (s t : str) : Prop := str_ltb t s = false.

(** The file names a result carries. *)
Definition result_files {P} (r : result P) : list str :=
  match r with
  | MismatchedPN ebuilds _ | InvalidPN ebuilds _ => ebuilds
  | EqualVersions _ _ => []
  | DuplicateFiles files _ => files
  | UnknownPkgDirEntry filenames _ => filenames
  | EmptyFile filename _ | ExecutableFile filename _
  | SizeViolation filename _ _ | BannedCharacter filename _ _
  | InvalidUTF8 filename _ _ => [filename]
  end.

(** The results of one class in a list of results. *)
Definition size_violations {P} (rs : list (result P)) : list (str * N) :=
  omap (λ r, match r with
             | SizeViolation f size _ => Some (f, size) | _ => None
             end) rs.

Definition banned_characters {P} (rs : list (result P))
  : list (str * list N) :=
  omap (λ r, match r with
             | BannedCharacter f chars _ => Some (f, chars) | _ => None
             end) rs.

Definition invalid_utf8 {P} (rs : list (result P)) : list (str * str) :=
  omap (λ r, match r with
             | InvalidUTF8 f err _ => Some (f, err) | _ => None
             end) rs.

Definition empty_files {P} (rs : list (result P)) : list str :=
  omap (λ r, match r with EmptyFile f _ => Some f | _ => None end) rs.

Definition duplicate_files {P} (rs : list (result P)) : list (list str) :=
  omap (λ r, match r with DuplicateFiles fs _ => Some fs | _ => None end) rs.

(** No stored key equals a key stored before it. *)
Fixpoint distinct_keys {K V} (eqb : K → K → bool) (d : list (K * V))
  : Prop :=
  match d with
  | [] => True
  | e :: d' => Forall (λ e', eqb e.1 e'.1 = false) d' ∧ distinct_keys eqb d'
  end.

(** The files of one key in [files_by_size] or [files_by_digest]. *)
Definition group_of (key : N) (d : list (N * list str)) : list str :=
  dict_get N.eqb [] key d.

(** The directory of a package, and its [files] directory. *)
Definition pkg_path_of {atom} (w : world) (pkg : Pkg atom) : str :=
  pjoin (target_repo_location w) [category pkg; package pkg].

Definition filesdir (pkg_path : str) : str := pjoin pkg_path [lit "files"].

(** The files that the walk of [files/] comes to, each with the
    directory it is in, in the order of the walk. *)
Definition visited (w : world) (pkg_path : str) : list (str * str) :=
  '(root, _, files) ← os_walk (scandir w (filesdir pkg_path))
                         (filesdir pkg_path);
  (root,.) <$> files.

(** The path of such a file below the package directory:
    [pjoin(base_dir, filename)] with [base_dir = root[pkg_path_len:]]. *)
Definition rel_path (pkg_path root filename : str) : str :=
  pjoin (drop (length pkg_path + 1) root) [filename].

(** What [os.lstat] says of a file that is not ignored, when it says that
    the file is regular. *)
Definition regular_file (w : world) (root filename : str)
  : option stat_result :=
  if gitignored w (pjoin root [filename]) then None
  else match os_lstat w (pjoin root [filename]) with
       | inr st => if S_ISREG (st_mode st) then Some st else None
       | inl _ => None
       end.

(** The dictionary that [d[key].append(f)], for each [(key, f)] of a list
    in turn, makes of [d]. *)
Definition grouping (pairs : list (N * str)) (d : list (N * list str))
  : list (N * list str) :=
  foldl (λ d kf, PkgDirCheck.group_append kf.1 kf.2 d) d pairs.

(** What the walk records of a file: its size and its path, when it is a
    regular file that is not ignored and not empty. *)
Definition recorded_file (w : world) (pkg_path : str) (rf : str * str)
  : option (N * str) :=
  st ← regular_file w rf.1 rf.2;
  if st_size st =? 0 then None
  else Some (st_size st, rel_path pkg_path rf.1 rf.2).

Definition recorded (w : world) (pkg_path : str) : list (N * str) :=
  omap (recorded_file w pkg_path) (visited w pkg_path).

(** The files whose size some other recorded file has: those of the
    groups of [files_by_size] with two files or more. *)
Definition colliding (files_by_size : list (N * list str)) : list str :=
  '(_, files) ← files_by_size;
  if (1 <? length files)%nat then files else [].

(** The digest of a recorded file, when the checksum function returns. *)
Definition digest_of (w : world) (pkg_path f : str) : option N :=
  match get_chksums w (pjoin pkg_path [f]) with
  | inr digest => Some digest
  | inl _ => None
  end.

Definition digests (w : world) (pkg_path : str) (fs : list str)
  : list (N * str) :=
  omap (λ f, (., f) <$> digest_of w pkg_path f) fs.

(** Whether [os.stat] finds a regular file with an execute bit. *)
Definition executable (w : world) (path : str) : bool :=
  match os_stat w path with
  | inr st => S_ISREG (st_mode st) && negb (N.land (st_mode st) 73 =? 0)
  | inl _ => false
  end.

(** The name that an ebuild gives its package:
    [os.path.basename(filename[:-len(ebuild_ext)])]. *)
Definition pkg_name_of (filename : str) : str :=
  basename (take (length filename - length PkgDirCheck.ebuild_ext) filename).

(** A regular file of [files/] that is larger than 20480 bytes, with its
    size. *)
Definition oversized (w : world) (pkg_path : str) (rf : str * str)
  : option (str * N) :=
  st ← regular_file w rf.1 rf.2;
  if 20480 <? st_size st
  then Some (rel_path pkg_path rf.1 rf.2, st_size st) else None.

(** A regular file of [files/] that is empty. *)
Definition empty_file (w : world) (pkg_path : str) (rf : str * str)
  : option str :=
  st ← regular_file w rf.1 rf.2;
  if st_size st =? 0 then Some (rel_path pkg_path rf.1 rf.2) else None.

(** The events of the check of one file of [files/], and of one entry of
    the package directory. *)
Definition file_events {atom} (w : world) (pkg : Pkg atom) (pkg_path : str)
    (rf : str * str) : list (event (Pkg atom)) :=
  (PkgDirCheck.filesdir_entry w pkg rf.1 (drop (length pkg_path + 1) rf.1)
     rf.2 []).1.

Definition no_names : PkgDirCheck.names :=
  {| PkgDirCheck.mismatched := []; PkgDirCheck.invalid := [];
     PkgDirCheck.unknown := [] |}.

Definition entry_events {atom} (w : world) (pkg : Pkg atom) (pkg_path : str)
    (filename : str) : list (event (Pkg atom)) :=
  (PkgDirCheck.pkgdir_entry w pkg pkg_path filename no_names).1.

(** The exception, if any, that the check of an entry of the package
    directory ends with: that of [open], for an ebuild that is looked at. *)
Definition open_error (w : world) (pkg_path filename : str) : option exn :=
  if gitignored w (pjoin pkg_path [filename]) then None
  else if endswith filename PkgDirCheck.ebuild_ext then
    match open_rb w (pjoin pkg_path [filename]) with
    | inl e => Some e
    | inr _ => None
    end
  else None.

(** The results that follow the listing, for the names it collected. *)
Definition summary_events {atom} (pkg : Pkg atom) (acc : PkgDirCheck.names)
  : list (event (Pkg atom)) :=
  (if negb (bool_decide (PkgDirCheck.mismatched acc = [])) then
     [Yield (MismatchedPN (sorted_strs (PkgDirCheck.mismatched acc)) pkg)]
   else []) ++
  (if negb (bool_decide (PkgDirCheck.invalid acc = [])) then
     [Yield (InvalidPN (sorted_strs (PkgDirCheck.invalid acc)) pkg)]
   else []) ++
  (if negb (bool_decide (PkgDirCheck.unknown acc = [])) then
     [Yield (UnknownPkgDirEntry (sorted_strs (PkgDirCheck.unknown acc)) pkg)]
   else []).

(** The name and the banned characters of an entry of the package
    directory that is looked at, and of a regular file of [files/] that is
    looked at, when there are any. *)
Definition banned_entry (w : world) (pkg_path filename : str)
  : option (str * list N) :=
  if gitignored w (pjoin pkg_path [filename]) then None
  else if nonempty (banned_chars filename)
       then Some (filename, sorted_chars (banned_chars filename))
       else None.

Definition banned_file (w : world) (pkg_path : str) (rf : str * str)
  : option (str * list N) :=
  st ← regular_file w rf.1 rf.2;
  if nonempty (banned_chars rf.2)
  then Some (rel_path pkg_path rf.1 rf.2, sorted_chars (banned_chars rf.2))
  else None.

(** Induction on a directory tree, with the property at hand for the
    trees below it. *)
Fixpoint dirtree_nested_ind (Q : dirtree → Prop) (H0 : Q Unlisted)
    (H1 : ∀ dirs nondirs, Forall (λ e, Q e.2) dirs → Q (Dir dirs nondirs))
    (t : dirtree) : Q t :=
  match t with
  | Unlisted => H0
  | Dir dirs nondirs =>
      H1 dirs nondirs
        ((fix go (l : list (str * dirtree)) : Forall (λ e, Q e.2) l :=
            match l with
            | [] => Forall_nil_2 _
            | e :: l' =>
                Forall_cons_2 _ e l' (dirtree_nested_ind Q H0 H1 e.2) (go l')
            end) dirs)
  end.

(** The tree below [top] without the files that are ignored, and the
    world in which no listing shows an ignored entry. *)
Fixpoint hide_tree (ignored : str → bool) (t : dirtree) (top : str)
  : dirtree :=
  match t with
  | Unlisted => Unlisted
  | Dir dirs nondirs =>
      Dir ((λ e, (e.1, hide_tree ignored e.2 (pjoin top [e.1]))) <$> dirs)
          (filter (λ f, ignored (pjoin top [f]) = false) nondirs)
  end.

Definition hide_ignored (w : world) : world := {|
  target_repo_location := target_repo_location w;
  gentoo_repo := gentoo_repo w;
  gitignored := gitignored w;
  listdir := λ p,
    match listdir w p with
    | inr names =>
        inr (filter (λ f, gitignored w (pjoin p [f]) = false) names)
    | inl e => inl e
    end;
  os_stat := os_stat w;
  os_lstat := os_lstat w;
  open_rb := open_rb w;
  decode := decode w;
  atom_cls := atom_cls w;
  scandir := λ p, hide_tree (gitignored w) (scandir w p) p;
  get_chksums := get_chksums w;
|}.

(** The world in which the file at [path] holds [content]. *)
Definition with_content (w : world) (path : str) (content : list byte)
  : world := {|
  target_repo_location := target_repo_location w;
  gentoo_repo := gentoo_repo w;
  gitignored := gitignored w;
  listdir := listdir w;
  os_stat := os_stat w;
  os_lstat := os_lstat w;
  open_rb := λ p, if str_eqb p path then inr content else open_rb w p;
  decode := decode w;
  atom_cls := atom_cls w;
  scandir := scandir w;
  get_chksums := get_chksums w;
|}.

(** ** Worlds to run the checks in

    A file system given by tables: what each path is, what each directory
    lists, which paths are ignored.  A path that is in no table does not
    exist. *)

Record node := {
  n_mode : N;
  n_size : N;
  n_content : list byte;
  n_digest : N;
}.

Definition lookup_path {V} (p : str) (table : list (str * V)) : option V :=
  (λ r, r.2.2) <$> list_find (λ e, e.1 = p) table.

(** A codec that accepts the bytes below 128. *)
Definition ascii_decode (bs : list byte) : option str :=
  if forallb (λ b, Byte.to_N b <? 128) bs then None
  else Some (lit "invalid start byte").

(** An atom parser: [=cat/pn-ver] has package [pn]; a question mark makes
    the atom malformed. *)
Fixpoint before_last_dash (s : str) : str :=
  match s with
  | [] => []
  | c :: s' =>
      if bool_decide (ord "-" ∈ s') then c :: before_last_dash s' else []
  end.

Definition simple_atom_cls (s : str) : option str :=
  if bool_decide (ord "?" ∈ s) then None
  else Some (before_last_dash (basename s)).

Definition table_world (location : str) (strict : bool)
    (ignored : list str) (listings : list (str * list str))
    (nodes : list (str * node)) (trees : list (str * dirtree)) : world := {|
  target_repo_location := location;
  gentoo_repo := strict;
  gitignored := λ p, bool_decide (p ∈ ignored);
  listdir := λ p,
    match lookup_path p listings with
    | Some names => inr names
    | None => inl (OSError p)
    end;
  os_stat := λ p,
    match lookup_path p nodes with
    | Some n =>
        if S_IFMT (n_mode n) =? 40960 (* 0o120000, a dangling link *)
        then inl (OSError p)
        else inr {| st_mode := n_mode n; st_size := n_size n |}
    | None => inl (OSError p)
    end;
  os_lstat := λ p,
    match lookup_path p nodes with
    | Some n => inr {| st_mode := n_mode n; st_size := n_size n |}
    | None => inl (OSError p)
    end;
  open_rb := λ p,
    match lookup_path p nodes with
    | Some n => if S_ISREG (n_mode n) then inr (n_content n)
                else inl (OSError p)
    | None => inl (OSError p)
    end;
  decode := ascii_decode;
  atom_cls := simple_atom_cls;
  scandir := λ p, default Unlisted (lookup_path p trees);
  get_chksums := λ p,
    match lookup_path p nodes with
    | Some n => if S_ISREG (n_mode n) then inr (n_digest n)
                else inl (OSError p)
    | None => inl (OSError p)
    end;
|}.

(** A regular file, an executable one, a directory, a symbolic link. *)
Definition reg (size digest : N) (content : list byte) : node :=
  {| n_mode := 33188 (* 0o100644 *); n_size := size;
     n_content := content; n_digest := digest |}.

Definition exe (size digest : N) : node :=
  {| n_mode := 33261 (* 0o100755 *); n_size := size;
     n_content := []; n_digest := digest |}.

Definition dir : node :=
  {| n_mode := 16877 (* 0o040755 *); n_size := 4096;
     n_content := []; n_digest := 0 |}.

Definition symlink : node :=
  {| n_mode := 41471 (* 0o120777 *); n_size := 7;
     n_content := []; n_digest := 0 |}.

(** Versioned atoms as their text; two atoms are equal when they are the
    same once a revision [-r0] is dropped. *)
Definition drop_r0 (a : str) : str :=
  if endswith a (lit "-r0") then take (length a - 3) a else a.

Definition text_atom_eqb (a b : str) : bool :=
  bool_decide (drop_r0 a = drop_r0 b).

Definition text_pkg_ltb (a b : Pkg str) : bool :=
  str_ltb (drop_r0 (versioned_atom a)) (drop_r0 (versioned_atom b)).

Definition pn (ver : string) : Pkg str :=
  {| category := lit "cat"; package := lit "pn"; fullver := lit ver;
     versioned_atom := lit "=cat/pn-" ++ lit ver |}.

(** The package [cat/pn] of a repository at [/repo]: two ebuilds, one of
    them ill named and not UTF-8, an ignored backup file, and a [files]
    directory with two identical files, a large executable one, an empty
    one, a symbolic link, an ignored one and a pruned directory. *)
Definition demo_world : world :=
  table_world (lit "/repo") true
    [lit "/repo/cat/pn/pn 1.0.ebuild~"; lit "/repo/cat/pn/files/fix.patch~"]
    [(lit "/repo/cat/pn",
      [lit "pn-1.0.ebuild"; lit "foo-1.ebuild"; lit "pn 1.0.ebuild~";
       lit "Manifest"; lit "files"; lit "read me"])]
    [(lit "/repo/cat/pn/pn-1.0.ebuild", reg 2 1 ["E"; "A"]%byte);
     (lit "/repo/cat/pn/foo-1.ebuild", reg 2 2 ["E"; xff]%byte);
     (lit "/repo/cat/pn/pn 1.0.ebuild~", exe 2 3);
     (lit "/repo/cat/pn/Manifest", reg 0 4 []);
     (lit "/repo/cat/pn/files", dir);
     (lit "/repo/cat/pn/read me", exe 5 5);
     (lit "/repo/cat/pn/files/a.patch", reg 10 7 []);
     (lit "/repo/cat/pn/files/big", exe 20481 9);
     (lit "/repo/cat/pn/files/limit", reg 20480 10 []);
     (lit "/repo/cat/pn/files/empty", reg 0 11 []);
     (lit "/repo/cat/pn/files/sym link", symlink);
     (lit "/repo/cat/pn/files/fix.patch~", exe 0 12);
     (lit "/repo/cat/pn/files/sub dir/b.patch", reg 10 7 []);
     (lit "/repo/cat/pn/files/sub dir/c~", reg 10 8 []);
     (lit "/repo/cat/pn/files/cvs/x y", reg 10 7 [])]
    [(lit "/repo/cat/pn/files",
      Dir [(lit "cvs", Dir [] [lit "x y"]);
           (lit "sub dir", Dir [] [lit "b.patch"; lit "c~"])]
          [lit "a.patch"; lit "big"; lit "limit"; lit "empty";
           lit "sym link"; lit "fix.patch~"])].

(** A package directory in which [x.ebuild] is a directory, listed before
    an entry with a space in its name. *)
Definition unreadable_world : world :=
  table_world (lit "/repo") false []
    [(lit "/repo/cat/pn", [lit "x.ebuild"; lit "bad name"])]
    [(lit "/repo/cat/pn/x.ebuild", dir);
     (lit "/repo/cat/pn/bad name", reg 1 1 ["A"]%byte)]
    [].

(** A [files] directory with two files of 10 bytes and two of 20 bytes,
    and a checksum function that gives all four the same digest. *)
Definition collision_world : world :=
  table_world (lit "/repo") false []
    [(lit "/repo/cat/pn", [lit "files"])]
    [(lit "/repo/cat/pn/files", dir);
     (lit "/repo/cat/pn/files/a", reg 10 7 []);
     (lit "/repo/cat/pn/files/b", reg 10 7 []);
     (lit "/repo/cat/pn/files/c", reg 20 7 []);
     (lit "/repo/cat/pn/files/d", reg 20 7 [])]
    [(lit "/repo/cat/pn/files",
      Dir [] [lit "a"; lit "b"; lit "c"; lit "d"])].

(** ** The pairs of the scan for equal versions *)

(** Each element of a list with the one that follows it. *)
Definition adjacent {X} (l : list X) : list (X * X) := zip l (drop 1 l).

(** [equal_versions[pkg_a.versioned_atom].update([pkg_a.fullver,
    pkg_b.fullver])] *)
Definition add_versions {atom} (atom_eqb : atom → atom → bool)
    (d : list (atom * gset str)) (ab : Pkg atom * Pkg atom)
  : list (atom * gset str) :=
  dict_upd atom_eqb ∅
    (λ versions, versions ∪ list_to_set [fullver ab.1; fullver ab.2])
    (versioned_atom ab.1) d.

(** ** Properties that the checks are sometimes said to have *)

(** One package gives one [EqualVersions] at most. *)
Definition one_finding_per_package {atom} (atom_eqb : atom → atom → bool)
    (pkg_ltb : Pkg atom → Pkg atom → bool) (pkgset : list (Pkg atom))
  : Prop :=
  (∀ a b, a ∈ pkgset → b ∈ pkgset →
     category a = category b ∧ package a = package b) →
  (length (yields (EqualVersionsCheck.feed atom_eqb pkg_ltb pkgset).1)
   ≤ 1)%nat.

(** A package directory that can be listed is scanned to its end. *)
Definition entry_errors_reported {atom} (w : world) (pkg : Pkg atom)
  : Prop :=
  ∀ filenames, listdir w (pkg_path_of w pkg) = inr filenames →
    (PkgDirCheck.scan_pkgdir w pkg (pkg_path_of w pkg)).2 = inr tt.

(** Every name below [files/] that is looked at and has a character
    outside the allowed set gives a [BannedCharacter]. *)
Definition every_name_checked {atom} (w : world) (pkg : Pkg atom) : Prop :=
  ∀ rf, rf ∈ visited w (pkg_path_of w pkg) →
    gitignored w (pjoin rf.1 [rf.2]) = false →
    nonempty (banned_chars rf.2) = true →
    (rel_path (pkg_path_of w pkg) rf.1 rf.2,
     sorted_chars (banned_chars rf.2))
      ∈ banned_characters (yields (PkgDirCheck.feed w [pkg]).1).

(** The files of one digest all have one size. *)
Definition digest_groups_of_one_size (w : world) (pkg_path : str) : Prop :=
  let files_by_size := grouping (recorded w pkg_path) [] in
  ∀ digest files f g size_f size_g,
    (digest, files)
      ∈ grouping (digests w pkg_path (colliding files_by_size)) [] →
    f ∈ files → g ∈ files →
    (size_f, f) ∈ recorded w pkg_path →
    (size_g, g) ∈ recorded w pkg_path →
    size_f = size_g.

(** ** More classes of results, and what ends a check *)

Definition executable_files {P} (rs : list (result P)) : list str :=
  omap (λ r, match r with ExecutableFile f _ => Some f | _ => None end) rs.

(** The name of an entry of the package directory with an execute bit,
    and the path of such a file of [files/], when they are looked at. *)
Definition executable_entry (w : world) (pkg_path filename : str)
  : option str :=
  if gitignored w (pjoin pkg_path [filename]) then None
  else if executable w (pjoin pkg_path [filename]) then Some filename
       else None.

Definition executable_file (w : world) (pkg_path : str) (rf : str * str)
  : option str :=
  st ← regular_file w rf.1 rf.2;
  if negb (N.land (st_mode st) 73 =? 0)
  then Some (rel_path pkg_path rf.1 rf.2) else None.

(** The package name that an entry of the package directory adds to
    [mismatched], to [invalid], and the entry that is added to [unknown]. *)
Definition mismatched_name {atom} (w : world) (pkg : Pkg atom)
    (pkg_path filename : str) : option str :=
  if gitignored w (pjoin pkg_path [filename]) then None
  else if endswith filename PkgDirCheck.ebuild_ext then
    match atom_cls w (lit "=" ++ category pkg ++ lit "/" ++
                      pkg_name_of filename) with
    | Some pn => if negb (str_eqb pn (basename pkg_path))
                 then Some (pkg_name_of filename) else None
    | None => None
    end
  else None.

Definition invalid_name {atom} (w : world) (pkg : Pkg atom)
    (pkg_path filename : str) : option str :=
  if gitignored w (pjoin pkg_path [filename]) then None
  else if endswith filename PkgDirCheck.ebuild_ext then
    match atom_cls w (lit "=" ++ category pkg ++ lit "/" ++
                      pkg_name_of filename) with
    | Some _ => None
    | None => Some (pkg_name_of filename)
    end
  else None.

Definition unknown_entry (w : world) (pkg_path filename : str)
  : option str :=
  if gitignored w (pjoin pkg_path [filename]) then None
  else if endswith filename PkgDirCheck.ebuild_ext then None
  else if gentoo_repo w &&
          negb (bool_decide
                  (filename ∈ [lit "Manifest"; lit "metadata.xml";
                               lit "files"]))
  then Some filename else None.

(** The exception that [os.lstat] raises for a file of [files/] that is
    looked at, and the one that the checksum function raises. *)
Definition lstat_error (w : world) (rf : str * str) : option exn :=
  if gitignored w (pjoin rf.1 [rf.2]) then None
  else match os_lstat w (pjoin rf.1 [rf.2]) with
       | inl e => Some e
       | inr _ => None
       end.

Definition chksum_error (w : world) (pkg_path f : str) : option exn :=
  match get_chksums w (pjoin pkg_path [f]) with
  | inl e => Some e
  | inr _ => None
  end.

(** The classes of [PkgDirCheck.known_results], and the package that a
    result is about. *)
Definition known_result {P} (r : result P) : bool :=
  match r with
  | EqualVersions _ _ => false
  | _ => true
  end.

Definition result_pkg {P} (r : result P) : P :=
  match r with
  | MismatchedPN _ pkg | InvalidPN _ pkg | EqualVersions _ pkg
  | DuplicateFiles _ pkg | EmptyFile _ pkg | ExecutableFile _ pkg
  | UnknownPkgDirEntry _ pkg | SizeViolation _ _ pkg
  | BannedCharacter _ _ pkg | InvalidUTF8 _ _ pkg => pkg
  end.

(** The results that tell of the names collected during the listing. *)
Definition summary_result {P} (r : result P) : bool :=
  match r with
  | MismatchedPN _ _ | InvalidPN _ _ | UnknownPkgDirEntry _ _ => true
  | _ => false
  end.

(** The entries that a loop comes to: those before the first one that
    raises, and that one. *)
Fixpoint reached {X} (err : X → option exn) (l : list X) : list X :=
  match l with
  | [] => []
  | x :: l' => x :: (if err x then [] else reached err l')
  end.

(** The name and the error of an ebuild that is looked at, can be opened,
    and whose first 8192 bytes do not decode. *)
Definition utf8_error (w : world) (pkg_path filename : str)
  : option (str * str) :=
  if gitignored w (pjoin pkg_path [filename]) then None
  else if endswith filename PkgDirCheck.ebuild_ext then
    match open_rb w (pjoin pkg_path [filename]) with
    | inr content =>
        match decode w (read 8192 content) with
        | Some err => Some (filename, err)
        | None => None
        end
    | inl _ => None
    end
  else None.

(** * Facts about the model *)

(** ** Generators *)

Section GenFacts.
Context {P : Type}.

Lemma bind_inr {A B} (m : gen P A) (k : A → gen P B) tr b :
  bind m k = (tr, inr b) →
  ∃ tr1 a tr2, m = (tr1, inr a) ∧ k a = (tr2, inr b) ∧ tr = tr1 ++ tr2.
Proof.
  destruct m as [tr1 [e|a]]; unfold bind; simpl; [discriminate|].
  destruct (k a) as [tr2 r] eqn:Hk; simpl. intros [= <- ->]. eauto 6.
Qed.

Lemma bind_inl {A B} (m : gen P A) (k : A → gen P B) tr e :
  bind m k = (tr, inl e) →
  m = (tr, inl e) ∨
  ∃ tr1 a tr2, m = (tr1, inr a) ∧ k a = (tr2, inl e) ∧ tr = tr1 ++ tr2.
Proof.
  destruct m as [tr1 [e'|a]]; unfold bind; simpl.
  - intros [= <- <-]. by left.
  - destruct (k a) as [tr2 r] eqn:Hk; simpl. intros [= <- ->].
    right. eauto 6.
Qed.

Lemma bind_ret {A B} (a : A) (k : A → gen P B) : bind (ret a) k = k a.
Proof. unfold bind, ret; simpl. by destruct (k a). Qed.

Lemma bind_trace {A B} (m : gen P A) (k : A → gen P B) :
  (bind m k).1 = m.1 ∨ ∃ a, m.2 = inr a ∧ (bind m k).1 = m.1 ++ (k a).1.
Proof. unfold bind. destruct m.2; simpl; eauto. Qed.

Lemma for_each_app {X S} (xs ys : list X) (body : X → S → gen P S) s :
  for_each (xs ++ ys) body s = bind (for_each xs body s) (for_each ys body).
Proof.
  revert s. induction xs as [|x xs IH]; intros s; simpl.
  - by rewrite bind_ret.
  - unfold bind at 1 3. destruct (body x s) as [tr [e|s1]]; simpl; [done|].
    rewrite IH. unfold bind. simpl.
    destruct (for_each xs body s1) as [tr1 [e|s2]]; simpl; [done|].
    by rewrite (assoc_L (++)).
Qed.

(** What holds of every event of every round holds of the whole loop,
    whether the loop ends or raises. *)
Lemma for_each_trace_Forall {X S} (Q : event P → Prop) (xs : list X)
    (body : X → S → gen P S) s :
  (∀ x s, x ∈ xs → Forall Q (body x s).1) →
  Forall Q (for_each xs body s).1.
Proof.
  revert s. induction xs as [|x xs IH]; intros s Hb; simpl; [constructor|].
  assert (Forall Q (body x s).1) as H1 by (apply Hb; left).
  destruct (bind_trace (body x s) (for_each xs body)) as [->|(s1 & _ & ->)];
    [done|].
  apply Forall_app; split; [done|]. apply IH. intros. apply Hb. by right.
Qed.

(** A loop that ends has run every round to its end. *)
Lemma for_each_inr_elem {X S} (xs : list X) (body : X → S → gen P S)
    s tr s' :
  for_each xs body s = (tr, inr s') →
  ∀ x, x ∈ xs →
    ∃ s0 tr0 s1, body x s0 = (tr0, inr s1) ∧ ∀ ev, ev ∈ tr0 → ev ∈ tr.
Proof.
  revert s tr. induction xs as [|x xs IH]; intros s tr Hf y Hy.
  - by apply elem_of_nil in Hy.
  - simpl in Hf. apply bind_inr in Hf as (tr1 & s1 & tr2 & Hb & Hr & ->).
    apply elem_of_cons in Hy as [->|Hy].
    + exists s, tr1, s1. split; [done|]. intros ev ?.
      apply elem_of_app. by left.
    + destruct (IH _ _ Hr y Hy) as (s0 & tr0 & s2 & ? & Hin).
      exists s0, tr0, s2. split; [done|]. intros ev ?.
      apply elem_of_app. right. by apply Hin.
Qed.

(** An invariant of the rounds holds when the loop ends. *)
Lemma for_each_inv {X S} (I : S → Prop) (xs : list X)
    (body : X → S → gen P S) s tr s' :
  for_each xs body s = (tr, inr s') →
  I s →
  (∀ x s tr s', x ∈ xs → I s → body x s = (tr, inr s') → I s') →
  I s'.
Proof.
  revert s tr. induction xs as [|x xs IH]; intros s tr Hf Hs Hstep.
  - simpl in Hf. injection Hf as _ <-. done.
  - simpl in Hf. apply bind_inr in Hf as (tr1 & s1 & tr2 & Hb & Hr & ->).
    eapply IH; [done| |].
    + eapply Hstep; [left|done..].
    + intros y ? ? ? ?. apply Hstep. by right.
Qed.

(** When the events of a round that ends do not depend on the state, a
    loop that ends has produced the events of its rounds, one after the
    other. *)
Lemma for_each_trace_concat {X S} (xs : list X) (body : X → S → gen P S)
    (t : X → list (event P)) s tr s' :
  (∀ x s tr s', x ∈ xs → body x s = (tr, inr s') → tr = t x) →
  for_each xs body s = (tr, inr s') →
  tr = mjoin (t <$> xs).
Proof.
  revert s tr. induction xs as [|x xs IH]; intros s tr Ht Hf.
  - simpl in Hf. by injection Hf as <- _.
  - simpl in Hf. apply bind_inr in Hf as (tr1 & s1 & tr2 & Hb & Hr & ->).
    simpl. f_equal.
    + eapply Ht; [left|done].
    + eapply IH; [|done]. intros y ? ? ? ?. apply Ht. by right.
Qed.

(** Rounds that do nothing can be left out. *)
Lemma for_each_filter {X S} (keep : X → bool) (xs : list X)
    (body : X → S → gen P S) s :
  (∀ x s, keep x = false → body x s = ret s) →
  for_each (filter (λ x, keep x = true) xs) body s = for_each xs body s.
Proof.
  intros Hskip. revert s. induction xs as [|x xs IH]; intros s; [done|].
  rewrite filter_cons. case_decide as Hk.
  - simpl. unfold bind.
    destruct (body x s) as [tr [e|s1]]; simpl; [done|]. by rewrite IH.
  - simpl. rewrite (Hskip x s), bind_ret; [apply IH|].
    by destruct (keep x).
Qed.

Lemma for_each_ext {X S} (xs : list X) (body body' : X → S → gen P S) s :
  (∀ x s, x ∈ xs → body x s = body' x s) →
  for_each xs body s = for_each xs body' s.
Proof.
  revert s. induction xs as [|x xs IH]; intros s Hb; [done|]. simpl.
  rewrite (Hb x s) by left. unfold bind.
  destruct (body' x s) as [tr [e|s1]]; simpl; [done|].
  rewrite IH; [done|]. intros. apply Hb. by right.
Qed.

Lemma yields_app (tr1 tr2 : list (event P)) :
  yields (tr1 ++ tr2) = yields tr1 ++ yields tr2.
Proof. apply omap_app. Qed.

Lemma chksum_calls_app (tr1 tr2 : list (event P)) :
  chksum_calls (tr1 ++ tr2) = chksum_calls tr1 ++ chksum_calls tr2.
Proof. apply omap_app. Qed.

Lemma elem_of_yields (tr : list (event P)) r :
  r ∈ yields tr ↔ Yield r ∈ tr.
Proof.
  unfold yields. rewrite list_elem_of_omap. split.
  - intros ([r'|p] & ? & [= ->]). done.
  - intros ?. by exists (Yield r).
Qed.

End GenFacts.

(** ** [sorted] returns its argument, reordered and in order *)

Section SortedFacts.
Context {A : Type} (ltb : A → A → bool).

Lemma insort_Permutation x l : insort ltb x l ≡ₚ x :: l.
Proof.
  induction l as [|y l IH]; simpl; [done|].
  destruct (ltb y x); [|done]. rewrite IH. apply Permutation_swap.
Qed.

Lemma sorted_Permutation l : sorted ltb l ≡ₚ l.
Proof.
  induction l as [|x l IH]; simpl; [done|].
  by rewrite insort_Permutation, IH.
Qed.

Lemma elem_of_sorted x l : x ∈ sorted ltb l ↔ x ∈ l.
Proof. by rewrite sorted_Permutation. Qed.

Lemma sorted_nil_inv l : sorted ltb l = [] → l = [].
Proof.
  intros H. apply Permutation_nil_r. rewrite <-H.
  symmetry. apply sorted_Permutation.
Qed.

Lemma length_sorted l : length (sorted ltb l) = length l.
Proof. by rewrite sorted_Permutation. Qed.

Context (asym : ∀ a b, ltb a b = true → ltb b a = false).
Context (trans : ∀ a b c, ltb b a = false → ltb c b = false → ltb c a = false).

Lemma insort_StronglySorted x l :
  StronglySorted (λ a b, ltb b a = false) l →
  StronglySorted (λ a b, ltb b a = false) (insort ltb x l).
Proof.
  induction 1 as [|y l Hl IH Hy]; simpl; [repeat constructor|].
  destruct (ltb y x) eqn:Hyx.
  - constructor; [done|]. rewrite insort_Permutation.
    constructor; [by apply asym|done].
  - constructor; [by constructor|]. constructor; [done|].
    eapply Forall_impl; [exact Hy|]. intros z Hz. by eapply trans.
Qed.

Lemma sorted_StronglySorted l :
  StronglySorted (λ a b, ltb b a = false) (sorted ltb l).
Proof.
  induction l as [|x l IH]; simpl; [constructor|].
  by apply insort_StronglySorted.
Qed.

Context (antisym : ∀ a b, ltb a b = false → ltb b a = false → a = b).

(** Without repeats, the order is strict. *)
Lemma sorted_strict l :
  NoDup l → StronglySorted (λ a b, ltb a b = true) (sorted ltb l).
Proof.
  intros Hnd. rewrite <-sorted_Permutation in Hnd.
  pose proof (sorted_StronglySorted l) as Hs.
  induction Hs as [|x l' Hl IH Hx]; [constructor|].
  apply NoDup_cons in Hnd as [Hnotin Hnd]. constructor; [by apply IH|].
  apply Forall_forall. intros y Hy.
  destruct (ltb x y) eqn:Hxy; [done|]. exfalso. apply Hnotin.
  rewrite (antisym x y Hxy); [done|].
  by eapply Forall_forall in Hx.
Qed.

End SortedFacts.

(** The order on strings. *)

Lemma str_ltb_asym a b : str_ltb a b = true → str_ltb b a = false.
Proof.
  revert b. induction a as [|x a IH]; intros [|y b]; simpl; try done.
  destruct (N.ltb_spec x y), (N.ltb_spec y x), (N.eqb_spec x y),
    (N.eqb_spec y x); simpl; try done; try lia. apply IH.
Qed.

Lemma str_le_trans a b c :
  str_ltb b a = false → str_ltb c b = false → str_ltb c a = false.
Proof.
  revert b c. induction a as [|x a IH]; intros [|y b] [|z c]; simpl;
    try done.
  destruct (N.ltb_spec y x), (N.ltb_spec z y), (N.ltb_spec z x),
    (N.eqb_spec y x), (N.eqb_spec z y), (N.eqb_spec z x); simpl;
    try done; try lia. apply IH.
Qed.

Lemma str_le_antisym a b :
  str_ltb a b = false → str_ltb b a = false → a = b.
Proof.
  revert b. induction a as [|x a IH]; intros [|y b]; simpl; try done.
  destruct (N.ltb_spec x y), (N.ltb_spec y x), (N.eqb_spec x y),
    (N.eqb_spec y x); simpl; try done; try lia.
  intros. f_equal; [done|]. by apply IH.
Qed.

Lemma sorted_strs_Permutation l : sorted_strs l ≡ₚ l.
Proof. apply sorted_Permutation. Qed.

Lemma sorted_strs_sorted l : StronglySorted str_le (sorted_strs l).
Proof.
  apply sorted_StronglySorted; [apply str_ltb_asym|apply str_le_trans].
Qed.

Lemma sorted_chars_elem c (s : gset N) : c ∈ sorted_chars s ↔ c ∈ s.
Proof. unfold sorted_chars. by rewrite elem_of_sorted, elem_of_elements. Qed.

Lemma StronglySorted_mono {A} (R R' : relation A) l :
  (∀ a b, R a b → R' a b) → StronglySorted R l → StronglySorted R' l.
Proof.
  intros HR. induction 1 as [|x l Hl IH Hx]; constructor; [done|].
  eapply Forall_impl; [exact Hx|]. intros. by apply HR.
Qed.

(** The characters of a set come out in increasing order, each once. *)
Lemma sorted_chars_increasing (s : gset N) :
  StronglySorted N.lt (sorted_chars s).
Proof.
  unfold sorted_chars.
  eapply StronglySorted_mono;
    [|apply (sorted_strict N.ltb)]; [| | | |apply NoDup_elements].
  - intros a b. apply N.ltb_lt.
  - intros a b. rewrite N.ltb_lt, N.ltb_ge. lia.
  - intros a b c. rewrite !N.ltb_ge. lia.
  - intros a b. rewrite !N.ltb_ge. lia.
Qed.

(** So do the strings of a set. *)
Lemma sorted_strset_increasing (s : gset str) :
  StronglySorted (λ a b, str_ltb a b = true) (sorted str_ltb (elements s)).
Proof.
  apply sorted_strict;
    [apply str_ltb_asym|apply str_le_trans|apply str_le_antisym
    |apply NoDup_elements].
Qed.

(** ** [defaultdict] *)

Section DictFacts.
Context {K V : Type} (eqb : K → K → bool) (dflt : V).

Lemma dict_upd_keys_Forall (Q : K → Prop) f k (d : list (K * V)) :
  Q k → Forall (λ e, Q e.1) d → Forall (λ e, Q e.1) (dict_upd eqb dflt f k d).
Proof.
  intros Hk. induction 1 as [|[k' v] d Hk' Hd IH]; simpl.
  - by repeat constructor.
  - destruct (eqb k' k); by constructor.
Qed.

Lemma dict_upd_distinct f k (d : list (K * V)) :
  distinct_keys eqb d → distinct_keys eqb (dict_upd eqb dflt f k d).
Proof.
  induction d as [|[k' v] d IH]; simpl; [by repeat constructor|].
  intros [Hk' Hd]. destruct (eqb k' k) eqn:Hkk; simpl; [done|].
  split; [|by apply IH].
  by apply (dict_upd_keys_Forall (λ k0, eqb k' k0 = false)).
Qed.

(** Every key of the updated dictionary was there, or is the new one. *)
Lemma dict_upd_key_inv f k k2 (d : list (K * V)) :
  k2 ∈ (dict_upd eqb dflt f k d).*1 → k2 ∈ d.*1 ∨ k2 = k.
Proof.
  induction d as [|[k' v] d IH]; simpl.
  - intros ->%list_elem_of_singleton. by right.
  - destruct (eqb k' k); simpl; [by left|].
    intros [->|H]%elem_of_cons; [left; left|].
    destruct (IH H); [left; by right|by right].
Qed.

Lemma dict_upd_key_old f k k2 (d : list (K * V)) :
  k2 ∈ d.*1 → k2 ∈ (dict_upd eqb dflt f k d).*1.
Proof.
  induction d as [|[k' v] d IH]; simpl; intros H.
  - by apply elem_of_nil in H.
  - destruct (eqb k' k); simpl; [done|].
    apply elem_of_cons in H as [->|H]; [left|right; by apply IH].
Qed.

(** The key that was updated is stored, up to [eqb]. *)
Lemma dict_upd_key_new f k (d : list (K * V)) :
  eqb k k = true →
  ∃ k', k' ∈ (dict_upd eqb dflt f k d).*1 ∧ eqb k' k = true.
Proof.
  intros Hrefl. induction d as [|[k' v] d IH]; simpl.
  - exists k. split; [left|done].
  - destruct (eqb k' k) eqn:Hkk; simpl.
    + exists k'. split; [left|done].
    + destruct IH as (k0 & ? & ?). exists k0. split; [by right|done].
Qed.

Context (eqb_refl : ∀ a, eqb a a = true).
Context (eqb_sym : ∀ a b, eqb a b = eqb b a).
Context (eqb_trans : ∀ a b c, eqb a b = true → eqb b c = true → eqb a c = true).

Lemma dict_get_upd_eq f k k2 (d : list (K * V)) :
  eqb k k2 = true →
  dict_get eqb dflt k2 (dict_upd eqb dflt f k d) = f (dict_get eqb dflt k2 d).
Proof.
  intros Hk. induction d as [|[k' v] d IH]; simpl.
  - by rewrite Hk.
  - destruct (eqb k' k) eqn:Hkk; simpl.
    + by rewrite (eqb_trans k' k k2).
    + destruct (eqb k' k2) eqn:Hk2; [|done].
      rewrite (eqb_trans k' k2 k) in Hkk; [done..|]. by rewrite eqb_sym.
Qed.

Lemma dict_get_upd_ne f k k2 (d : list (K * V)) :
  eqb k k2 = false →
  dict_get eqb dflt k2 (dict_upd eqb dflt f k d) = dict_get eqb dflt k2 d.
Proof.
  intros Hk. induction d as [|[k' v] d IH]; simpl.
  - by rewrite Hk.
  - destruct (eqb k' k) eqn:Hkk; simpl; [|by rewrite IH].
    destruct (eqb k' k2) eqn:Hk2; [|done].
    rewrite (eqb_trans k k' k2) in Hk; [done| |done]. by rewrite eqb_sym.
Qed.

(** With distinct keys, an entry is what [dict_get] finds at its key. *)
Lemma dict_get_elem k v (d : list (K * V)) :
  distinct_keys eqb d → (k, v) ∈ d → dict_get eqb dflt k d = v.
Proof.
  induction d as [|[k' v'] d IH]; simpl; intros Hd Hin.
  - by apply elem_of_nil in Hin.
  - destruct Hd as [Hk' Hd]. apply elem_of_cons in Hin as [[= <- <-]|Hin].
    + by rewrite eqb_refl.
    + eapply Forall_forall in Hk'; [|done]. simpl in Hk'. rewrite Hk'.
      by apply IH.
Qed.

Lemma dict_get_key k (d : list (K * V)) :
  k ∈ d.*1 → ∃ k', (k', dict_get eqb dflt k d) ∈ d ∧ eqb k' k = true.
Proof.
  induction d as [|[k' v'] d IH]; simpl; intros Hin.
  - by apply elem_of_nil in Hin.
  - destruct (eqb k' k) eqn:Hkk.
    + exists k'. split; [left|done].
    + apply elem_of_cons in Hin as [->|Hin]; [by rewrite eqb_refl in Hkk|].
      destruct (IH Hin) as (k0 & ? & ?). exists k0. split; [by right|done].
Qed.

(** Two stored keys that are equal are one entry. *)
Lemma distinct_keys_eq k1 v1 k2 v2 (d : list (K * V)) :
  distinct_keys eqb d → (k1, v1) ∈ d → (k2, v2) ∈ d → eqb k1 k2 = true →
  k1 = k2 ∧ v1 = v2.
Proof.
  induction d as [|[k' v'] d IH]; simpl; intros Hd H1 H2 Heq.
  - by apply elem_of_nil in H1.
  - destruct Hd as [Hk' Hd].
    apply elem_of_cons in H1 as [[= -> ->]|H1];
      apply elem_of_cons in H2 as [[= -> ->]|H2]; [done| | |by apply IH].
    + eapply Forall_forall in Hk'; [|exact H2]. simpl in Hk'. congruence.
    + eapply Forall_forall in Hk'; [|exact H1]. simpl in Hk'.
      rewrite eqb_sym in Heq. congruence.
Qed.

End DictFacts.

(** [files_by_size] and [files_by_digest] are keyed by numbers. *)

Lemma distinct_keys_NoDup {V} (d : list (N * V)) :
  distinct_keys N.eqb d ↔ NoDup d.*1.
Proof.
  induction d as [|[k v] d IH]; simpl; [split; [constructor|done]|].
  rewrite NoDup_cons, IH, Forall_forall. split; intros [H1 H2]; split;
    try done.
  - intros ([k' v'] & [= <-] & Hin)%list_elem_of_fmap.
    specialize (H1 _ Hin). simpl in H1. by rewrite N.eqb_refl in H1.
  - intros [k' v'] Hin. simpl. apply N.eqb_neq. intros <-. apply H1.
    apply list_elem_of_fmap. by exists (k, v').
Qed.

(** ** One file of [files/] *)

Section FilesdirEntry.
Context {atom : Type} (w : world) (pkg : Pkg atom).

Import PkgDirCheck.

(** An ignored file is passed over. *)
Lemma filesdir_entry_ignored root base_dir filename fbs :
  gitignored w (pjoin root [filename]) = true →
  filesdir_entry w pkg root base_dir filename fbs = ret fbs.
Proof. intros H. unfold filesdir_entry. by rewrite H. Qed.

(** So is a file that is not a regular file. *)
Lemma filesdir_entry_not_regular root base_dir filename fbs st :
  os_lstat w (pjoin root [filename]) = inr st →
  S_ISREG (st_mode st) = false →
  filesdir_entry w pkg root base_dir filename fbs = ret fbs.
Proof.
  intros Hst Hreg. unfold filesdir_entry.
  destruct (gitignored w _); [done|].
  rewrite Hst. unfold bind, call; simpl. by rewrite Hreg.
Qed.

(** A file that cannot be examined stops the scan. *)
Lemma filesdir_entry_lstat_error root base_dir filename fbs e :
  gitignored w (pjoin root [filename]) = false →
  os_lstat w (pjoin root [filename]) = inl e →
  filesdir_entry w pkg root base_dir filename fbs = raise e.
Proof. intros Hi Hst. unfold filesdir_entry. by rewrite Hi, Hst. Qed.

(** What the check of a regular file yields and records. *)
Lemma filesdir_entry_regular root base_dir filename fbs st :
  gitignored w (pjoin root [filename]) = false →
  os_lstat w (pjoin root [filename]) = inr st →
  S_ISREG (st_mode st) = true →
  let path := pjoin base_dir [filename] in
  filesdir_entry w pkg root base_dir filename fbs =
    ((if negb (N.land (st_mode st) 73 =? 0)
      then [Yield (ExecutableFile path pkg)] else []) ++
     (if st_size st =? 0 then [Yield (EmptyFile path pkg)]
      else if 20480 <? st_size st
           then [Yield (SizeViolation path (st_size st) pkg)] else []) ++
     (if nonempty (banned_chars filename)
      then [Yield (BannedCharacter path (sorted_chars (banned_chars filename))
                     pkg)]
      else []),
     inr (if st_size st =? 0 then fbs
          else group_append (st_size st) path fbs)).
Proof.
  intros Hi Hst Hreg path. unfold filesdir_entry. rewrite Hi, Hst.
  unfold bind, call, when, yield, ret; simpl. rewrite Hreg. subst path.
  destruct (N.land (st_mode st) 73 =? 0), (st_size st =? 0),
    (20480 <? st_size st), (nonempty (banned_chars filename)); reflexivity.
Qed.

(** The events of a check do not depend on what was recorded before. *)
Lemma filesdir_entry_trace root base_dir filename fbs :
  (filesdir_entry w pkg root base_dir filename fbs).1 =
  (filesdir_entry w pkg root base_dir filename []).1.
Proof.
  destruct (gitignored w (pjoin root [filename])) eqn:Hi.
  { by rewrite !filesdir_entry_ignored. }
  destruct (os_lstat w (pjoin root [filename])) as [e|st] eqn:Hst.
  { by rewrite !(filesdir_entry_lstat_error _ _ _ _ e). }
  destruct (S_ISREG (st_mode st)) eqn:Hreg.
  - by rewrite !(filesdir_entry_regular _ _ _ _ st).
  - by rewrite !(filesdir_entry_not_regular _ _ _ _ st).
Qed.

End FilesdirEntry.

(** ** Grouping *)

Lemma group_of_append_eq key f d :
  group_of key (PkgDirCheck.group_append key f d) = group_of key d ++ [f].
Proof.
  unfold group_of, PkgDirCheck.group_append.
  rewrite (dict_get_upd_eq N.eqb []); try done.
  - intros a b. destruct (N.eqb_spec a b), (N.eqb_spec b a); congruence.
  - intros a b c. rewrite !N.eqb_eq. congruence.
  - apply N.eqb_refl.
Qed.

Lemma group_of_append_ne key key' f d :
  key ≠ key' →
  group_of key' (PkgDirCheck.group_append key f d) = group_of key' d.
Proof.
  intros Hne. unfold group_of, PkgDirCheck.group_append.
  rewrite (dict_get_upd_ne N.eqb []); try done.
  - intros a b. destruct (N.eqb_spec a b), (N.eqb_spec b a); congruence.
  - intros a b c. rewrite !N.eqb_eq. congruence.
  - by apply N.eqb_neq.
Qed.

Lemma grouping_app l1 l2 d : grouping (l1 ++ l2) d = grouping l2 (grouping l1 d).
Proof. apply foldl_app. Qed.

(** The files of a key, after grouping: those it had, then those of the
    list with that key, in the order of the list. *)
Lemma group_of_grouping key pairs d :
  group_of key (grouping pairs d) =
  group_of key d ++ (filter (λ kf, kf.1 = key) pairs).*2.
Proof.
  revert d. induction pairs as [|[k f] pairs IH]; intros d; simpl.
  - by rewrite (right_id_L [] (++)).
  - unfold grouping in *. simpl. rewrite IH, filter_cons. simpl.
    case_decide as Hk.
    + subst k. rewrite group_of_append_eq. simpl.
      by rewrite <-(assoc_L (++)).
    + by rewrite group_of_append_ne.
Qed.

Lemma grouping_NoDup pairs d : NoDup d.*1 → NoDup (grouping pairs d).*1.
Proof.
  revert d. induction pairs as [|[k f] pairs IH]; intros d Hd; [done|].
  apply IH. apply distinct_keys_NoDup.
  apply dict_upd_distinct. by apply distinct_keys_NoDup.
Qed.

Lemma grouping_keys key pairs d :
  key ∈ (grouping pairs d).*1 ↔ key ∈ d.*1 ∨ key ∈ pairs.*1.
Proof.
  revert d. induction pairs as [|[k f] pairs IH]; intros d; simpl.
  - rewrite elem_of_nil. tauto.
  - unfold grouping in *. simpl. rewrite IH, elem_of_cons. split.
    + intros [[?| ->]%dict_upd_key_inv|?]; tauto.
    + intros [?|[->|?]]; [left; by apply dict_upd_key_old| |tauto].
      left. destruct (dict_upd_key_new N.eqb [] (λ files, files ++ [f]) k d)
        as (k' & ? & ->%N.eqb_eq); [apply N.eqb_refl|done].
Qed.

(** An entry of a grouping made from nothing: a key of the list, with the
    files of that key. *)
Lemma elem_of_grouping key files pairs :
  (key, files) ∈ grouping pairs [] ↔
  files = (filter (λ kf, kf.1 = key) pairs).*2 ∧ files ≠ [].
Proof.
  pose proof (grouping_NoDup pairs [] (NoDup_nil_2)) as Hnd.
  pose proof (group_of_grouping key pairs []) as Hg. simpl in Hg.
  split.
  - intros Hin. assert (files = group_of key (grouping pairs [])) as Hf.
    { symmetry. apply (dict_get_elem N.eqb []); try done.
      - apply N.eqb_refl.
      - by apply distinct_keys_NoDup. }
    split; [congruence|]. intros ->.
    assert (key ∈ (grouping pairs []).*1) as Hk.
    { apply list_elem_of_fmap. by exists (key, []). }
    apply grouping_keys in Hk as [Hk|Hk]; [by apply elem_of_nil in Hk|].
    apply list_elem_of_fmap in Hk as ([k f] & Hk & Hin').
    simpl in Hk. subst key.
    assert ((k, f) ∈ filter (λ kf, kf.1 = k) pairs) as Hin2
      by (by apply list_elem_of_filter).
    rewrite Hg in Hf. symmetry in Hf. apply fmap_nil_inv in Hf.
    rewrite Hf in Hin2. by apply elem_of_nil in Hin2.
  - intros [-> Hne].
    assert (key ∈ (grouping pairs []).*1) as Hk.
    { apply grouping_keys. right.
      destruct (filter _ pairs) as [|[k f] l] eqn:Hfil; [done|].
      assert ((k, f) ∈ filter (λ kf, kf.1 = key) pairs) as Hin
        by (rewrite Hfil; left).
      apply list_elem_of_filter in Hin as [<- Hin].
      apply list_elem_of_fmap. by exists (k, f). }
    apply (dict_get_key N.eqb [] N.eqb_refl) in Hk
      as (k' & Hin & ->%N.eqb_eq).
    fold (group_of key (grouping pairs [])) in Hin. by rewrite Hg in Hin.
Qed.

(** ** The walk of [files/] *)

Section Walk.
Context {atom : Type} (w : world) (pkg : Pkg atom) (pkg_path : str).

Import PkgDirCheck.

Lemma filesdir_entry_state root filename fbs tr fbs' :
  filesdir_entry w pkg root (drop (length pkg_path + 1) root) filename fbs
    = (tr, inr fbs') →
  fbs' = grouping (option_list (recorded_file w pkg_path (root, filename)))
           fbs.
Proof.
  unfold recorded_file, regular_file; simpl.
  destruct (gitignored w (pjoin root [filename])) eqn:Hi.
  { rewrite filesdir_entry_ignored by done. by intros [= _ <-]. }
  destruct (os_lstat w (pjoin root [filename])) as [e|st] eqn:Hst.
  { rewrite (filesdir_entry_lstat_error _ _ _ _ _ _ e) by done.
    unfold raise. by intros [=]. }
  destruct (S_ISREG (st_mode st)) eqn:Hreg; simpl.
  - rewrite (filesdir_entry_regular _ _ _ _ _ _ st) by done.
    intros [= _ <-]. by destruct (st_size st =? 0).
  - rewrite (filesdir_entry_not_regular _ _ _ _ _ _ st) by done.
    by intros [= _ <-].
Qed.

Lemma files_loop root files fbs0 tr fbs :
  for_each files
    (filesdir_entry w pkg root (drop (length pkg_path + 1) root)) fbs0
    = (tr, inr fbs) →
  tr = mjoin (file_events w pkg pkg_path <$> ((root,.) <$> files)) ∧
  fbs = grouping (omap (recorded_file w pkg_path) ((root,.) <$> files)) fbs0.
Proof.
  revert fbs0 tr. induction files as [|fn files IH]; intros fbs0 tr Hf.
  - simpl in Hf. by injection Hf as <- <-.
  - simpl in Hf. apply bind_inr in Hf as (tr1 & s1 & tr2 & Hb & Hr & ->).
    destruct (IH _ _ Hr) as [-> ->]. split.
    + simpl. f_equal. unfold file_events; simpl.
      by rewrite <-(filesdir_entry_trace _ _ _ _ _ fbs0), Hb.
    + apply filesdir_entry_state in Hb as ->. simpl.
      by destruct (recorded_file w pkg_path (root, fn)).
Qed.

Lemma triples_loop (triples : list (str * list str * list str)) fbs0 tr fbs :
  for_each triples
    (λ '(root, _, files) files_by_size,
       for_each files
         (filesdir_entry w pkg root (drop (length pkg_path + 1) root))
         files_by_size) fbs0
    = (tr, inr fbs) →
  let vis := '(root, _, files) ← triples; (root,.) <$> files in
  tr = mjoin (file_events w pkg pkg_path <$> vis) ∧
  fbs = grouping (omap (recorded_file w pkg_path) vis) fbs0.
Proof.
  revert fbs0 tr. induction triples as [|[[root dirs] files] triples IH];
    intros fbs0 tr Hf.
  - simpl in Hf. by injection Hf as <- <-.
  - simpl in Hf. apply bind_inr in Hf as (tr1 & s1 & tr2 & Hb & Hr & ->).
    destruct (IH _ _ Hr) as [-> ->].
    apply files_loop in Hb as [-> ->]. simpl.
    by rewrite fmap_app, join_app, omap_app, grouping_app.
Qed.

(** A walk that ends has checked the files it came to, one after the
    other, and has grouped what it recorded of them. *)
Lemma walk_filesdir_inr tr fbs :
  walk_filesdir w pkg pkg_path = (tr, inr fbs) →
  tr = mjoin (file_events w pkg pkg_path <$> visited w pkg_path) ∧
  fbs = grouping (recorded w pkg_path) [].
Proof. intros H. by apply triples_loop in H. Qed.

(** Whether it ends or not, each of its events comes from the check of a
    file it came to. *)
Lemma walk_filesdir_event ev :
  ev ∈ (walk_filesdir w pkg pkg_path).1 →
  ∃ rf, rf ∈ visited w pkg_path ∧ ev ∈ file_events w pkg pkg_path rf.
Proof.
  revert ev. apply Forall_forall. unfold walk_filesdir.
  apply for_each_trace_Forall. intros [[root dirs] files] fbs Ht.
  apply for_each_trace_Forall. intros fn fbs' Hfn.
  apply Forall_forall. intros ev Hev. exists (root, fn). split.
  - unfold visited. apply list_elem_of_bind.
    exists (root, dirs, files). split; [|done].
    apply list_elem_of_fmap. by exists fn.
  - unfold file_events; simpl.
    by rewrite <-(filesdir_entry_trace _ _ _ _ _ fbs').
Qed.

End Walk.

(** ** The search for duplicates *)

Section Duplicates.
Context {atom : Type} (w : world) (pkg : Pkg atom) (pkg_path : str).

Import PkgDirCheck.

Local Open Scope gen_scope.

Lemma digest_loop files fbd0 (tr : list (event (Pkg atom))) fbd :
  for_each files
    (λ f files_by_digest,
       digest <- logged (Chksum (pjoin pkg_path [f]))
                   (get_chksums w (pjoin pkg_path [f])) ;;
       ret (group_append digest f files_by_digest)) fbd0
    = (tr, inr fbd) →
  tr = (λ f, Chksum (pjoin pkg_path [f])) <$> files ∧
  fbd = grouping (digests w pkg_path files) fbd0 ∧
  Forall (λ f, is_Some (digest_of w pkg_path f)) files.
Proof.
  revert fbd0 tr. induction files as [|f files IH]; intros fbd0 tr Hf.
  - simpl in Hf. by injection Hf as <- <-.
  - simpl in Hf. apply bind_inr in Hf as (tr1 & s1 & tr2 & Hb & Hr & ->).
    destruct (IH _ _ Hr) as (-> & -> & Hall).
    unfold bind, logged, ret in Hb; simpl in Hb.
    unfold digests, digest_of; simpl.
    destruct (get_chksums w (pjoin pkg_path [f])) as [e|d] eqn:Hd;
      simpl in Hb; [done|]. injection Hb as <- <-.
    split_and!; [done..|]. constructor; [|done].
    unfold digest_of. by rewrite Hd.
Qed.

Lemma size_groups_loop fbs fbd0 (tr : list (event (Pkg atom))) fbd :
  for_each fbs
    (λ '(size, files) files_by_digest,
       if (1 <? length files)%nat then
         for_each files
           (λ f files_by_digest,
              digest <- logged (Chksum (pjoin pkg_path [f]))
                          (get_chksums w (pjoin pkg_path [f])) ;;
              ret (group_append digest f files_by_digest))
           files_by_digest
       else ret files_by_digest) fbd0
    = (tr, inr fbd) →
  tr = (λ f, Chksum (pjoin pkg_path [f])) <$> colliding fbs ∧
  fbd = grouping (digests w pkg_path (colliding fbs)) fbd0 ∧
  Forall (λ f, is_Some (digest_of w pkg_path f)) (colliding fbs).
Proof.
  revert tr fbd0. induction fbs as [|[size files] fbs IH]; intros tr fbd0 Hf.
  - simpl in Hf. by injection Hf as <- <-.
  - simpl in Hf. apply bind_inr in Hf as (tr1 & s1 & tr2 & Hb & Hr & ->).
    destruct (IH _ _ Hr) as (Htr & Hfbd & Hall).
    assert (colliding ((size, files) :: fbs) =
            (if (1 <? length files)%nat then files else []) ++ colliding fbs)
      as -> by done.
    destruct (1 <? length files)%nat.
    + apply digest_loop in Hb as (-> & -> & Hall').
      unfold digests in *.
      rewrite fmap_app, omap_app, grouping_app, Forall_app.
      by rewrite Htr, Hfbd.
    + injection Hb as <- <-. by rewrite Htr, Hfbd.
Qed.

(** A search that ends has hashed the colliding files, in order, and has
    grouped them by digest. *)
Lemma group_by_digest_inr fbs (tr : list (event (Pkg atom))) fbd :
  group_by_digest w pkg_path fbs = (tr, inr fbd) →
  tr = (λ f, Chksum (pjoin pkg_path [f])) <$> colliding fbs ∧
  fbd = grouping (digests w pkg_path (colliding fbs)) [] ∧
  Forall (λ f, is_Some (digest_of w pkg_path f)) (colliding fbs).
Proof. apply size_groups_loop. Qed.

(** Whether it ends or not, it hashes nothing but colliding files, and
    yields nothing. *)
Lemma group_by_digest_event fbs (ev : event (Pkg atom)) :
  ev ∈ (group_by_digest w pkg_path fbs).1 →
  ∃ f, f ∈ colliding fbs ∧ ev = Chksum (pjoin pkg_path [f]).
Proof.
  revert ev. apply Forall_forall. unfold group_by_digest.
  apply for_each_trace_Forall. intros [size files] fbd Hin.
  destruct (1 <? length files)%nat eqn:Hlen; [|constructor].
  apply for_each_trace_Forall. intros f fbd' Hf.
  assert (f ∈ colliding fbs) as Hc.
  { unfold colliding. apply list_elem_of_bind. exists (size, files).
    by rewrite Hlen. }
  unfold bind, logged, ret; simpl.
  destruct (get_chksums w (pjoin pkg_path [f])); simpl;
    repeat constructor; eauto.
Qed.

(** One result for each digest that two files or more have. *)
Lemma yield_duplicates_eq fbd :
  yield_duplicates pkg fbd =
    ((λ '(_, files), Yield (DuplicateFiles (sorted_strs files) pkg)) <$>
       filter (λ '(_, files), (1 < length files)%nat) fbd,
     inr tt).
Proof.
  unfold yield_duplicates. generalize tt at 1 as u.
  induction fbd as [|[digest files] fbd IH]; intros []; [done|].
  simpl. rewrite filter_cons. unfold bind, when.
  destruct (Nat.ltb_spec 1 (length files)); simpl.
  - rewrite decide_True by done. by rewrite IH.
  - rewrite decide_False by lia. by rewrite IH.
Qed.

End Duplicates.

(** ** The whole check *)

Section Feed.
Context {atom : Type} (w : world) (pkg : Pkg atom).

Import PkgDirCheck.

(** A check that ends has gone through its four passes. *)
Lemma feed_inr pkgset tr :
  feed w (pkg :: pkgset) = (tr, inr tt) →
  let pkg_path := pkg_path_of w pkg in
  ∃ tr_dir tr_walk files_by_size tr_digest files_by_digest,
    scan_pkgdir w pkg pkg_path = (tr_dir, inr tt) ∧
    walk_filesdir w pkg pkg_path = (tr_walk, inr files_by_size) ∧
    group_by_digest w pkg_path files_by_size
      = (tr_digest, inr files_by_digest) ∧
    tr = tr_dir ++ tr_walk ++ tr_digest ++
         (yield_duplicates pkg files_by_digest).1.
Proof.
  intros Hf pkg_path. unfold feed in Hf.
  change (pjoin (target_repo_location w) [category pkg; package pkg])
    with pkg_path in Hf.
  apply bind_inr in Hf as (tr0 & [] & tra & H0 & Hf & ->).
  apply bind_inr in Hf as (tr1 & fbs & trb & H1 & Hf & ->).
  apply bind_inr in Hf as (tr2 & fbd & trc & H2 & Hf & ->).
  exists tr0, tr1, fbs, tr2, fbd. by rewrite Hf.
Qed.

End Feed.

(** ** One entry of the package directory *)

Section PkgdirEntry.
Context {atom : Type} (w : world) (pkg : Pkg atom) (pkg_path : str).

Import PkgDirCheck.

(** One step of a run of the body of the loop: what is next looked at is
    taken to be each of the things it can be. *)
Ltac run_entry :=
  progress simpl ||
  match goal with
  | |- context [os_stat ?w ?p] => destruct (os_stat w p) eqn:?
  | |- context [S_ISREG ?m] => destruct (S_ISREG m) eqn:?
  | |- context [N.land ?m 73 =? 0] => destruct (N.land m 73 =? 0) eqn:?
  | |- context [nonempty ?s] => destruct (nonempty s) eqn:?
  | |- context [endswith ?s ?e] => destruct (endswith s e) eqn:?
  | |- context [open_rb ?w ?p] => destruct (open_rb w p) eqn:?
  | |- context [decode ?w ?b] => destruct (decode w b) eqn:?
  | |- context [atom_cls ?w ?a] => destruct (atom_cls w a) eqn:?
  | |- context [str_eqb ?a ?b] => destruct (str_eqb a b) eqn:?
  | |- context [gentoo_repo ?w] => destruct (gentoo_repo w) eqn:?
  | |- context [bool_decide ?P] => destruct (bool_decide P) eqn:?
  end.

Lemma pkgdir_entry_ignored filename acc :
  gitignored w (pjoin pkg_path [filename]) = true →
  pkgdir_entry w pkg pkg_path filename acc = ret acc.
Proof. intros H. unfold pkgdir_entry. by rewrite H. Qed.

(** What the check of an entry yields. *)
Lemma pkgdir_entry_trace filename acc :
  gitignored w (pjoin pkg_path [filename]) = false →
  (pkgdir_entry w pkg pkg_path filename acc).1 =
    (if executable w (pjoin pkg_path [filename])
     then [Yield (ExecutableFile filename pkg)] else []) ++
    (if nonempty (banned_chars filename)
     then [Yield (BannedCharacter filename
                    (sorted_chars (banned_chars filename)) pkg)]
     else []) ++
    (if endswith filename ebuild_ext then
       match open_rb w (pjoin pkg_path [filename]) with
       | inr content =>
           match decode w (read 8192 content) with
           | Some e => [Yield (InvalidUTF8 filename e pkg)]
           | None => []
           end
       | inl _ => []
       end
     else []).
Proof.
  intros Hi. unfold pkgdir_entry, executable, isfile. rewrite Hi.
  repeat run_entry; done.
Qed.

(** How it ends: only the opening of an ebuild can stop the scan. *)
Lemma pkgdir_entry_raises filename acc e :
  (pkgdir_entry w pkg pkg_path filename acc).2 = inl e ↔
  gitignored w (pjoin pkg_path [filename]) = false ∧
  endswith filename ebuild_ext = true ∧
  open_rb w (pjoin pkg_path [filename]) = inl e.
Proof.
  unfold pkgdir_entry, isfile.
  destruct (gitignored w (pjoin pkg_path [filename]));
    [simpl; naive_solver|].
  repeat run_entry; naive_solver.
Qed.

(** The events of a check do not depend on the names collected before. *)
Lemma pkgdir_entry_trace_indep filename acc acc' :
  (pkgdir_entry w pkg pkg_path filename acc).1 =
  (pkgdir_entry w pkg pkg_path filename acc').1.
Proof.
  destruct (gitignored w (pjoin pkg_path [filename])) eqn:Hi.
  - by rewrite !pkgdir_entry_ignored.
  - by rewrite !pkgdir_entry_trace.
Qed.

End PkgdirEntry.

(** ** The listing of the package directory *)

Section Scan.
Context {atom : Type} (w : world) (pkg : Pkg atom) (pkg_path : str).

Import PkgDirCheck.

Lemma entry_events_eq filename :
  entry_events w pkg pkg_path filename =
    if gitignored w (pjoin pkg_path [filename]) then [] else
    (if executable w (pjoin pkg_path [filename])
     then [Yield (ExecutableFile filename pkg)] else []) ++
    (if nonempty (banned_chars filename)
     then [Yield (BannedCharacter filename
                    (sorted_chars (banned_chars filename)) pkg)]
     else []) ++
    (if endswith filename ebuild_ext then
       match open_rb w (pjoin pkg_path [filename]) with
       | inr content =>
           match decode w (read 8192 content) with
           | Some e => [Yield (InvalidUTF8 filename e pkg)]
           | None => []
           end
       | inl _ => []
       end
     else []).
Proof.
  unfold entry_events.
  destruct (gitignored w (pjoin pkg_path [filename])) eqn:Hi.
  - by rewrite pkgdir_entry_ignored.
  - by apply pkgdir_entry_trace.
Qed.

(** How the check of an entry ends. *)
Lemma pkgdir_entry_outcome filename acc :
  match open_error w pkg_path filename with
  | Some e => (pkgdir_entry w pkg pkg_path filename acc).2 = inl e
  | None => ∃ acc', (pkgdir_entry w pkg pkg_path filename acc).2 = inr acc'
  end.
Proof.
  destruct (open_error w pkg_path filename) as [e|] eqn:Ho.
  - apply pkgdir_entry_raises. unfold open_error in Ho.
    repeat case_match; naive_solver.
  - destruct (pkgdir_entry w pkg pkg_path filename acc).2 as [e|acc'] eqn:He;
      [|by eexists].
    apply pkgdir_entry_raises in He as (Hi & He & Hop).
    unfold open_error in Ho. by rewrite Hi, He, Hop in Ho.
Qed.

(** The loop ends with the first failure to open an ebuild. *)
Lemma scan_loop_outcome filenames acc :
  match head (omap (open_error w pkg_path) filenames) with
  | Some e => (for_each filenames (pkgdir_entry w pkg pkg_path) acc).2 = inl e
  | None =>
      ∃ acc', (for_each filenames (pkgdir_entry w pkg pkg_path) acc).2
              = inr acc'
  end.
Proof.
  revert acc. induction filenames as [|fn filenames IH]; intros acc; simpl.
  - by eexists.
  - pose proof (pkgdir_entry_outcome fn acc) as Ho. unfold bind.
    destruct (open_error w pkg_path fn) as [e|]; simpl.
    + by rewrite Ho.
    + destruct Ho as [acc' ->]. simpl. apply IH.
Qed.

Lemma summary_events_eq acc u :
  (when (negb (bool_decide (mismatched acc = [])))
     (yield (MismatchedPN (sorted_strs (mismatched acc)) pkg)) ;;
   when (negb (bool_decide (invalid acc = [])))
     (yield (InvalidPN (sorted_strs (invalid acc)) pkg)) ;;
   when (negb (bool_decide (unknown acc = [])))
     (yield (UnknownPkgDirEntry (sorted_strs (unknown acc)) pkg)))%gen
  = (summary_events pkg acc, inr u).
Proof.
  unfold summary_events. destruct u.
  by destruct (bool_decide (mismatched acc = [])),
    (bool_decide (invalid acc = [])), (bool_decide (unknown acc = [])).
Qed.

(** The listing ends as its loop does, or with the failure of [listdir]. *)
Lemma scan_pkgdir_outcome :
  (scan_pkgdir w pkg pkg_path).2 =
    match listdir w pkg_path with
    | inl e => inl e
    | inr filenames =>
        match head (omap (open_error w pkg_path) filenames) with
        | Some e => inl e
        | None => inr tt
        end
    end.
Proof.
  unfold scan_pkgdir. destruct (listdir w pkg_path) as [e|filenames]; [done|].
  change (call (inr filenames)) with (@ret (Pkg atom) _ filenames).
  rewrite bind_ret.
  pose proof (scan_loop_outcome filenames no_names) as Ho.
  unfold no_names in Ho. unfold bind at 1.
  destruct (head _) as [e|].
  - by rewrite Ho.
  - destruct Ho as [acc' ->]. simpl. by rewrite (summary_events_eq acc' tt).
Qed.

(** A listing that ends has checked each entry, and then told of the names
    it collected. *)
Lemma scan_pkgdir_inr tr :
  scan_pkgdir w pkg pkg_path = (tr, inr tt) →
  ∃ filenames acc,
    listdir w pkg_path = inr filenames ∧
    for_each filenames (pkgdir_entry w pkg pkg_path) no_names
      = (mjoin (entry_events w pkg pkg_path <$> filenames), inr acc) ∧
    tr = mjoin (entry_events w pkg pkg_path <$> filenames) ++
         summary_events pkg acc.
Proof.
  unfold scan_pkgdir. intros Hs.
  apply bind_inr in Hs as (tr0 & filenames & tr1 & Hl & Hs & ->).
  unfold call in Hl. injection Hl as <- Hl.
  apply bind_inr in Hs as (tr2 & acc & tr3 & Hloop & Hs & ->).
  rewrite (summary_events_eq acc tt) in Hs. injection Hs as <-.
  exists filenames, acc. fold no_names in Hloop.
  assert (tr2 = mjoin (entry_events w pkg pkg_path <$> filenames)) as ->.
  { eapply for_each_trace_concat; [|exact Hloop].
    intros fn s tr s' _ Hb. unfold entry_events.
    by rewrite (pkgdir_entry_trace_indep _ _ _ _ _ s), Hb. }
  done.
Qed.

End Scan.

(** ** The events of a whole run *)

Section Select.
Context {P : Type}.

(** The results of one class, of rounds that each give one at most. *)
Lemma select_events {X Y} (p : result P → option Y)
    (t : X → list (event P)) (g : X → option Y) (l : list X) :
  (∀ x, x ∈ l → omap p (yields (t x)) = option_list (g x)) →
  omap p (yields (mjoin (t <$> l))) = omap g l.
Proof.
  induction l as [|x l IH]; intros Ht; [done|].
  change (omap p (yields (t x ++ mjoin (t <$> l))) = omap g (x :: l)).
  rewrite yields_app, omap_app, (Ht x) by left.
  rewrite IH by (intros; apply Ht; by right). simpl. by destruct (g x).
Qed.

Lemma chksum_calls_rounds {X} (t : X → list (event P)) (l : list X) :
  (∀ x, x ∈ l → chksum_calls (t x) = []) →
  chksum_calls (mjoin (t <$> l)) = [].
Proof.
  induction l as [|x l IH]; intros Ht; [done|].
  change (chksum_calls (t x ++ mjoin (t <$> l)) = []).
  rewrite chksum_calls_app, (Ht x) by left.
  by rewrite IH by (intros; apply Ht; by right).
Qed.

Lemma yields_Yield {X} (h : X → result P) (l : list X) :
  yields ((λ x, Yield (h x)) <$> l) = h <$> l.
Proof. induction l as [|x l IH]; [done|]. simpl. f_equal. apply IH. Qed.

Lemma yields_Chksum {X} (g : X → str) (l : list X) :
  yields ((λ x, @Chksum P (g x)) <$> l) = [].
Proof. by induction l. Qed.

Lemma chksum_calls_Yield {X} (h : X → result P) (l : list X) :
  chksum_calls ((λ x, Yield (h x)) <$> l) = [].
Proof. by induction l. Qed.

Lemma chksum_calls_Chksum {X} (g : X → str) (l : list X) :
  chksum_calls ((λ x, @Chksum P (g x)) <$> l) = g <$> l.
Proof. induction l as [|x l IH]; [done|]. simpl. f_equal. apply IH. Qed.

End Select.

Section FeedTrace.
Context {atom : Type} (w : world) (pkg : Pkg atom).

Import PkgDirCheck.

(** What the check of a file of [files/] yields: nothing, unless the file
    is looked at and is a regular file. *)
Lemma file_events_eq pkg_path rf :
  file_events w pkg pkg_path rf =
    match regular_file w rf.1 rf.2 with
    | Some st =>
        let path := rel_path pkg_path rf.1 rf.2 in
        (if negb (N.land (st_mode st) 73 =? 0)
         then [Yield (ExecutableFile path pkg)] else []) ++
        (if st_size st =? 0 then [Yield (EmptyFile path pkg)]
         else if 20480 <? st_size st
              then [Yield (SizeViolation path (st_size st) pkg)] else []) ++
        (if nonempty (banned_chars rf.2)
         then [Yield (BannedCharacter path
                        (sorted_chars (banned_chars rf.2)) pkg)]
         else [])
    | None => []
    end.
Proof.
  unfold file_events, regular_file, rel_path.
  destruct (gitignored w (pjoin rf.1 [rf.2])) eqn:Hi.
  { by rewrite filesdir_entry_ignored. }
  destruct (os_lstat w (pjoin rf.1 [rf.2])) as [e|st] eqn:Hst.
  { by rewrite (filesdir_entry_lstat_error _ _ _ _ _ _ e). }
  destruct (S_ISREG (st_mode st)) eqn:Hreg.
  - by rewrite (filesdir_entry_regular _ _ _ _ _ _ st).
  - by rewrite (filesdir_entry_not_regular _ _ _ _ _ _ st).
Qed.

(** The events of a check that ends, pass by pass. *)
Lemma feed_trace rest tr :
  feed w (pkg :: rest) = (tr, inr tt) →
  let pkg_path := pkg_path_of w pkg in
  let fbs := grouping (recorded w pkg_path) [] in
  let fbd := grouping (digests w pkg_path (colliding fbs)) [] in
  ∃ filenames acc,
    listdir w pkg_path = inr filenames ∧
    tr = (mjoin (entry_events w pkg pkg_path <$> filenames) ++
          summary_events pkg acc) ++
         mjoin (file_events w pkg pkg_path <$> visited w pkg_path) ++
         ((λ f, Chksum (pjoin pkg_path [f])) <$> colliding fbs) ++
         ((λ kv, Yield (DuplicateFiles (sorted_strs kv.2) pkg)) <$>
            filter (λ kv, (1 < length kv.2)%nat) fbd).
Proof.
  intros Hf pkg_path fbs fbd.
  apply feed_inr in Hf
    as (tr_dir & tr_walk & fbs' & tr_digest & fbd' & Hs & Hw & Hd & ->).
  apply scan_pkgdir_inr in Hs as (filenames & acc & Hl & _ & ->).
  apply walk_filesdir_inr in Hw as [-> ->].
  apply group_by_digest_inr in Hd as (-> & -> & _).
  exists filenames, acc. split; [done|]. rewrite yield_duplicates_eq. simpl.
  do 3 f_equal. fold pkg_path fbs fbd.
  induction fbd as [|[d files] fbd' IH]; [done|].
  rewrite !filter_cons. simpl. case_decide; simpl; [f_equal|]; exact IH.
Qed.

End FeedTrace.

(** ** The results of each class *)

Section Classes.
Context {atom : Type} (w : world) (pkg : Pkg atom) (pkg_path : str).

Lemma entry_events_classes filename :
  let rs := yields (entry_events w pkg pkg_path filename) in
  size_violations rs = [] ∧ empty_files rs = [] ∧ duplicate_files rs = [] ∧
  chksum_calls (entry_events w pkg pkg_path filename) = [] ∧
  banned_characters rs = option_list (banned_entry w pkg_path filename).
Proof.
  rewrite entry_events_eq. unfold banned_entry.
  split_and!; repeat case_match; done.
Qed.

Lemma summary_events_classes (acc : PkgDirCheck.names) :
  let rs := yields (summary_events pkg acc) in
  size_violations rs = [] ∧ empty_files rs = [] ∧ duplicate_files rs = [] ∧
  chksum_calls (summary_events pkg acc) = [] ∧ banned_characters rs = [] ∧
  invalid_utf8 rs = [].
Proof. unfold summary_events. split_and!; repeat case_match; done. Qed.

Lemma file_events_classes rf :
  let rs := yields (file_events w pkg pkg_path rf) in
  size_violations rs = option_list (oversized w pkg_path rf) ∧
  empty_files rs = option_list (empty_file w pkg_path rf) ∧
  duplicate_files rs = [] ∧
  chksum_calls (file_events w pkg pkg_path rf) = [] ∧
  banned_characters rs = option_list (banned_file w pkg_path rf) ∧
  invalid_utf8 rs = [].
Proof.
  rewrite file_events_eq. unfold oversized, empty_file, banned_file.
  destruct (regular_file w rf.1 rf.2) as [st|]; simpl; [|done].
  destruct (N.eqb_spec (st_size st) 0) as [->|]; simpl;
    split_and!; repeat case_match; done.
Qed.

(** The duplicates are told of last, and the files are hashed just before
    that. *)
Lemma duplicate_events_classes (fbd : list (N * list str)) :
  let tr : list (event (Pkg atom)) :=
    (λ kv, Yield (DuplicateFiles (sorted_strs kv.2) pkg)) <$> fbd in
  size_violations (yields tr) = [] ∧ empty_files (yields tr) = [] ∧
  duplicate_files (yields tr) = (λ kv, sorted_strs kv.2) <$> fbd ∧
  chksum_calls tr = [] ∧ banned_characters (yields tr) = [].
Proof.
  simpl. rewrite chksum_calls_Yield.
  rewrite (yields_Yield (λ kv, DuplicateFiles (sorted_strs kv.2) pkg)).
  split_and!; try done; induction fbd as [|kv l IH]; simpl; try done.
  f_equal. apply IH.
Qed.

End Classes.

(** ** What is in the groups *)

Lemma grouping_elem key files pairs f :
  (key, files) ∈ grouping pairs [] → f ∈ files ↔ (key, f) ∈ pairs.
Proof.
  intros [-> _]%elem_of_grouping. rewrite list_elem_of_fmap. split.
  - intros ([k f'] & -> & [Hk Hin]%list_elem_of_filter).
    simpl in *. by subst k.
  - intros Hin. exists (key, f). split; [done|].
    by apply list_elem_of_filter.
Qed.

Lemma elem_of_colliding f (fbs : list (N * list str)) :
  f ∈ colliding fbs ↔
  ∃ size files, (size, files) ∈ fbs ∧ (1 < length files)%nat ∧ f ∈ files.
Proof.
  unfold colliding. rewrite list_elem_of_bind. split.
  - intros ([size files] & Hf & Hin). exists size, files.
    destruct (Nat.ltb_spec 1 (length files)); [done|].
    by apply elem_of_nil in Hf.
  - intros (size & files & Hin & Hlen & Hf). exists (size, files).
    split; [|done]. by apply Nat.ltb_lt in Hlen as ->.
Qed.

Lemma elem_of_digests w pkg_path d f fs :
  (d, f) ∈ digests w pkg_path fs ↔
  f ∈ fs ∧ digest_of w pkg_path f = Some d.
Proof.
  unfold digests. rewrite list_elem_of_omap. split.
  - intros (f' & Hin & Hd).
    destruct (digest_of w pkg_path f') as [d'|] eqn:Hd'; [|done].
    simpl in Hd. by injection Hd as <- <-.
  - intros [Hin Hd]. exists f. by rewrite Hd.
Qed.

Lemma elem_of_recorded w pkg_path size f :
  (size, f) ∈ recorded w pkg_path ↔
  ∃ rf st, rf ∈ visited w pkg_path ∧ regular_file w rf.1 rf.2 = Some st ∧
           st_size st = size ∧ size ≠ 0 ∧ f = rel_path pkg_path rf.1 rf.2.
Proof.
  unfold recorded, recorded_file. rewrite list_elem_of_omap. split.
  - intros (rf & Hin & Hr). exists rf.
    destruct (regular_file w rf.1 rf.2) as [st|]; [|done]. simpl in Hr.
    destruct (N.eqb_spec (st_size st) 0); [done|].
    injection Hr as <- <-. by exists st.
  - intros (rf & st & Hin & Hreg & <- & Hne & ->). exists rf.
    split; [done|]. rewrite Hreg. simpl. by apply N.eqb_neq in Hne as ->.
Qed.

(** ** The results of each class in a whole run *)

Section FeedClasses.
Context {atom : Type} (w : world) (pkg : Pkg atom) (rest : list (Pkg atom)).
Context (tr : list (event (Pkg atom))).
Context (Hfeed : PkgDirCheck.feed w (pkg :: rest) = (tr, inr tt)).

Let pkg_path := pkg_path_of w pkg.
Let fbs := grouping (recorded w pkg_path) [].
Let fbd := grouping (digests w pkg_path (colliding fbs)) [].

Ltac classes_of acc :=
  let Hs := fresh "Hs" in
  let Hd := fresh "Hd" in
  unfold fbd, fbs, pkg_path in *;
  pose proof (summary_events_classes pkg acc) as Hs;
  pose proof (duplicate_events_classes pkg
                (filter (λ kv, (1 < length kv.2)%nat) fbd)) as Hd;
  cbv zeta in Hs, Hd; unfold fbd, fbs, pkg_path in Hd;
  unfold size_violations, empty_files, duplicate_files, banned_characters,
    invalid_utf8 in *;
  rewrite !yields_app, !omap_app, yields_Chksum;
  let H1 := fresh in let H2 := fresh in let H3 := fresh in
  let H4 := fresh in
  destruct Hs as (H1 & H2 & H3 & _ & H4 & _);
  rewrite ?H1, ?H2, ?H3, ?H4; clear H1 H2 H3 H4;
  destruct Hd as (H1 & H2 & H3 & _ & H4);
  rewrite ?H1, ?H2, ?H3, ?H4; clear H1 H2 H3 H4.

Lemma omap_None {X Y} (l : list X) : omap (λ _, @None Y) l = [].
Proof. by induction l. Qed.

Lemma feed_size_violations :
  size_violations (yields tr) =
  omap (oversized w pkg_path) (visited w pkg_path).
Proof.
  destruct (feed_trace _ _ _ _ Hfeed) as (fs & acc & _ & ->).
  classes_of acc.
  rewrite (select_events _ _ (λ _, None))
    by (intros; apply entry_events_classes).
  rewrite (select_events _ _ (oversized w pkg_path))
    by (intros; apply file_events_classes).
  rewrite omap_None. simpl. by rewrite ?(right_id_L [] (++)).
Qed.

Lemma feed_empty_files :
  empty_files (yields tr) = omap (empty_file w pkg_path) (visited w pkg_path).
Proof.
  destruct (feed_trace _ _ _ _ Hfeed) as (fs & acc & _ & ->).
  classes_of acc.
  rewrite (select_events _ _ (λ _, None))
    by (intros; apply entry_events_classes).
  rewrite (select_events _ _ (empty_file w pkg_path))
    by (intros; apply file_events_classes).
  rewrite omap_None. simpl. by rewrite ?(right_id_L [] (++)).
Qed.

Lemma feed_banned_characters :
  ∃ filenames, listdir w pkg_path = inr filenames ∧
    banned_characters (yields tr) =
      omap (banned_entry w pkg_path) filenames ++
      omap (banned_file w pkg_path) (visited w pkg_path).
Proof.
  destruct (feed_trace _ _ _ _ Hfeed) as (fs & acc & Hl & ->).
  exists fs. split; [done|]. classes_of acc.
  rewrite (select_events _ _ (banned_entry w pkg_path))
    by (intros; apply entry_events_classes).
  rewrite (select_events _ _ (banned_file w pkg_path))
    by (intros; apply file_events_classes).
  simpl. by rewrite ?(right_id_L [] (++)).
Qed.

Lemma feed_duplicate_files :
  duplicate_files (yields tr) =
  (λ kv, sorted_strs kv.2) <$> filter (λ kv, (1 < length kv.2)%nat) fbd.
Proof.
  destruct (feed_trace _ _ _ _ Hfeed) as (fs & acc & _ & ->).
  classes_of acc.
  rewrite (select_events _ _ (λ _, None))
    by (intros; apply entry_events_classes).
  rewrite (select_events _ _ (λ _, None))
    by (intros; apply file_events_classes).
  by rewrite !omap_None.
Qed.

End FeedClasses.

(** ** Where the files of a group of digests come from *)

Section DigestGroups.
Context (w : world) (pkg_path : str).

Let fbs := grouping (recorded w pkg_path) [].
Let fbd := grouping (digests w pkg_path (colliding fbs)) [].

Lemma size_group_elem size group f :
  (size, group) ∈ fbs → f ∈ group → (size, f) ∈ recorded w pkg_path.
Proof. intros Hg Hf. by apply (grouping_elem _ _ _ _ Hg). Qed.

Lemma size_group_nonzero size group : (size, group) ∈ fbs → size ≠ 0.
Proof.
  intros Hg. pose proof Hg as [_ Hne]%elem_of_grouping.
  destruct group as [|f group]; [done|].
  assert ((size, f) ∈ recorded w pkg_path) as Hr
    by (eapply size_group_elem; [done|left]).
  apply elem_of_recorded in Hr. naive_solver.
Qed.

Lemma digest_group_elem digest files f :
  (digest, files) ∈ fbd → f ∈ files →
  digest_of w pkg_path f = Some digest ∧
  ∃ size group, (size, group) ∈ fbs ∧ (1 < length group)%nat ∧ f ∈ group.
Proof.
  intros Hg Hf. apply (grouping_elem _ _ _ _ Hg) in Hf.
  apply elem_of_digests in Hf as [Hc Hd]. split; [done|].
  by apply elem_of_colliding.
Qed.

(** The files of a digest: the colliding files that have it, in the order
    in which they were hashed. *)
Lemma digest_group_eq digest files :
  (digest, files) ∈ fbd ↔
  files = filter (λ f, digest_of w pkg_path f = Some digest) (colliding fbs) ∧
  files ≠ [].
Proof.
  unfold fbd. rewrite elem_of_grouping.
  assert ((filter (λ kf, kf.1 = digest)
            (digests w pkg_path (colliding fbs))).*2 =
          filter (λ f, digest_of w pkg_path f = Some digest) (colliding fbs))
    as ->; [|done].
  unfold digests. induction (colliding fbs) as [|f l IH]; [done|].
  simpl. rewrite (filter_cons _ f).
  destruct (digest_of w pkg_path f) as [d|] eqn:Hd; simpl.
  - rewrite filter_cons. simpl.
    destruct (decide (d = digest)) as [->|Hne].
    + rewrite decide_True by done. simpl. f_equal. apply IH.
    + rewrite decide_False by congruence. apply IH.
  - apply IH.
Qed.

End DigestGroups.

(** * The size limit and the empty files *)

(** What the check of a regular file of [files/] says of its size. *)
Lemma filesdir_entry_sizes {atom} (w : world) (pkg : Pkg atom)
    root base_dir filename fbs st :
  gitignored w (pjoin root [filename]) = false →
  os_lstat w (pjoin root [filename]) = inr st →
  S_ISREG (st_mode st) = true →
  let rs := yields (PkgDirCheck.filesdir_entry w pkg root base_dir filename
                      fbs).1 in
  size_violations rs =
    (if 20480 <? st_size st then [(pjoin base_dir [filename], st_size st)]
     else []) ∧
  empty_files rs =
    (if st_size st =? 0 then [pjoin base_dir [filename]] else []) ∧
  (PkgDirCheck.filesdir_entry w pkg root base_dir filename fbs).2 =
    inr (if st_size st =? 0 then fbs
         else PkgDirCheck.group_append (st_size st)
                (pjoin base_dir [filename]) fbs).
Proof.
  intros Hi Hst Hreg.
  rewrite (filesdir_entry_regular _ _ _ _ _ _ st) by done. simpl.
  destruct (N.eqb_spec (st_size st) 0) as [->|]; simpl;
    split_and!; repeat case_match; done.
Qed.

(** C6: a check that ends yields a [SizeViolation] for the regular files of
    [files/] that are looked at and are larger than 20480 bytes, for each
    of them once, with its size, and for no other file; a file of 20480
    bytes gives none and a file of 20481 bytes gives one. *)
Theorem C6_size_violation_above_20480 {atom} (w : world) (pkg : Pkg atom)
    (rest : list (Pkg atom)) (tr : list (event (Pkg atom))) :
  PkgDirCheck.feed w (pkg :: rest) = (tr, inr tt) →
  let pkg_path := pkg_path_of w pkg in
  size_violations (yields tr) =
    omap (oversized w pkg_path) (visited w pkg_path) ∧
  (∀ f size, (f, size) ∈ size_violations (yields tr) ↔
     ∃ rf st, rf ∈ visited w pkg_path ∧
       regular_file w rf.1 rf.2 = Some st ∧
       f = rel_path pkg_path rf.1 rf.2 ∧ size = st_size st ∧
       20480 < size) ∧
  (∀ root base_dir filename fbs st,
     gitignored w (pjoin root [filename]) = false →
     os_lstat w (pjoin root [filename]) = inr st →
     S_ISREG (st_mode st) = true →
     size_violations
       (yields (PkgDirCheck.filesdir_entry w pkg root base_dir filename
                  fbs).1) =
       if 20480 <? st_size st
       then [(pjoin base_dir [filename], st_size st)] else []).
Proof.
  intros Hfeed pkg_path.
  pose proof (feed_size_violations _ _ _ _ Hfeed) as Hsv.
  split_and!.
  - exact Hsv.
  - intros f size. rewrite Hsv, list_elem_of_omap. unfold oversized.
    split.
    + intros (rf & Hin & Ho). exists rf.
      destruct (regular_file w rf.1 rf.2) as [st|]; [|done]. simpl in Ho.
      destruct (N.ltb_spec 20480 (st_size st)); [|done].
      injection Ho as <- <-. by exists st.
    + intros (rf & st & Hin & Hreg & -> & -> & Hlt). exists rf.
      split; [done|]. rewrite Hreg. simpl.
      by apply N.ltb_lt in Hlt as ->.
  - intros. by apply filesdir_entry_sizes.
Qed.

Lemma C6_size_violation_above_20480_witness :
  size_violations (yields (PkgDirCheck.feed demo_world [pn "1.0"]).1) =
  [(lit "files/big", 20481)].
Proof.
  refine (eq_trans
            (proj1 (C6_size_violation_above_20480 demo_world (pn "1.0") []
                      _ _)) _).
  - vm_compute. reflexivity.
  - vm_compute. reflexivity.
Defined.

(** C7: in a check that ends, a regular file of [files/] of size 0 that is
    looked at yields an [EmptyFile]; the check of it leaves
    [files_by_size] as it was and yields no [SizeViolation]; no group of
    [files_by_size] is for the size 0, and every file of a
    [DuplicateFiles] is a regular file whose size is not 0. *)
Theorem C7_empty_file_excluded {atom} (w : world) (pkg : Pkg atom)
    (rest : list (Pkg atom)) (tr : list (event (Pkg atom))) :
  PkgDirCheck.feed w (pkg :: rest) = (tr, inr tt) →
  let pkg_path := pkg_path_of w pkg in
  let files_by_size := grouping (recorded w pkg_path) [] in
  (PkgDirCheck.walk_filesdir w pkg pkg_path).2 = inr files_by_size ∧
  empty_files (yields tr) =
    omap (empty_file w pkg_path) (visited w pkg_path) ∧
  (∀ size files, (size, files) ∈ files_by_size → size ≠ 0) ∧
  (∀ f size, (f, size) ∈ size_violations (yields tr) → size ≠ 0) ∧
  (∀ files f, files ∈ duplicate_files (yields tr) → f ∈ files →
     ∃ rf st, rf ∈ visited w pkg_path ∧
       regular_file w rf.1 rf.2 = Some st ∧ st_size st ≠ 0 ∧
       f = rel_path pkg_path rf.1 rf.2) ∧
  (∀ root base_dir filename fbs st,
     gitignored w (pjoin root [filename]) = false →
     os_lstat w (pjoin root [filename]) = inr st →
     S_ISREG (st_mode st) = true →
     st_size st = 0 →
     let r := PkgDirCheck.filesdir_entry w pkg root base_dir filename fbs in
     r.2 = inr fbs ∧
     empty_files (yields r.1) = [pjoin base_dir [filename]] ∧
     size_violations (yields r.1) = []).
Proof.
  intros Hfeed pkg_path fbs. split_and!.
  - apply feed_inr in Hfeed as (? & ? & fbs' & ? & ? & _ & Hw & _).
    fold pkg_path in Hw. rewrite Hw. simpl. f_equal.
    by apply walk_filesdir_inr in Hw as [_ ->].
  - by apply (feed_empty_files _ _ _ _ Hfeed).
  - intros size files. apply size_group_nonzero.
  - intros f size. rewrite (feed_size_violations _ _ _ _ Hfeed).
    intros (rf & _ & Ho)%list_elem_of_omap. unfold oversized in Ho.
    destruct (regular_file w rf.1 rf.2) as [st|]; [|done]. simpl in Ho.
    destruct (N.ltb_spec 20480 (st_size st)); [|done].
    injection Ho as _ <-. lia.
  - intros files f. rewrite (feed_duplicate_files _ _ _ _ Hfeed).
    intros ([digest group] & -> & [_ Hg]%list_elem_of_filter)%list_elem_of_fmap.
    simpl. rewrite sorted_strs_Permutation. intros Hf.
    destruct (digest_group_elem _ _ _ _ _ Hg Hf)
      as (_ & size & group' & Hs & _ & Hf').
    pose proof (size_group_elem _ _ _ _ _ Hs Hf') as Hr.
    apply elem_of_recorded in Hr as (rf & st & ? & ? & ? & ? & ?).
    exists rf, st. split_and!; try done. congruence.
  - intros root base_dir filename fbs0 st Hi Hst Hreg Hz r.
    destruct (filesdir_entry_sizes w pkg root base_dir filename fbs0 st)
      as (Hsv & He & Ho); try done.
    subst r. rewrite Hsv, He, Ho, Hz. done.
Qed.

Lemma C7_empty_file_excluded_witness :
  empty_files (yields (PkgDirCheck.feed demo_world [pn "1.0"]).1) =
  [lit "files/empty"].
Proof.
  refine (eq_trans
            (proj1 (proj2 (C7_empty_file_excluded demo_world (pn "1.0") []
                             _ _))) _).
  - vm_compute. reflexivity.
  - vm_compute. reflexivity.
Defined.

(** * What is not a regular file, and what is ignored *)

(** C10: the check of a file of [files/] that [os.lstat] does not call a
    regular file yields nothing and records nothing; every event of the
    walk comes from the check of a file, never of a directory, that is
    looked at and that [os.lstat] calls regular; a tree without such a
    file gives no event. *)
Theorem C10_only_regular_files_checked {atom} (w : world) (pkg : Pkg atom) :
  let pkg_path := pkg_path_of w pkg in
  (∀ root base_dir filename fbs st,
     os_lstat w (pjoin root [filename]) = inr st →
     S_ISREG (st_mode st) = false →
     PkgDirCheck.filesdir_entry w pkg root base_dir filename fbs = ret fbs) ∧
  (∀ ev, ev ∈ (PkgDirCheck.walk_filesdir w pkg pkg_path).1 →
     ∃ root dirs files filename st,
       (root, dirs, files) ∈ os_walk (scandir w (filesdir pkg_path))
                               (filesdir pkg_path) ∧
       filename ∈ files ∧
       gitignored w (pjoin root [filename]) = false ∧
       os_lstat w (pjoin root [filename]) = inr st ∧
       S_ISREG (st_mode st) = true ∧
       ev ∈ (PkgDirCheck.filesdir_entry w pkg root
               (drop (length pkg_path + 1) root) filename []).1) ∧
  ((∀ rf, rf ∈ visited w pkg_path → regular_file w rf.1 rf.2 = None) →
   (PkgDirCheck.walk_filesdir w pkg pkg_path).1 = []).
Proof.
  intros pkg_path.
  assert (∀ ev, ev ∈ (PkgDirCheck.walk_filesdir w pkg pkg_path).1 →
            ∃ rf st, rf ∈ visited w pkg_path ∧
              regular_file w rf.1 rf.2 = Some st ∧
              ev ∈ file_events w pkg pkg_path rf) as Hev.
  { intros ev (rf & Hin & Hev)%walk_filesdir_event. exists rf.
    pose proof Hev as Hev'. rewrite file_events_eq in Hev'.
    destruct (regular_file w rf.1 rf.2) as [st|]; [by exists st|].
    by apply elem_of_nil in Hev'. }
  split_and!.
  - intros. by eapply filesdir_entry_not_regular.
  - intros ev (rf & st & Hin & Hreg & Hin')%Hev.
    unfold visited in Hin.
    apply list_elem_of_bind in Hin as ([[root dirs] files] & Hrf & Ht).
    apply list_elem_of_fmap in Hrf as (filename & -> & Hfn).
    exists root, dirs, files, filename. unfold regular_file in Hreg.
    simpl in Hreg.
    destruct (gitignored w (pjoin root [filename])); [done|].
    destruct (os_lstat w (pjoin root [filename])) as [e|st']; [done|].
    destruct (S_ISREG (st_mode st')) eqn:Hr; [|done].
    exists st'. by split_and!.
  - intros Hnone.
    destruct (PkgDirCheck.walk_filesdir w pkg pkg_path).1 as [|ev tr] eqn:Htr;
      [done|].
    destruct (Hev ev) as (rf & st & Hin & Hreg & _); [left|].
    by rewrite (Hnone rf Hin) in Hreg.
Qed.

(** ** Listings without the ignored entries *)

Lemma for_each_filter_dec {P X S} (Q : X → Prop) `{∀ x, Decision (Q x)}
    (xs : list X) (body : X → S → gen P S) s :
  (∀ x s, ¬ Q x → body x s = ret s) →
  for_each (filter Q xs) body s = for_each xs body s.
Proof.
  intros Hskip. revert s. induction xs as [|x xs IH]; intros s; [done|].
  rewrite filter_cons. case_decide as Hk.
  - simpl. unfold bind.
    destruct (body x s) as [tr [e|s1]]; simpl; [done|]. by rewrite IH.
  - simpl. by rewrite (Hskip x s), bind_ret.
Qed.

Lemma for_each_fmap {P X Y S} (h : X → Y) (xs : list X)
    (body : Y → S → gen P S) s :
  for_each (h <$> xs) body s = for_each xs (λ x, body (h x)) s.
Proof.
  revert s. induction xs as [|x xs IH]; intros s; [done|]. simpl.
  unfold bind. destruct (body (h x) s) as [tr [e|s1]]; simpl; [done|].
  by rewrite IH.
Qed.

Lemma list_remove_fmap {X Y} (h : str * X → str * Y) d
    (l : list (str * X)) :
  (∀ e, (h e).1 = e.1) → list_remove d (h <$> l) = h <$> list_remove d l.
Proof.
  intros Hh. induction l as [|e l IH]; [done|]. simpl. rewrite Hh.
  destruct (str_eqb e.1 d); [done|]. simpl. f_equal. apply IH.
Qed.

Lemma prune_ignore_dirs_fmap {X Y} (h : str * X → str * Y)
    (l : list (str * X)) :
  (∀ e, (h e).1 = e.1) →
  prune_ignore_dirs (h <$> l) = h <$> prune_ignore_dirs l.
Proof.
  intros Hh. unfold prune_ignore_dirs.
  assert ((h <$> l).*1 = l.*1) as ->.
  { rewrite <-list_fmap_compose. apply list_fmap_ext. intros ? e _. apply Hh. }
  generalize (filter (λ d, d ∈ l.*1) ignore_dirs). intros ds.
  revert l. induction ds as [|d ds IH]; intros l; [done|]. simpl.
  by rewrite list_remove_fmap, IH.
Qed.

Lemma list_remove_elem {X} d (l : list (str * X)) e :
  e ∈ list_remove d l → e ∈ l.
Proof.
  induction l as [|e' l IH]; simpl; [done|].
  destruct (str_eqb e'.1 d); [by right|].
  intros [->|?]%elem_of_cons; [left|right; by apply IH].
Qed.

(** Pruning takes directories away and puts none in. *)
Lemma prune_ignore_dirs_elem {X} (l : list (str * X)) e :
  e ∈ prune_ignore_dirs l → e ∈ l.
Proof.
  unfold prune_ignore_dirs.
  generalize (filter (λ d, d ∈ l.*1) ignore_dirs). intros ds.
  revert l. induction ds as [|d ds IH]; intros l; [done|]. simpl.
  intros Hin%IH. by eapply list_remove_elem.
Qed.

(** The walk of a tree without its ignored files is the walk of the tree,
    with the ignored files taken out of each list of files. *)
Lemma os_walk_hide_tree ignored t top :
  os_walk (hide_tree ignored t top) top =
  (λ '(root, dirs, files),
     (root, dirs, filter (λ f, ignored (pjoin root [f]) = false) files)) <$>
    os_walk t top.
Proof.
  revert top. induction t as [|dirs nondirs IH] using dirtree_nested_ind;
    intros top; [done|].
  simpl. f_equal.
  { do 2 f_equal. rewrite <-list_fmap_compose. by apply list_fmap_ext. }
  rewrite <-list_fmap_compose.
  rewrite (prune_ignore_dirs_fmap
             (λ e, (e.1, os_walk (hide_tree ignored e.2 (pjoin top [e.1])))))
    by done.
  rewrite (prune_ignore_dirs_fmap (λ e, (e.1, os_walk e.2))) by done.
  rewrite <-!list_fmap_compose.
  assert (Forall (λ e, ∀ top, os_walk (hide_tree ignored e.2 top) top =
            (λ '(root, dirs, files),
               (root, dirs,
                filter (λ f, ignored (pjoin root [f]) = false) files)) <$>
              os_walk e.2 top) (prune_ignore_dirs dirs)) as Hp.
  { apply Forall_forall. intros e He%prune_ignore_dirs_elem.
    by eapply Forall_forall in IH. }
  induction Hp as [|e l He Hl IHl]; [done|]. simpl.
  rewrite fmap_app, He. f_equal. apply IHl.
Qed.

Section Hide.
Context {atom : Type} (w : world) (pkg : Pkg atom) (pkg_path : str).

Import PkgDirCheck.

Lemma scan_pkgdir_hide_ignored :
  scan_pkgdir (hide_ignored w) pkg pkg_path = scan_pkgdir w pkg pkg_path.
Proof.
  unfold scan_pkgdir. simpl.
  destruct (listdir w pkg_path) as [e|filenames]; [done|].
  change (call (inr ?l)) with (@ret (Pkg atom) _ l). rewrite !bind_ret.
  f_equal.
  apply (for_each_filter_dec
           (λ f, gitignored w (pjoin pkg_path [f]) = false)).
  intros f s Hi. apply pkgdir_entry_ignored.
  by destruct (gitignored w (pjoin pkg_path [f])).
Qed.

Lemma walk_filesdir_hide_ignored :
  walk_filesdir (hide_ignored w) pkg pkg_path = walk_filesdir w pkg pkg_path.
Proof.
  unfold walk_filesdir. simpl. rewrite os_walk_hide_tree, for_each_fmap.
  apply for_each_ext. intros [[root dirs] files] s _.
  apply (for_each_filter_dec (λ f, gitignored w (pjoin root [f]) = false)).
  intros f s' Hi. apply filesdir_entry_ignored.
  by destruct (gitignored w (pjoin root [f])).
Qed.

End Hide.

(** C8: an entry of the package directory, or a file of [files/], that
    is ignored is passed over before any check, so that nothing is yielded
    or recorded for it; and the check gives the same events and ends in
    the same way when the listings do not show the ignored entries. *)
Theorem C8_ignored_entries_invisible {atom} (w : world)
    (pkgset : list (Pkg atom)) :
  PkgDirCheck.feed (hide_ignored w) pkgset = PkgDirCheck.feed w pkgset ∧
  (∀ pkg pkg_path filename acc,
     gitignored w (pjoin pkg_path [filename]) = true →
     PkgDirCheck.pkgdir_entry w pkg pkg_path filename acc
       = @ret (Pkg atom) _ acc) ∧
  (∀ pkg root base_dir filename fbs,
     gitignored w (pjoin root [filename]) = true →
     PkgDirCheck.filesdir_entry w pkg root base_dir filename fbs
       = @ret (Pkg atom) _ fbs).
Proof.
  split_and!.
  - destruct pkgset as [|pkg rest]; [done|]. unfold PkgDirCheck.feed.
    rewrite scan_pkgdir_hide_ignored, walk_filesdir_hide_ignored. done.
  - intros. by apply pkgdir_entry_ignored.
  - intros. by apply filesdir_entry_ignored.
Qed.

(** * The entries of the package directory *)

Ltac run_pkgdir_entry :=
  progress simpl ||
  match goal with
  | |- context [os_stat ?w ?p] => destruct (os_stat w p) eqn:?
  | |- context [S_ISREG ?m] => destruct (S_ISREG m) eqn:?
  | |- context [N.land ?m 73 =? 0] => destruct (N.land m 73 =? 0) eqn:?
  | |- context [nonempty ?s] => destruct (nonempty s) eqn:?
  | |- context [decode ?w ?b] => destruct (decode w b) eqn:?
  | |- context [atom_cls ?w ?a] => destruct (atom_cls w a) eqn:?
  | |- context [str_eqb ?a ?b] => destruct (str_eqb a b) eqn:?
  end.

(** The names that the check of an ebuild that could be opened collects. *)
Lemma pkgdir_entry_names {atom} (w : world) (pkg : Pkg atom)
    pkg_path filename acc content :
  gitignored w (pjoin pkg_path [filename]) = false →
  endswith filename PkgDirCheck.ebuild_ext = true →
  open_rb w (pjoin pkg_path [filename]) = inr content →
  (PkgDirCheck.pkgdir_entry w pkg pkg_path filename acc).2 =
    inr match atom_cls w (lit "=" ++ category pkg ++ lit "/" ++
                          pkg_name_of filename) with
        | Some pn =>
            if negb (str_eqb pn (basename pkg_path))
            then {| PkgDirCheck.mismatched :=
                      PkgDirCheck.mismatched acc ++ [pkg_name_of filename];
                    PkgDirCheck.invalid := PkgDirCheck.invalid acc;
                    PkgDirCheck.unknown := PkgDirCheck.unknown acc |}
            else acc
        | None =>
            {| PkgDirCheck.mismatched := PkgDirCheck.mismatched acc;
               PkgDirCheck.invalid :=
                 PkgDirCheck.invalid acc ++ [pkg_name_of filename];
               PkgDirCheck.unknown := PkgDirCheck.unknown acc |}
        end.
Proof.
  intros Hi He Ho.
  unfold PkgDirCheck.pkgdir_entry, PkgDirCheck.isfile, pkg_name_of.
  rewrite Hi, He, Ho. repeat run_pkgdir_entry; done.
Qed.

(** C3, as it is stated, does not hold: an ebuild that cannot be opened
    stops the scan of a package directory that could be listed. *)
Lemma C3_open_failure_aborts_scan :
  ¬ entry_errors_reported unreadable_world (pn "1.0").
Proof.
  intros H.
  specialize (H [lit "x.ebuild"; lit "bad name"]).
  assert ((PkgDirCheck.scan_pkgdir unreadable_world (pn "1.0")
             (pkg_path_of unreadable_world (pn "1.0"))).2
          = inl (OSError (lit "/repo/cat/pn/x.ebuild"))) as Hs
    by (vm_compute; reflexivity).
  rewrite Hs in H. discriminate H. vm_compute. reflexivity.
Qed.

(** * The banned characters *)

Lemma elem_of_range c a b : c ∈ range a b ↔ a ≤ c < b.
Proof.
  unfold range. rewrite list_elem_of_fmap. setoid_rewrite elem_of_seq.
  split.
  - intros (n & -> & Hn). lia.
  - intros Hc. exists (N.to_nat c). split; [by rewrite N2Nat.id|lia].
Qed.

(** The allowed characters: the letters, the digits and [. - _ + :]. *)
Lemma elem_of_allowed_filename_chars_set c :
  c ∈ allowed_filename_chars_set ↔
  97 ≤ c ≤ 122 ∨ 65 ≤ c ≤ 90 ∨ 48 ≤ c ≤ 57 ∨ c ∈ [46; 45; 95; 43; 58].
Proof.
  unfold allowed_filename_chars_set.
  rewrite !elem_of_union, !elem_of_list_to_set, !elem_of_range.
  change (ord "a") with 97. change (ord "z") with 122.
  change (ord "A") with 65. change (ord "Z") with 90.
  change (ord "0") with 48. change (ord "9") with 57.
  change (ord <$> ["."; "-"; "_"; "+"; ":"]%char) with [46; 45; 95; 43; 58].
  split.
  - intros [[[H|H]|H]|H];
      [left; lia|right; left; lia|right; right; left; lia|by do 3 right].
  - intros [H|[H|[H|H]]];
      [left; left; left; lia|left; left; right; lia|left; right; lia
      |by right].
Qed.

Lemma elem_of_banned_chars c filename :
  c ∈ sorted_chars (banned_chars filename) ↔
  c ∈ filename ∧ c ∉ allowed_filename_chars_set.
Proof.
  rewrite sorted_chars_elem. unfold banned_chars.
  by rewrite elem_of_difference, elem_of_list_to_set.
Qed.

Lemma nonempty_banned_chars filename :
  nonempty (banned_chars filename) = true ↔
  ∃ c, c ∈ filename ∧ c ∉ allowed_filename_chars_set.
Proof.
  unfold nonempty. rewrite negb_true_iff, bool_decide_eq_false. split.
  - intros [c Hc]%set_choose_L. exists c.
    by rewrite <-elem_of_banned_chars, sorted_chars_elem.
  - intros (c & Hc). apply elem_of_banned_chars in Hc.
    rewrite sorted_chars_elem in Hc. set_solver.
Qed.

(** C4, as it is stated, does not hold: a symbolic link of [files/] whose
    name has a space in it is looked at and gives no [BannedCharacter]. *)
Lemma C4_symlink_name_not_checked :
  ¬ every_name_checked demo_world (pn "1.0").
Proof.
  intros H.
  specialize (H (lit "/repo/cat/pn/files", lit "sym link")).
  assert (Is_true (bool_decide
            ((lit "/repo/cat/pn/files", lit "sym link")
               ∈ visited demo_world (pkg_path_of demo_world (pn "1.0")))))
    as Hv by (vm_compute; exact I).
  apply bool_decide_unpack in Hv. specialize (H Hv).
  assert (Hin := H ltac:(vm_compute; reflexivity)
                   ltac:(vm_compute; reflexivity)).
  apply (bool_decide_pack _) in Hin. vm_compute in Hin. exact Hin.
Qed.

(** C4, amended: in a check that ends, the [BannedCharacter] results are
    those of the entries of the package directory that are looked at, then
    those of the regular files of [files/] that are looked at, one for each
    name that has a character outside the allowed set and none for the
    other names; the characters of a result are the characters of the
    name that are not allowed, in increasing order, each once; the allowed
    characters are the letters, the digits and [. - _ + :]. *)
Theorem C4_banned_characters_of_checked_names {atom} (w : world)
    (pkg : Pkg atom) (rest : list (Pkg atom))
    (tr : list (event (Pkg atom))) :
  PkgDirCheck.feed w (pkg :: rest) = (tr, inr tt) →
  let pkg_path := pkg_path_of w pkg in
  (∃ filenames, listdir w pkg_path = inr filenames ∧
     banned_characters (yields tr) =
       omap (banned_entry w pkg_path) filenames ++
       omap (banned_file w pkg_path) (visited w pkg_path)) ∧
  (∀ filename,
     StronglySorted N.lt (sorted_chars (banned_chars filename)) ∧
     (∀ c, c ∈ sorted_chars (banned_chars filename) ↔
           c ∈ filename ∧ c ∉ allowed_filename_chars_set) ∧
     (nonempty (banned_chars filename) = true ↔
      ∃ c, c ∈ filename ∧ c ∉ allowed_filename_chars_set)) ∧
  (∀ c, c ∈ allowed_filename_chars_set ↔
        97 ≤ c ≤ 122 ∨ 65 ≤ c ≤ 90 ∨ 48 ≤ c ≤ 57 ∨
        c ∈ [46; 45; 95; 43; 58]).
Proof.
  intros Hfeed pkg_path. split_and!.
  - apply (feed_banned_characters _ _ _ _ Hfeed).
  - intros filename. split_and!.
    + apply sorted_chars_increasing.
    + intros c. apply elem_of_banned_chars.
    + apply nonempty_banned_chars.
  - apply elem_of_allowed_filename_chars_set.
Qed.

Lemma C4_banned_characters_of_checked_names_witness :
  banned_characters (yields (PkgDirCheck.feed demo_world [pn "1.0"]).1) =
  [(lit "read me", [32]); (lit "files/sub dir/c~", [126])].
Proof.
  destruct (C4_banned_characters_of_checked_names demo_world (pn "1.0") []
              (PkgDirCheck.feed demo_world [pn "1.0"]).1)
    as [(filenames & Hl & ->) _].
  - vm_compute. reflexivity.
  - vm_compute in Hl. injection Hl as <-. vm_compute. reflexivity.
Defined.

(** * The duplicates *)

(** C5, as it is stated, does not hold: when the checksum function gives
    files of two sizes the same digest, they are put in one group. *)
Lemma C5_colliding_digest_mixes_sizes :
  ¬ digest_groups_of_one_size collision_world (lit "/repo/cat/pn").
Proof.
  intros H.
  assert (10 = 20) as Hs; [|done].
  apply (H 7 [lit "files/a"; lit "files/b"; lit "files/c"; lit "files/d"]
           (lit "files/a") (lit "files/c"));
    apply (bool_decide_unpack _); vm_compute; exact I.
Qed.

(** C5, amended: in [files_by_digest], as a search that ends has built
    it, the files of a digest are the files of the groups of
    [files_by_size] with two files or more for which the checksum function
    returned that digest, in the order in which they were hashed; so they
    all have that digest, and each has its size in common with another
    recorded file, but two of them have the same size only as far as the
    checksum function tells sizes apart. *)
Theorem C5_digest_groups_by_digest_only {atom} (w : world) (pkg : Pkg atom)
    (pkg_path : str) (tr_walk tr_digest : list (event (Pkg atom)))
    (files_by_size files_by_digest : list (N * list str)) :
  PkgDirCheck.walk_filesdir w pkg pkg_path = (tr_walk, inr files_by_size) →
  PkgDirCheck.group_by_digest w pkg_path files_by_size
    = (tr_digest, inr files_by_digest) →
  NoDup files_by_digest.*1 ∧
  ∀ digest files, (digest, files) ∈ files_by_digest ↔
    files = filter (λ f, digest_of w pkg_path f = Some digest)
              (colliding files_by_size) ∧
    files ≠ [].
Proof.
  intros Hw Hd. apply walk_filesdir_inr in Hw as [_ ->].
  apply group_by_digest_inr in Hd as (_ & -> & _). split.
  - apply grouping_NoDup. constructor.
  - intros digest files. apply digest_group_eq.
Qed.

Lemma C5_digest_groups_by_digest_only_witness :
  NoDup [(7, [lit "files/a"; lit "files/b"; lit "files/c";
              lit "files/d"])].*1.
Proof.
  set (fbs := [(10, [lit "files/a"; lit "files/b"]);
               (20, [lit "files/c"; lit "files/d"])]).
  apply (proj1 (C5_digest_groups_by_digest_only collision_world (pn "1.0")
                  (lit "/repo/cat/pn")
                  (PkgDirCheck.walk_filesdir collision_world (pn "1.0")
                     (lit "/repo/cat/pn")).1
                  (PkgDirCheck.group_by_digest collision_world
                     (lit "/repo/cat/pn") fbs).1
                  fbs _
                  ltac:(vm_compute; reflexivity)
                  ltac:(vm_compute; reflexivity))).
Defined.

(** C2: in a check that ends, the checksum function is called after the
    walk and the results of the walk, for the files of the groups of
    [files_by_size] that have two files or more, once each and in order,
    and for no other file; then one [DuplicateFiles] is yielded for each
    digest that two files or more have, with the paths of these files,
    sorted; nothing else is hashed and no other [DuplicateFiles] is
    yielded. *)
Theorem C2_digests_only_for_colliding_sizes {atom} (w : world)
    (pkg : Pkg atom) (rest : list (Pkg atom))
    (tr : list (event (Pkg atom))) :
  PkgDirCheck.feed w (pkg :: rest) = (tr, inr tt) →
  let pkg_path := pkg_path_of w pkg in
  let files_by_size := grouping (recorded w pkg_path) [] in
  let files_by_digest :=
    grouping (digests w pkg_path (colliding files_by_size)) [] in
  (∃ tr_before,
     tr = tr_before ++
          ((λ f, Chksum (pjoin pkg_path [f])) <$> colliding files_by_size) ++
          ((λ kv, Yield (DuplicateFiles (sorted_strs kv.2) pkg)) <$>
             filter (λ kv, (1 < length kv.2)%nat) files_by_digest) ∧
     chksum_calls tr_before = [] ∧
     duplicate_files (yields tr_before) = []) ∧
  chksum_calls tr = (λ f, pjoin pkg_path [f]) <$> colliding files_by_size ∧
  (∀ f, f ∈ colliding files_by_size ↔
     ∃ size files, (size, files) ∈ files_by_size ∧
       (1 < length files)%nat ∧ f ∈ files) ∧
  (∀ size files, (size, files) ∈ files_by_size ↔
     files = (filter (λ kf, kf.1 = size) (recorded w pkg_path)).*2 ∧
     files ≠ []) ∧
  duplicate_files (yields tr) =
    (λ kv, sorted_strs kv.2) <$>
      filter (λ kv, (1 < length kv.2)%nat) files_by_digest ∧
  NoDup files_by_digest.*1 ∧
  (∀ files, sorted_strs files ≡ₚ files ∧
            StronglySorted str_le (sorted_strs files)).
Proof.
  intros Hfeed pkg_path fbs fbd.
  destruct (feed_trace _ _ _ _ Hfeed) as (fs & acc & _ & Htr).
  fold pkg_path fbs fbd in Htr.
  assert (chksum_calls
            ((mjoin (entry_events w pkg pkg_path <$> fs) ++
              summary_events pkg acc) ++
             mjoin (file_events w pkg pkg_path <$> visited w pkg_path))
          = []) as Hbefore.
  { rewrite !chksum_calls_app.
    rewrite !chksum_calls_rounds.
    - by rewrite (proj1 (proj2 (proj2 (proj2
                    (summary_events_classes pkg acc))))).
    - intros. apply file_events_classes.
    - intros. apply entry_events_classes. }
  split_and!.
  - exists ((mjoin (entry_events w pkg pkg_path <$> fs) ++
             summary_events pkg acc) ++
            mjoin (file_events w pkg pkg_path <$> visited w pkg_path)).
    split; [|split; [exact Hbefore|]].
    + rewrite Htr. by rewrite <-!(assoc_L (++)).
    + unfold duplicate_files. rewrite !yields_app, !omap_app.
      rewrite !(select_events _ _ (λ _, None)).
      * rewrite !omap_None, (right_id_L [] (++)). simpl.
        apply (summary_events_classes pkg acc).
      * intros. apply file_events_classes.
      * intros. apply entry_events_classes.
  - rewrite Htr, (assoc_L (++)), chksum_calls_app, Hbefore.
    rewrite chksum_calls_app,
      (chksum_calls_Chksum (λ f, pjoin pkg_path [f])),
      (chksum_calls_Yield (λ kv, DuplicateFiles (sorted_strs kv.2) pkg)).
    simpl. by rewrite (right_id_L [] (++)).
  - intros f. apply elem_of_colliding.
  - intros size files. apply elem_of_grouping.
  - apply (feed_duplicate_files _ _ _ _ Hfeed).
  - apply grouping_NoDup. constructor.
  - intros files. split;
      [apply sorted_strs_Permutation|apply sorted_strs_sorted].
Qed.

Lemma C2_digests_only_for_colliding_sizes_witness :
  chksum_calls (PkgDirCheck.feed demo_world [pn "1.0"]).1 =
  [lit "/repo/cat/pn/files/a.patch";
   lit "/repo/cat/pn/files/sub dir/b.patch";
   lit "/repo/cat/pn/files/sub dir/c~"].
Proof.
  refine (eq_trans
            (proj1 (proj2 (C2_digests_only_for_colliding_sizes demo_world
                             (pn "1.0") [] _ _))) _).
  - vm_compute. reflexivity.
  - vm_compute. reflexivity.
Defined.

(** * The equal versions *)

Section EqualVersions.
Context {atom : Type} (atom_eqb : atom → atom → bool).
Context (pkg_ltb : Pkg atom → Pkg atom → bool).

Import EqualVersionsCheck.

Let equal_atoms (ab : Pkg atom * Pkg atom) : Prop :=
  atom_eqb (versioned_atom ab.1) (versioned_atom ab.2) = true.

(** The loop looks at each package with the one that follows it, and
    stops at the last one. *)
Lemma scan_adjacent sorted_pkgset l j d :
  drop j sorted_pkgset = l →
  scan atom_eqb sorted_pkgset (zip (seq j (length l)) l) d =
  foldl (add_versions atom_eqb) d (filter equal_atoms (adjacent l)).
Proof.
  revert j d. induction l as [|a l IH]; intros j d Hd; [done|]. simpl.
  assert (drop (S j) sorted_pkgset = l) as Hd'.
  { rewrite <-(Nat.add_1_r j), <-drop_drop, Hd. done. }
  assert (sorted_pkgset !! (j + 1)%nat = head l) as ->.
  { rewrite <-Hd', <-(Nat.add_0_r (j + 1)), Nat.add_1_r, <-lookup_drop.
    by destruct (drop (S j) sorted_pkgset). }
  destruct l as [|b l']; [done|].
  change (head (b :: l')) with (Some b). cbv iota beta.
  rewrite (IH (S j)) by done.
  change (adjacent (a :: b :: l')) with ((a, b) :: adjacent (b :: l')).
  rewrite filter_cons.
  destruct (atom_eqb (versioned_atom a) (versioned_atom b)) eqn:Hab.
  - by rewrite decide_True.
  - rewrite decide_False; [done|]. unfold equal_atoms. simpl. congruence.
Qed.

Lemma equal_versions_eq pkgset :
  equal_versions atom_eqb pkg_ltb pkgset =
  foldl (add_versions atom_eqb) []
    (filter equal_atoms (adjacent (sorted pkg_ltb pkgset))).
Proof. unfold equal_versions, enumerate. by apply scan_adjacent. Qed.

Lemma elem_of_adjacent {X} (l : list X) a b :
  (a, b) ∈ adjacent l ↔ ∃ i, l !! i = Some a ∧ l !! S i = Some b.
Proof.
  unfold adjacent. rewrite list_elem_of_lookup. split.
  - intros [i Hi]. exists i. apply lookup_zip_with_Some in Hi
      as (a' & b' & [= <- <-] & Ha & Hb).
    rewrite lookup_drop in Hb. done.
  - intros (i & Ha & Hb). exists i. apply lookup_zip_with_Some.
    exists a, b. by rewrite lookup_drop.
Qed.

Lemma add_versions_distinct pairs d :
  distinct_keys atom_eqb d →
  distinct_keys atom_eqb (foldl (add_versions atom_eqb) d pairs).
Proof.
  revert d. induction pairs as [|ab pairs IH]; intros d Hd; [done|].
  simpl. apply IH. by apply dict_upd_distinct.
Qed.

Lemma add_versions_key k pairs d :
  k ∈ (foldl (add_versions atom_eqb) d pairs).*1 →
  k ∈ d.*1 ∨ ∃ ab, ab ∈ pairs ∧ k = versioned_atom ab.1.
Proof.
  revert d. induction pairs as [|ab pairs IH]; intros d; [by left|].
  simpl. intros [[?| ->]%dict_upd_key_inv|(ab' & ? & ?)]%IH.
  - by left.
  - right. exists ab. split; [left|done].
  - right. exists ab'. split; [by right|done].
Qed.

Lemma add_versions_key_old k pairs d :
  k ∈ d.*1 → k ∈ (foldl (add_versions atom_eqb) d pairs).*1.
Proof.
  revert d. induction pairs as [|ab pairs IH]; intros d Hk; [done|].
  simpl. apply IH. by apply dict_upd_key_old.
Qed.

Context (eqb_refl : ∀ a, atom_eqb a a = true).
Context (eqb_sym : ∀ a b, atom_eqb a b = atom_eqb b a).
Context (eqb_trans : ∀ a b c,
           atom_eqb a b = true → atom_eqb b c = true → atom_eqb a c = true).

Lemma add_versions_covers ab pairs d :
  ab ∈ pairs →
  ∃ k, k ∈ (foldl (add_versions atom_eqb) d pairs).*1 ∧
       atom_eqb k (versioned_atom ab.1) = true.
Proof.
  revert d. induction pairs as [|ab' pairs IH]; intros d Hin.
  - by apply elem_of_nil in Hin.
  - simpl. apply elem_of_cons in Hin as [<-|Hin]; [|by apply IH].
    destruct (dict_upd_key_new atom_eqb ∅
                (λ versions,
                   versions ∪ list_to_set [fullver ab.1; fullver ab.2])
                (versioned_atom ab.1) d) as (k & Hk & Heq); [done|].
    exists k. split; [|done]. by apply add_versions_key_old.
Qed.

(** The versions stored for a key: those of the pairs with that key. *)
Lemma add_versions_get k v pairs d :
  v ∈ dict_get atom_eqb ∅ k (foldl (add_versions atom_eqb) d pairs) ↔
  v ∈ dict_get atom_eqb ∅ k d ∨
  ∃ ab, ab ∈ pairs ∧ atom_eqb (versioned_atom ab.1) k = true ∧
        (v = fullver ab.1 ∨ v = fullver ab.2).
Proof.
  revert d. induction pairs as [|ab pairs IH]; intros d.
  - simpl. split; [by left|]. intros [?|(ab & Hin & _)]; [done|].
    by apply elem_of_nil in Hin.
  - simpl. rewrite IH. unfold add_versions at 1.
    destruct (atom_eqb (versioned_atom ab.1) k) eqn:Hk.
    + rewrite dict_get_upd_eq by done.
      rewrite elem_of_union, elem_of_list_to_set, !elem_of_cons, elem_of_nil.
      split.
      * intros [[?|[?|[?|[]]]]|(ab' & ? & ?)]; [by left|..].
        -- right. exists ab. split; [left|]. by split; [|left].
        -- right. exists ab. split; [left|]. by split; [|right].
        -- right. exists ab'. split; [by right|done].
      * intros [?|(ab' & [->|?]%elem_of_cons & ? & Hv)]; [by do 2 left| |].
        -- left. right. tauto.
        -- right. by exists ab'.
    + rewrite dict_get_upd_ne by done. split.
      * intros [?|(ab' & ? & ?)]; [by left|].
        right. exists ab'. split; [by right|done].
      * intros [?|(ab' & [->|?]%elem_of_cons & Hk' & Hv)]; [by left| |].
        -- congruence.
        -- right. by exists ab'.
Qed.

End EqualVersions.

Lemma for_each_yield {P X} (h : X → result P) (l : list X) :
  for_each l (λ x _, yield (h x)) tt = ((λ x, Yield (h x)) <$> l, inr tt).
Proof.
  induction l as [|x l IH]; [done|].
  change (for_each (x :: l) (λ x _, yield (h x)) tt)
    with (bind (yield (h x)) (λ u, for_each l (λ x _, yield (h x)) u)).
  unfold bind. cbn [yield fst snd]. by rewrite IH.
Qed.

Lemma text_atom_eqb_refl a : text_atom_eqb a a = true.
Proof. unfold text_atom_eqb. by apply bool_decide_eq_true_2. Qed.

Lemma text_atom_eqb_sym a b : text_atom_eqb a b = text_atom_eqb b a.
Proof. unfold text_atom_eqb. apply bool_decide_ext. by split. Qed.

Lemma text_atom_eqb_trans a b c :
  text_atom_eqb a b = true → text_atom_eqb b c = true →
  text_atom_eqb a c = true.
Proof. unfold text_atom_eqb. rewrite !bool_decide_eq_true. congruence. Qed.

(** C1, as it is stated, does not hold: four versions of one package that
    are equal two by two give two [EqualVersions]. *)
Lemma C1_two_clusters_two_findings :
  ¬ one_finding_per_package text_atom_eqb text_pkg_ltb
      [pn "2.0-r0"; pn "1.0"; pn "2.0"; pn "1.0-r0"].
Proof.
  intros H.
  assert (2 ≤ 1)%nat as Hle; [|lia].
  apply H. intros a b Ha Hb.
  rewrite !elem_of_cons, elem_of_nil in Ha, Hb.
  by destruct Ha as [->|[->|[->|[->|[]]]]],
    Hb as [->|[->|[->|[->|[]]]]].
Qed.

(** C1, amended: [equal_versions] is keyed by the versioned atom of the
    first package of a pair, so that there is one [EqualVersions] for each
    class of equal versions and not one for each package.  When [==] on
    versioned atoms is an equivalence, the check yields one result for
    each stored key, in the order in which the keys were stored; no two
    keys are equal; the key of a result is the versioned atom of a package
    that is equal to the package after it; the versions of a result are
    the versions of the packages of the pairs of adjacent equal packages
    whose atoms are equal to the key, in increasing order, each once; and
    every such pair is in a result. *)
Theorem C1_one_finding_per_versioned_atom {atom}
    (atom_eqb : atom → atom → bool)
    (pkg_ltb : Pkg atom → Pkg atom → bool) (pkgset : list (Pkg atom)) :
  (∀ a, atom_eqb a a = true) →
  (∀ a b, atom_eqb a b = atom_eqb b a) →
  (∀ a b c, atom_eqb a b = true → atom_eqb b c = true →
            atom_eqb a c = true) →
  let sorted_pkgset := sorted pkg_ltb pkgset in
  let groups := EqualVersionsCheck.equal_versions atom_eqb pkg_ltb pkgset in
  let equal_pair a b :=
    ∃ i, sorted_pkgset !! i = Some a ∧ sorted_pkgset !! S i = Some b ∧
         atom_eqb (versioned_atom a) (versioned_atom b) = true in
  EqualVersionsCheck.feed atom_eqb pkg_ltb pkgset =
    ((λ kv, Yield (EqualVersions (sorted str_ltb (elements kv.2)) kv.1)) <$>
       groups, inr tt) ∧
  distinct_keys atom_eqb groups ∧
  (∀ k versions, (k, versions) ∈ groups →
     (∃ a b, equal_pair a b ∧ k = versioned_atom a) ∧
     StronglySorted (λ u v, str_ltb u v = true)
       (sorted str_ltb (elements versions)) ∧
     ∀ v, v ∈ sorted str_ltb (elements versions) ↔
          ∃ a b, equal_pair a b ∧
                 atom_eqb k (versioned_atom a) = true ∧
                 (v = fullver a ∨ v = fullver b)) ∧
  (∀ a b, equal_pair a b →
     ∃ k versions, (k, versions) ∈ groups ∧
                   atom_eqb k (versioned_atom a) = true).
Proof.
  intros Hrefl Hsym Htrans sorted_pkgset groups equal_pair.
  assert (∀ ab, ab ∈ filter
                  (λ ab : Pkg atom * Pkg atom,
                     atom_eqb (versioned_atom ab.1) (versioned_atom ab.2)
                     = true) (adjacent sorted_pkgset)
                ↔ equal_pair ab.1 ab.2) as Hpair.
  { intros [a b]. rewrite list_elem_of_filter, elem_of_adjacent. simpl.
    unfold equal_pair. naive_solver. }
  assert (distinct_keys atom_eqb groups) as Hdist.
  { unfold groups. rewrite equal_versions_eq.
    by apply add_versions_distinct. }
  split_and!.
  - unfold EqualVersionsCheck.feed. fold groups.
    rewrite <-(for_each_yield
                 (λ kv, EqualVersions (sorted str_ltb (elements kv.2)) kv.1)).
    apply for_each_ext. by intros [k vs] [].
  - done.
  - intros k versions Hin.
    assert (versions = dict_get atom_eqb ∅ k groups) as Hv.
    { symmetry. by apply dict_get_elem. }
    assert (k ∈ groups.*1) as Hk.
    { apply list_elem_of_fmap. by exists (k, versions). }
    unfold groups in Hk, Hv. rewrite equal_versions_eq in Hk, Hv.
    split_and!.
    + apply add_versions_key in Hk as [Hk|([a b] & Hab & ->)].
      { by apply elem_of_nil in Hk. }
      exists a, b. split; [|done]. by apply (Hpair (a, b)).
    + apply sorted_strset_increasing.
    + intros v. rewrite elem_of_sorted, elem_of_elements, Hv.
      rewrite add_versions_get by done. simpl. split.
      * intros [Hv'|([a b] & Hab & Heq & Hor)]; [set_solver|].
        exists a, b. split; [by apply (Hpair (a, b))|].
        split; [by rewrite Hsym|done].
      * intros (a & b & Hab & Heq & Hor). right. exists (a, b).
        split; [by apply Hpair|]. split; [by rewrite Hsym|done].
  - intros a b Hab. apply (Hpair (a, b)) in Hab.
    destruct (add_versions_covers atom_eqb Hrefl (a, b) _ [] Hab)
      as (k & Hk & Heq).
    pose proof (equal_versions_eq atom_eqb pkg_ltb pkgset) as Hg.
    fold sorted_pkgset groups in Hg. rewrite <-Hg in Hk.
    apply list_elem_of_fmap in Hk as ([k' vs] & -> & Hin).
    by exists k', vs.
Qed.

Lemma C1_one_finding_per_versioned_atom_witness :
  EqualVersionsCheck.feed text_atom_eqb text_pkg_ltb
    [pn "2.0-r0"; pn "1.0"; pn "2.0"; pn "1.0-r0"; pn "3"] =
  ([Yield (EqualVersions [lit "1.0"; lit "1.0-r0"] (lit "=cat/pn-1.0"));
    Yield (EqualVersions [lit "2.0"; lit "2.0-r0"] (lit "=cat/pn-2.0-r0"))],
   inr tt).
Proof.
  refine (eq_trans
            (proj1 (C1_one_finding_per_versioned_atom text_atom_eqb
                      text_pkg_ltb _ text_atom_eqb_refl text_atom_eqb_sym
                      text_atom_eqb_trans)) _).
  vm_compute. reflexivity.
Defined.

(** * More of what the checks do *)

Lemma bind_trace_Forall {P A B} (Q : event P → Prop) (m : gen P A)
    (k : A → gen P B) :
  Forall Q m.1 → (∀ a, Forall Q (k a).1) → Forall Q (bind m k).1.
Proof.
  intros Hm Hk.
  destruct (bind_trace m k) as [->|(a & _ & ->)]; [done|].
  apply Forall_app. by split.
Qed.

Lemma bind_outcome {P A B} (m : gen P A) (k : A → gen P B) :
  (bind m k).2 = match m.2 with inl e => inl e | inr a => (k a).2 end.
Proof. unfold bind. by destruct m.2. Qed.

Section Known.
Context {atom : Type} (w : world) (pkg : Pkg atom).

Import PkgDirCheck.

Let about_pkg (ev : event (Pkg atom)) : Prop :=
  match ev with
  | Yield r => known_result r = true ∧ result_pkg r = pkg
  | Chksum _ => True
  end.

Lemma scan_pkgdir_about_pkg pkg_path :
  Forall about_pkg (scan_pkgdir w pkg pkg_path).1.
Proof.
  unfold scan_pkgdir. apply bind_trace_Forall; [constructor|].
  intros filenames. apply bind_trace_Forall.
  - apply for_each_trace_Forall. intros fn acc _.
    rewrite (pkgdir_entry_trace_indep _ _ _ _ _ no_names).
    fold (entry_events w pkg pkg_path fn). rewrite entry_events_eq.
    repeat case_match; repeat constructor.
  - intros acc. rewrite (summary_events_eq pkg acc tt). unfold summary_events.
    simpl. repeat case_match; repeat constructor.
Qed.

Lemma walk_filesdir_about_pkg pkg_path :
  Forall about_pkg (walk_filesdir w pkg pkg_path).1.
Proof.
  apply Forall_forall. intros ev (rf & _ & Hev)%walk_filesdir_event.
  rewrite file_events_eq in Hev. revert ev Hev. apply Forall_forall.
  repeat case_match; repeat constructor.
Qed.

Lemma feed_about_pkg rest : Forall about_pkg (feed w (pkg :: rest)).1.
Proof.
  unfold feed. apply bind_trace_Forall; [apply scan_pkgdir_about_pkg|].
  intros _. apply bind_trace_Forall; [apply walk_filesdir_about_pkg|].
  intros fbs. apply bind_trace_Forall.
  - apply Forall_forall. by intros ev (f & _ & ->)%group_by_digest_event.
  - intros fbd. rewrite yield_duplicates_eq. simpl.
    apply Forall_fmap, Forall_forall. by intros [d files] _.
Qed.

End Known.

(** X1: every result that [PkgDirCheck.feed] yields, whether the check
    ends or is stopped by an exception, is of one of the nine classes of
    [known_results], and is about the first package of the package set. *)
Theorem X1_results_known_and_about_first_package {atom} (w : world)
    (pkg : Pkg atom) (rest : list (Pkg atom)) (r : result (Pkg atom)) :
  r ∈ yields (PkgDirCheck.feed w (pkg :: rest)).1 →
  known_result r = true ∧ result_pkg r = pkg.
Proof.
  intros Hr%elem_of_yields.
  pose proof (feed_about_pkg w pkg rest) as Hall.
  rewrite Forall_forall in Hall. apply (Hall _ Hr).
Qed.

Lemma X1_results_known_and_about_first_package_witness :
  known_result (SizeViolation (lit "files/big") 20481 (pn "1.0")) = true ∧
  result_pkg (SizeViolation (lit "files/big") 20481 (pn "1.0")) = pn "1.0".
Proof.
  apply (X1_results_known_and_about_first_package demo_world (pn "1.0") []).
  apply (bool_decide_unpack _). vm_compute. exact I.
Defined.

(** ** The execute bits *)

(** [mode & 0o111] is not zero when one of the three execute bits is set. *)
Lemma execute_bits mode :
  negb (N.land mode 73 =? 0) = true ↔
  N.testbit mode 0 = true ∨ N.testbit mode 3 = true ∨
  N.testbit mode 6 = true.
Proof.
  rewrite negb_true_iff, N.eqb_neq. split.
  - intros Hne.
    destruct (N.testbit mode 0) eqn:H0; [by left|].
    destruct (N.testbit mode 3) eqn:H3; [by right; left|].
    destruct (N.testbit mode 6) eqn:H6; [by right; right|].
    exfalso. apply Hne. apply N.bits_inj. intros n.
    rewrite N.land_spec, N.bits_0.
    destruct (N.lt_ge_cases n 7) as [Hlt|Hge].
    + assert (n = 0 ∨ n = 1 ∨ n = 2 ∨ n = 3 ∨ n = 4 ∨ n = 5 ∨ n = 6)
        as Hn by lia.
      destruct Hn as [->|[->|[->|[->|[->|[->| ->]]]]]];
        rewrite ?H0, ?H3, ?H6; try done; by rewrite andb_false_r.
    + rewrite (N.bits_above_log2 73 n); [by rewrite andb_false_r|].
      change (N.log2 73) with 6. lia.
  - intros Hb Hz.
    assert (∀ n, N.testbit 73 n = true → N.testbit mode n = false) as Hn.
    { intros n Hn. apply (f_equal (λ x, N.testbit x n)) in Hz.
      rewrite N.land_spec, N.bits_0, Hn, andb_true_r in Hz. done. }
    destruct Hb as [Hb|[Hb|Hb]]; rewrite Hn in Hb; done.
Qed.

Section Executable.
Context {atom : Type} (w : world) (pkg : Pkg atom) (pkg_path : str).

Lemma entry_events_executable filename :
  executable_files (yields (entry_events w pkg pkg_path filename)) =
  option_list (executable_entry w pkg_path filename).
Proof.
  rewrite entry_events_eq. unfold executable_entry.
  repeat case_match; done.
Qed.

Lemma file_events_executable rf :
  executable_files (yields (file_events w pkg pkg_path rf)) =
  option_list (executable_file w pkg_path rf).
Proof.
  rewrite file_events_eq. unfold executable_file.
  destruct (regular_file w rf.1 rf.2) as [st|]; simpl; [|done].
  repeat case_match; done.
Qed.

End Executable.

(** X2: in a check that ends, the [ExecutableFile] results are those of
    the entries of the package directory that are looked at and that
    [os.stat], which follows links, finds to be regular files with an
    execute bit, under their names, and then those of the files of
    [files/] that are looked at and that [os.lstat] finds to be regular
    files with an execute bit, under their paths below the package
    directory; an execute bit is one of the bits 0, 3 and 6 of the mode. *)
Theorem X2_executable_files {atom} (w : world) (pkg : Pkg atom)
    (rest : list (Pkg atom)) (tr : list (event (Pkg atom))) :
  PkgDirCheck.feed w (pkg :: rest) = (tr, inr tt) →
  let pkg_path := pkg_path_of w pkg in
  (∃ filenames, listdir w pkg_path = inr filenames ∧
     executable_files (yields tr) =
       omap (executable_entry w pkg_path) filenames ++
       omap (executable_file w pkg_path) (visited w pkg_path)) ∧
  (∀ path, executable w path = true ↔
     ∃ st, os_stat w path = inr st ∧ S_ISREG (st_mode st) = true ∧
       (N.testbit (st_mode st) 0 = true ∨ N.testbit (st_mode st) 3 = true ∨
        N.testbit (st_mode st) 6 = true)) ∧
  (∀ rf f, executable_file w pkg_path rf = Some f ↔
     ∃ st, regular_file w rf.1 rf.2 = Some st ∧
       f = rel_path pkg_path rf.1 rf.2 ∧
       (N.testbit (st_mode st) 0 = true ∨ N.testbit (st_mode st) 3 = true ∨
        N.testbit (st_mode st) 6 = true)).
Proof.
  intros Hfeed pkg_path. split_and!.
  - destruct (feed_trace _ _ _ _ Hfeed) as (fs & acc & Hl & ->).
    exists fs. split; [done|]. fold pkg_path.
    unfold executable_files. rewrite !yields_app, !omap_app.
    rewrite (select_events _ _ (executable_entry w pkg_path))
      by (intros; apply entry_events_executable).
    rewrite (select_events _ _ (executable_file w pkg_path))
      by (intros; apply file_events_executable).
    rewrite yields_Chksum.
    rewrite (yields_Yield (λ kv, DuplicateFiles (sorted_strs kv.2) pkg)).
    assert (∀ l : list (N * list str),
              omap (λ r : result (Pkg atom),
                      match r with ExecutableFile f _ => Some f | _ => None
                      end)
                ((λ kv, DuplicateFiles (sorted_strs kv.2) pkg) <$> l) = [])
      as -> by (intros l; by induction l).
    assert (omap (λ r : result (Pkg atom),
                    match r with ExecutableFile f _ => Some f | _ => None
                    end) (yields (summary_events pkg acc)) = []) as ->.
    { unfold summary_events. repeat case_match; done. }
    simpl. by rewrite !(right_id_L [] (++)).
  - intros path. unfold executable. split.
    + destruct (os_stat w path) as [e|st]; [done|].
      intros [Hreg Hx%execute_bits]%andb_true_iff. by exists st.
    + intros (st & -> & -> & Hx%execute_bits). by rewrite Hx.
  - intros rf f. unfold executable_file. split.
    + destruct (regular_file w rf.1 rf.2) as [st|]; [|done]. simpl.
      destruct (negb (N.land (st_mode st) 73 =? 0)) eqn:Hx; [|done].
      intros [= <-]. exists st. by apply execute_bits in Hx.
    + intros (st & -> & -> & Hx%execute_bits). simpl. by rewrite Hx.
Qed.

Lemma X2_executable_files_witness :
  executable_files (yields (PkgDirCheck.feed demo_world [pn "1.0"]).1) =
  [lit "read me"; lit "files/big"].
Proof.
  destruct (X2_executable_files demo_world (pn "1.0") []
              (PkgDirCheck.feed demo_world [pn "1.0"]).1)
    as [(filenames & Hl & ->) _].
  - vm_compute. reflexivity.
  - vm_compute in Hl. injection Hl as <-. vm_compute. reflexivity.
Defined.

(** ** The names collected during the listing *)

Section Names.
Context {atom : Type} (w : world) (pkg : Pkg atom) (pkg_path : str).

Import PkgDirCheck.

(** The names that the check of an entry that is not an ebuild collects. *)
Lemma pkgdir_entry_other filename acc :
  gitignored w (pjoin pkg_path [filename]) = false →
  endswith filename ebuild_ext = false →
  (pkgdir_entry w pkg pkg_path filename acc).2 =
    inr (if gentoo_repo w &&
            negb (bool_decide
                    (filename ∈ [lit "Manifest"; lit "metadata.xml";
                                 lit "files"]))
         then {| mismatched := mismatched acc; invalid := invalid acc;
                 unknown := unknown acc ++ [filename] |}
         else acc).
Proof.
  intros Hi He. unfold pkgdir_entry, isfile. rewrite Hi, He.
  destruct (gentoo_repo w && _); repeat run_pkgdir_entry; done.
Qed.

Lemma pkgdir_entry_collects filename acc tr acc' :
  pkgdir_entry w pkg pkg_path filename acc = (tr, inr acc') →
  acc' =
    {| mismatched :=
         mismatched acc ++
         option_list (mismatched_name w pkg pkg_path filename);
       invalid :=
         invalid acc ++ option_list (invalid_name w pkg pkg_path filename);
       unknown :=
         unknown acc ++ option_list (unknown_entry w pkg_path filename) |}.
Proof.
  intros Hb. assert ((pkgdir_entry w pkg pkg_path filename acc).2 = inr acc')
    as Ho by by rewrite Hb.
  unfold mismatched_name, invalid_name, unknown_entry.
  destruct (gitignored w (pjoin pkg_path [filename])) eqn:Hi.
  { rewrite pkgdir_entry_ignored in Ho by done. injection Ho as <-.
    destruct acc. simpl. by rewrite !(right_id_L [] (++)). }
  destruct (endswith filename ebuild_ext) eqn:He.
  - destruct (open_rb w (pjoin pkg_path [filename])) as [e|content] eqn:Hop.
    { assert ((pkgdir_entry w pkg pkg_path filename acc).2 = inl e) as He'
        by by apply pkgdir_entry_raises.
      congruence. }
    rewrite (pkgdir_entry_names _ _ _ _ _ content) in Ho by done.
    injection Ho as <-. destruct acc. simpl.
    repeat case_match; simpl; by rewrite !(right_id_L [] (++)).
  - rewrite pkgdir_entry_other in Ho by done. injection Ho as <-.
    destruct acc. simpl.
    repeat case_match; simpl; by rewrite !(right_id_L [] (++)).
Qed.

Lemma scan_loop_collects filenames acc tr acc' :
  for_each filenames (pkgdir_entry w pkg pkg_path) acc = (tr, inr acc') →
  acc' =
    {| mismatched :=
         mismatched acc ++ omap (mismatched_name w pkg pkg_path) filenames;
       invalid :=
         invalid acc ++ omap (invalid_name w pkg pkg_path) filenames;
       unknown := unknown acc ++ omap (unknown_entry w pkg_path) filenames |}.
Proof.
  revert acc tr. induction filenames as [|fn fns IH]; intros acc tr Hf.
  - simpl in Hf. injection Hf as _ <-. destruct acc. simpl.
    by rewrite !(right_id_L [] (++)).
  - simpl in Hf. apply bind_inr in Hf as (tr1 & acc1 & tr2 & Hb & Hr & ->).
    apply IH in Hr as ->. apply pkgdir_entry_collects in Hb as ->. simpl.
    f_equal; rewrite <-(assoc_L (++)); f_equal;
      by repeat case_match.
Qed.

End Names.

Section FilesPasses.
Context {atom : Type} (w : world) (pkg : Pkg atom) (pkg_path : str).

Import PkgDirCheck.

(** The results of the checks of the entries are not those of the names,
    and neither are the results of the passes over [files/]. *)
Lemma entry_events_not_summary filename r :
  Yield r ∈ entry_events w pkg pkg_path filename → summary_result r = false.
Proof.
  rewrite entry_events_eq.
  repeat case_match; rewrite ?elem_of_app, ?elem_of_cons, ?elem_of_nil;
    naive_solver.
Qed.

Lemma file_events_not_summary rf r :
  Yield r ∈ file_events w pkg pkg_path rf → summary_result r = false.
Proof.
  rewrite file_events_eq.
  repeat case_match; simpl;
    rewrite ?elem_of_app, ?elem_of_cons, ?elem_of_nil; naive_solver.
Qed.

Lemma files_passes_not_summary fbs fbd r :
  Yield r ∈ (walk_filesdir w pkg pkg_path).1 ++
            (group_by_digest w pkg_path fbs).1 ++
            (yield_duplicates pkg fbd).1 →
  summary_result r = false.
Proof.
  rewrite !elem_of_app. intros [Hr|[Hr|Hr]].
  - apply walk_filesdir_event in Hr as (rf & _ & Hr).
    by eapply file_events_not_summary.
  - by apply group_by_digest_event in Hr as (f & _ & ?).
  - rewrite yield_duplicates_eq in Hr. simpl in Hr.
    apply list_elem_of_fmap in Hr as ([d files] & [= ->] & _). done.
Qed.

End FilesPasses.

(** X3: a check that ends has checked the entries of the package
    directory one after the other, and has then yielded a [MismatchedPN]
    with the names of the ebuilds whose atom has another package than the
    directory, an [InvalidPN] with the names of the ebuilds whose atom is
    malformed, and an [UnknownPkgDirEntry] with the entries that are not
    ebuilds and not [Manifest], [metadata.xml] or [files], this last one
    for the gentoo repository only; each of the three is yielded once, with
    its names sorted, when there is such a name, and not at all when there
    is none; they come in this order, after the results of the entries and
    before those of [files/]; ignored entries count for nothing. *)
Theorem X3_names_of_the_listing {atom} (w : world) (pkg : Pkg atom)
    (rest : list (Pkg atom)) (tr : list (event (Pkg atom))) :
  PkgDirCheck.feed w (pkg :: rest) = (tr, inr tt) →
  let pkg_path := pkg_path_of w pkg in
  ∃ filenames tr_files,
    listdir w pkg_path = inr filenames ∧
    tr = mjoin (entry_events w pkg pkg_path <$> filenames) ++
         summary_events pkg
           {| PkgDirCheck.mismatched :=
                omap (mismatched_name w pkg pkg_path) filenames;
              PkgDirCheck.invalid :=
                omap (invalid_name w pkg pkg_path) filenames;
              PkgDirCheck.unknown :=
                omap (unknown_entry w pkg_path) filenames |} ++
         tr_files ∧
    (∀ r, r ∈ yields (mjoin (entry_events w pkg pkg_path <$> filenames)) →
          summary_result r = false) ∧
    (∀ r, r ∈ yields tr_files → summary_result r = false) ∧
    (gentoo_repo w = false →
     omap (unknown_entry w pkg_path) filenames = []).
Proof.
  intros Hfeed pkg_path.
  apply feed_inr in Hfeed
    as (tr_dir & tr_walk & fbs & tr_digest & fbd & Hs & Hw & Hd & ->).
  fold pkg_path in Hs, Hw, Hd.
  apply scan_pkgdir_inr in Hs as (filenames & acc & Hl & Hloop & ->).
  apply scan_loop_collects in Hloop as ->. simpl.
  exists filenames,
    (tr_walk ++ tr_digest ++ (PkgDirCheck.yield_duplicates pkg fbd).1).
  split_and!.
  - done.
  - by rewrite <-(assoc_L (++)).
  - intros r (l & Hr & (fn & -> & _)%list_elem_of_fmap)%elem_of_yields
      %list_elem_of_join.
    by eapply entry_events_not_summary.
  - intros r Hr%elem_of_yields.
    apply (files_passes_not_summary w pkg pkg_path fbs fbd).
    by rewrite Hw, Hd.
  - intros Hg. generalize filenames. clear -Hg.
    intros filenames. induction filenames as [|fn fns IH]; [done|].
    change (omap (unknown_entry w pkg_path) (fn :: fns))
      with (match unknown_entry w pkg_path fn with
            | Some f => f :: omap (unknown_entry w pkg_path) fns
            | None => omap (unknown_entry w pkg_path) fns
            end).
    rewrite IH. unfold unknown_entry. rewrite Hg. by repeat case_match.
Qed.

Lemma X3_names_of_the_listing_witness :
  ∃ filenames tr_files,
    listdir demo_world (lit "/repo/cat/pn") = inr filenames ∧
    (PkgDirCheck.feed demo_world [pn "1.0"]).1 =
      mjoin (entry_events demo_world (pn "1.0") (lit "/repo/cat/pn") <$>
               filenames) ++
      summary_events (pn "1.0")
        {| PkgDirCheck.mismatched :=
             omap (mismatched_name demo_world (pn "1.0")
                     (lit "/repo/cat/pn")) filenames;
           PkgDirCheck.invalid :=
             omap (invalid_name demo_world (pn "1.0") (lit "/repo/cat/pn"))
               filenames;
           PkgDirCheck.unknown :=
             omap (unknown_entry demo_world (lit "/repo/cat/pn"))
               filenames |} ++
      tr_files.
Proof.
  destruct (X3_names_of_the_listing demo_world (pn "1.0") []
              (PkgDirCheck.feed demo_world [pn "1.0"]).1)
    as (filenames & tr_files & Hl & Htr & _).
  - vm_compute. reflexivity.
  - exists filenames, tr_files. split; [exact Hl|exact Htr].
Defined.

(** ** How a check ends *)

(** A loop ends with the exception of the first round that raises. *)
Lemma for_each_outcome {P X S} (err : X → option exn) (xs : list X)
    (body : X → S → gen P S) s :
  (∀ x s, x ∈ xs →
     match err x with
     | Some e => (body x s).2 = inl e
     | None => ∃ s', (body x s).2 = inr s'
     end) →
  match head (omap err xs) with
  | Some e => (for_each xs body s).2 = inl e
  | None => ∃ s', (for_each xs body s).2 = inr s'
  end.
Proof.
  revert s. induction xs as [|x xs IH]; intros s Hb; [by eexists|].
  cbn [for_each]. rewrite bind_outcome.
  pose proof (Hb x s ltac:(left)) as Hx.
  change (omap err (x :: xs))
    with (match err x with
          | Some e => e :: omap err xs
          | None => omap err xs
          end).
  destruct (err x) as [e|]; simpl.
  - by rewrite Hx.
  - destruct Hx as [s' ->]. apply IH. intros. apply Hb. by right.
Qed.

Lemma omap_fmap_compose {X Y Z} (f : Y → option Z) (g : X → Y)
    (l : list X) :
  omap f (g <$> l) = omap (λ x, f (g x)) l.
Proof.
  induction l as [|x l IH]; [done|]. cbn. by rewrite IH.
Qed.

Lemma head_omap_bind {X Y Z} (f : Y → option Z) (g : X → list Y)
    (l : list X) :
  head (omap f (l ≫= g)) = head (omap (λ x, head (omap f (g x))) l).
Proof.
  induction l as [|x l IH]; [done|].
  rewrite bind_cons, omap_app, head_app.
  change (omap (λ x, head (omap f (g x))) (x :: l))
    with (match head (omap f (g x)) with
          | Some e => e :: omap (λ x, head (omap f (g x))) l
          | None => omap (λ x, head (omap f (g x))) l
          end).
  destruct (omap f (g x)) as [|z zs]; simpl; [apply IH|done].
Qed.

Section Outcome.
Context {atom : Type} (w : world) (pkg : Pkg atom) (pkg_path : str).

Import PkgDirCheck.

Lemma filesdir_entry_outcome root base_dir filename fbs :
  match lstat_error w (root, filename) with
  | Some e => (filesdir_entry w pkg root base_dir filename fbs).2 = inl e
  | None =>
      ∃ fbs', (filesdir_entry w pkg root base_dir filename fbs).2 = inr fbs'
  end.
Proof.
  unfold lstat_error. simpl.
  destruct (gitignored w (pjoin root [filename])) eqn:Hi.
  { rewrite filesdir_entry_ignored by done. by eexists. }
  destruct (os_lstat w (pjoin root [filename])) as [e|st] eqn:Hst.
  { by rewrite (filesdir_entry_lstat_error _ _ _ _ _ _ e). }
  destruct (S_ISREG (st_mode st)) eqn:Hreg.
  - rewrite (filesdir_entry_regular _ _ _ _ _ _ st) by done. by eexists.
  - rewrite (filesdir_entry_not_regular _ _ _ _ _ _ st) by done.
    by eexists.
Qed.

(** The walk ends with the first failure of [os.lstat]. *)
Lemma walk_filesdir_outcome :
  (walk_filesdir w pkg pkg_path).2 =
    match head (omap (lstat_error w) (visited w pkg_path)) with
    | Some e => inl e
    | None => inr (grouping (recorded w pkg_path) [])
    end.
Proof.
  assert (match head (omap (lstat_error w) (visited w pkg_path)) with
          | Some e => (walk_filesdir w pkg pkg_path).2 = inl e
          | None => ∃ fbs, (walk_filesdir w pkg pkg_path).2 = inr fbs
          end) as Ho.
  { unfold visited. rewrite head_omap_bind. unfold walk_filesdir.
    apply (for_each_outcome
             (λ x : str * list str * list str,
                head (omap (lstat_error w)
                        (let '(root, _, files) := x in
                         (root,.) <$> files)))).
    intros [[root dirs] files] fbs _. rewrite omap_fmap_compose.
    apply (for_each_outcome (λ fn, lstat_error w (root, fn))).
    intros fn fbs' _. apply filesdir_entry_outcome. }
  destruct (head _) as [e|]; [done|]. destruct Ho as [fbs Ho].
  rewrite Ho. f_equal.
  destruct (walk_filesdir w pkg pkg_path) as [tr o] eqn:Hw.
  simpl in Ho. subst o. by apply walk_filesdir_inr in Hw as [_ ->].
Qed.

(** The search for duplicates ends with the first failure of the checksum
    function. *)
Lemma group_by_digest_outcome fbs :
  (group_by_digest w pkg_path fbs : gen (Pkg atom) _).2 =
    match head (omap (chksum_error w pkg_path) (colliding fbs)) with
    | Some e => inl e
    | None => inr (grouping (digests w pkg_path (colliding fbs)) [])
    end.
Proof.
  assert (match head (omap (chksum_error w pkg_path) (colliding fbs)) with
          | Some e =>
              (group_by_digest w pkg_path fbs : gen (Pkg atom) _).2 = inl e
          | None =>
              ∃ fbd,
                (group_by_digest w pkg_path fbs : gen (Pkg atom) _).2
                = inr fbd
          end) as Ho.
  { unfold colliding. rewrite head_omap_bind. unfold group_by_digest.
    apply (for_each_outcome
             (λ x : N * list str,
                head (omap (chksum_error w pkg_path)
                        (let '(_, files) := x in
                         if (1 <? length files)%nat then files else [])))).
    intros [size files] fbd _.
    destruct (1 <? length files)%nat; [|by eexists].
    apply (for_each_outcome (chksum_error w pkg_path)).
    intros f fbd' _. unfold chksum_error, bind, logged. simpl.
    destruct (get_chksums w (pjoin pkg_path [f])); simpl; [done|].
    by eexists. }
  destruct (head _) as [e|]; [done|]. destruct Ho as [fbd Ho].
  rewrite Ho. f_equal.
  destruct (group_by_digest w pkg_path fbs) as [tr o] eqn:Hd.
  simpl in Ho. subst o. by apply group_by_digest_inr in Hd as (_ & -> & _).
Qed.

End Outcome.

(** X4: [PkgDirCheck.feed] is stopped by the first exception among: that
    of [listdir] for the package directory; those of [open] for the
    ebuilds of the package directory that are looked at; those of
    [os.lstat] for the files of [files/] that are looked at; those of the
    checksum function for the files whose size another file has; in this
    order.  When none of these is raised, the check ends. *)
Theorem X4_feed_stops_at_first_failure {atom} (w : world) (pkg : Pkg atom)
    (rest : list (Pkg atom)) :
  let pkg_path := pkg_path_of w pkg in
  let files_by_size := grouping (recorded w pkg_path) [] in
  (PkgDirCheck.feed w (pkg :: rest)).2 =
    match listdir w pkg_path with
    | inl e => inl e
    | inr filenames =>
        match head (omap (open_error w pkg_path) filenames ++
                    omap (lstat_error w) (visited w pkg_path) ++
                    omap (chksum_error w pkg_path)
                      (colliding files_by_size)) with
        | Some e => inl e
        | None => inr tt
        end
    end.
Proof.
  intros pkg_path fbs. unfold PkgDirCheck.feed.
  change (pjoin (target_repo_location w) [category pkg; package pkg])
    with pkg_path.
  rewrite bind_outcome, scan_pkgdir_outcome.
  destruct (listdir w pkg_path) as [e|filenames]; [done|].
  rewrite !head_app.
  destruct (omap (open_error w pkg_path) filenames) as [|e es]; [|done].
  simpl. rewrite bind_outcome, walk_filesdir_outcome.
  destruct (omap (lstat_error w) (visited w pkg_path)) as [|e es]; [|done].
  simpl. rewrite bind_outcome, group_by_digest_outcome. fold fbs.
  destruct (omap (chksum_error w pkg_path) (colliding fbs)) as [|e es];
    [|done].
  simpl. by rewrite yield_duplicates_eq.
Qed.

(** ** More on the equal versions *)

Lemma dict_upd_elem {K V} (eqb : K → K → bool) (dflt : V) f k k' v'
    (d : list (K * V)) :
  (k', v') ∈ dict_upd eqb dflt f k d →
  (∃ v, (k', v) ∈ d ∧ (v' = v ∨ v' = f v)) ∨ (k' = k ∧ v' = f dflt).
Proof.
  induction d as [|[k0 v0] d IH]; simpl.
  - intros [= -> ->]%list_elem_of_singleton. by right.
  - destruct (eqb k0 k).
    + intros [[= -> ->]|Hin]%elem_of_cons; left.
      * exists v0. split; [left|by right].
      * exists v'. split; [by right|by left].
    + intros [[= -> ->]|Hin]%elem_of_cons.
      * left. exists v0. split; [left|by left].
      * destruct (IH Hin) as [(v & ? & ?)|?]; [left|by right].
        exists v. split; [by right|done].
Qed.

Lemma dict_upd_length {K V} (eqb : K → K → bool) (dflt : V) f k
    (d : list (K * V)) :
  (0 < length (dict_upd eqb dflt f k d) ≤ S (length d))%nat.
Proof.
  induction d as [|[k0 v0] d IH]; simpl; [lia|].
  destruct (eqb k0 k); simpl; lia.
Qed.

Section MoreEqualVersions.
Context {atom : Type} (atom_eqb : atom → atom → bool).
Context (pkg_ltb : Pkg atom → Pkg atom → bool).

Import EqualVersionsCheck.

Lemma equal_versions_feed pkgset :
  feed atom_eqb pkg_ltb pkgset =
    ((λ kv, Yield (EqualVersions (sorted str_ltb (elements kv.2)) kv.1)) <$>
       equal_versions atom_eqb pkg_ltb pkgset, inr tt).
Proof.
  unfold feed.
  rewrite <-(for_each_yield
               (λ kv, EqualVersions (sorted str_ltb (elements kv.2)) kv.1)).
  apply for_each_ext. by intros [k vs] [].
Qed.

Lemma add_versions_length (pairs : list (Pkg atom * Pkg atom))
    (d : list (atom * gset str)) :
  (length (foldl (add_versions atom_eqb) d pairs)
   ≤ length d + length pairs)%nat ∧
  (foldl (add_versions atom_eqb) d pairs = [] ↔ d = [] ∧ pairs = []).
Proof.
  revert d. induction pairs as [|ab pairs IH]; intros d; simpl.
  - split; [lia|naive_solver].
  - destruct (IH (add_versions atom_eqb d ab)) as [Hlen Hnil].
    pose proof (dict_upd_length atom_eqb ∅
                  (λ versions : gset str,
                     versions ∪ list_to_set [fullver ab.1; fullver ab.2])
                  (versioned_atom ab.1) d) as Hupd.
    fold (add_versions atom_eqb d ab) in Hupd.
    split; [lia|]. rewrite Hnil. split; [|naive_solver].
    intros [Hd _]. rewrite Hd in Hupd. simpl in Hupd. lia.
Qed.

(** Each stored set holds the versions of the pair its key came from. *)
Lemma add_versions_pair (all_pairs pairs : list (Pkg atom * Pkg atom))
    (d : list (atom * gset str)) :
  let from_pair k (versions : gset str) :=
    ∃ ab, ab ∈ all_pairs ∧ k = versioned_atom ab.1 ∧
          fullver ab.1 ∈ versions ∧ fullver ab.2 ∈ versions in
  (∀ ab, ab ∈ pairs → ab ∈ all_pairs) →
  (∀ k vs, (k, vs) ∈ d → from_pair k vs) →
  ∀ k vs, (k, vs) ∈ foldl (add_versions atom_eqb) d pairs → from_pair k vs.
Proof.
  intros from_pair. revert d.
  induction pairs as [|ab pairs IH]; intros d Hsub Hd; [done|].
  simpl. apply IH; [intros; apply Hsub; by right|].
  intros k vs [(v & Hin & Hv)|[-> ->]]%dict_upd_elem.
  - destruct (Hd _ _ Hin) as (ab' & ? & ? & ? & ?).
    exists ab'. destruct Hv as [->| ->]; set_solver.
  - exists ab. split; [apply Hsub; left|]. set_solver.
Qed.

End MoreEqualVersions.

(** X5: [EqualVersionsCheck.feed] never raises: the [IndexError] at the
    last package ends the loop.  It yields nothing but [EqualVersions];
    it yields nothing at all when no package of the sorted package set has
    the same versioned atom as the one after it, as for a set of one
    package or none, and only then; and it yields fewer results than
    there are packages. *)
Theorem X5_equal_versions_none_iff_no_equal_neighbours {atom}
    (atom_eqb : atom → atom → bool)
    (pkg_ltb : Pkg atom → Pkg atom → bool) (pkgset : list (Pkg atom)) :
  let sorted_pkgset := sorted pkg_ltb pkgset in
  let rs := yields (EqualVersionsCheck.feed atom_eqb pkg_ltb pkgset).1 in
  (EqualVersionsCheck.feed atom_eqb pkg_ltb pkgset).2 = inr tt ∧
  (rs = [] ↔
   ∀ i a b, sorted_pkgset !! i = Some a → sorted_pkgset !! S i = Some b →
            atom_eqb (versioned_atom a) (versioned_atom b) = false) ∧
  (length rs ≤ length pkgset - 1)%nat ∧
  (∀ r, r ∈ rs → ∃ versions k, r = EqualVersions versions k).
Proof.
  intros sorted_pkgset rs. subst rs. rewrite equal_versions_feed. simpl.
  rewrite (yields_Yield
             (λ kv, EqualVersions (sorted str_ltb (elements kv.2)) kv.1)).
  rewrite equal_versions_eq. fold sorted_pkgset.
  set (pairs := filter _ (adjacent sorted_pkgset)).
  destruct (add_versions_length atom_eqb pairs []) as [Hlen Hnil].
  split_and!.
  - done.
  - assert (∀ l : list (atom * gset str),
              (λ kv, EqualVersions (sorted str_ltb (elements kv.2)) kv.1) <$>
                l = [] ↔ l = []) as Hfn
      by (intros [|kv l]; split; done).
    rewrite Hfn, Hnil. unfold pairs. split.
    + intros [_ Hf] i a b Ha Hb.
      destruct (atom_eqb (versioned_atom a) (versioned_atom b)) eqn:Hab;
        [|done].
      assert ((a, b) ∈ filter
                (λ ab : Pkg atom * Pkg atom,
                   atom_eqb (versioned_atom ab.1) (versioned_atom ab.2)
                   = true) (adjacent sorted_pkgset)) as Hin.
      { apply list_elem_of_filter. split; [done|].
        apply elem_of_adjacent. by exists i. }
      rewrite Hf in Hin. by apply elem_of_nil in Hin.
    + intros Hno. split; [done|].
      destruct (filter _ _) as [|[a b] l] eqn:Hf; [done|].
      assert ((a, b) ∈ filter
                (λ ab : Pkg atom * Pkg atom,
                   atom_eqb (versioned_atom ab.1) (versioned_atom ab.2)
                   = true) (adjacent sorted_pkgset)) as Hin
        by (rewrite Hf; left).
      apply list_elem_of_filter in Hin as [Hab Hin]. simpl in Hab.
      apply elem_of_adjacent in Hin as (i & Ha & Hb).
      by rewrite (Hno i a b) in Hab.
  - rewrite length_fmap. etrans; [exact Hlen|]. simpl.
    etrans; [apply length_filter|]. unfold adjacent.
    rewrite length_zip, length_drop. unfold sorted_pkgset.
    rewrite length_sorted. lia.
  - intros r ([k vs] & -> & _)%list_elem_of_fmap. by eexists _, _.
Qed.

(** X6: the key of every [EqualVersions] is the versioned atom of a
    package whose neighbour in the sorted package set has an equal
    versioned atom, and the result names the versions of both; so it names
    two versions at least when these two differ. *)
Theorem X6_equal_versions_names_a_pair {atom}
    (atom_eqb : atom → atom → bool)
    (pkg_ltb : Pkg atom → Pkg atom → bool) (pkgset : list (Pkg atom))
    (versions : list str) (k : atom) :
  Yield (EqualVersions versions k)
    ∈ (EqualVersionsCheck.feed atom_eqb pkg_ltb pkgset).1 →
  ∃ i a b,
    sorted pkg_ltb pkgset !! i = Some a ∧
    sorted pkg_ltb pkgset !! S i = Some b ∧
    atom_eqb (versioned_atom a) (versioned_atom b) = true ∧
    k = versioned_atom a ∧
    fullver a ∈ versions ∧ fullver b ∈ versions ∧
    (fullver a ≠ fullver b → (2 ≤ length versions)%nat).
Proof.
  rewrite equal_versions_feed. simpl.
  intros ([k' vs] & [= -> ->] & Hin)%list_elem_of_fmap. simpl.
  rewrite equal_versions_eq in Hin.
  eapply (add_versions_pair atom_eqb _ _ []) in Hin
    as ([a b] & Hab & -> & Ha & Hb); [|done|by intros ? ? ?%elem_of_nil].
  apply list_elem_of_filter in Hab as [Heq Hab]. simpl in *.
  apply elem_of_adjacent in Hab as (i & Hia & Hib).
  exists i, a, b. rewrite !elem_of_sorted, !elem_of_elements.
  split_and!; try done. intros Hne.
  rewrite length_sorted.
  assert ({[fullver a; fullver b]} ⊆ vs) as Hsub by set_solver.
  apply subseteq_size in Hsub. rewrite size_union in Hsub by set_solver.
  rewrite !size_singleton in Hsub. unfold size, set_size in Hsub.
  simpl in Hsub. lia.
Qed.

Lemma X6_equal_versions_names_a_pair_witness :
  ∃ i a b,
    sorted text_pkg_ltb [pn "1.0-r0"; pn "2"; pn "1.0"] !! i = Some a ∧
    sorted text_pkg_ltb [pn "1.0-r0"; pn "2"; pn "1.0"] !! S i = Some b ∧
    text_atom_eqb (versioned_atom a) (versioned_atom b) = true ∧
    lit "=cat/pn-1.0-r0" = versioned_atom a ∧
    fullver a ∈ [lit "1.0"; lit "1.0-r0"] ∧
    fullver b ∈ [lit "1.0"; lit "1.0-r0"] ∧
    (fullver a ≠ fullver b → (2 ≤ length [lit "1.0"; lit "1.0-r0"])%nat).
Proof.
  apply (X6_equal_versions_names_a_pair text_atom_eqb text_pkg_ltb
           [pn "1.0-r0"; pn "2"; pn "1.0"]).
  apply (bool_decide_unpack _). vm_compute. exact I.
Defined.

(** ** The directories that the walk does not enter *)

Lemma filter_ext_elem {X} (Q1 Q2 : X → Prop) `{∀ x, Decision (Q1 x)}
    `{∀ x, Decision (Q2 x)} (l : list X) :
  (∀ x, x ∈ l → Q1 x ↔ Q2 x) → filter Q1 l = filter Q2 l.
Proof.
  induction l as [|x l IH]; intros Hq; [done|]. rewrite !filter_cons.
  rewrite IH by (intros; apply Hq; by right).
  destruct (decide (Q1 x)) as [H1|H1], (decide (Q2 x)) as [H2|H2];
    try done; exfalso; apply (Hq x ltac:(left)) in H1 || apply H1;
    try done; by apply (Hq x ltac:(left)).
Qed.

Lemma filter_all {X} (Q : X → Prop) `{∀ x, Decision (Q x)} (l : list X) :
  (∀ x, x ∈ l → Q x) → filter Q l = l.
Proof.
  induction l as [|x l IH]; intros Hq; [done|]. rewrite filter_cons.
  rewrite decide_True by (apply Hq; left).
  by rewrite IH by (intros; apply Hq; by right).
Qed.

Section Prune.
Context {X : Type}.

Lemma list_remove_filter d (l : list (str * X)) :
  NoDup l.*1 → list_remove d l = filter (λ e, e.1 ≠ d) l.
Proof.
  induction l as [|e l IH]; [done|]. simpl. intros [Hnotin Hnd]%NoDup_cons.
  rewrite filter_cons. unfold str_eqb. case_bool_decide as He.
  - rewrite decide_False by (by intros ?). symmetry. apply filter_all.
    intros e' Hin Heq. apply Hnotin. rewrite He, <-Heq.
    apply list_elem_of_fmap. by exists e'.
  - rewrite decide_True by done. by rewrite IH.
Qed.

Lemma list_remove_NoDup d (l : list (str * X)) :
  NoDup l.*1 → NoDup (list_remove d l).*1.
Proof.
  induction l as [|e l IH]; [done|]. simpl. intros [Hnotin Hnd]%NoDup_cons.
  destruct (str_eqb e.1 d); [done|]. simpl. apply NoDup_cons.
  split; [|by apply IH].
  intros (e' & He & Hin%list_remove_elem)%list_elem_of_fmap.
  apply Hnotin. apply list_elem_of_fmap. by exists e'.
Qed.

(** With distinct names, pruning takes out the directories named [cvs],
    [.svn] and [.bzr], and no other. *)
Lemma prune_ignore_dirs_filter (l : list (str * X)) :
  NoDup l.*1 →
  prune_ignore_dirs l = filter (λ e, e.1 ∉ ignore_dirs) l.
Proof.
  intros Hnd. unfold prune_ignore_dirs.
  transitivity (filter (λ e, e.1 ∉ filter (λ d, d ∈ l.*1) ignore_dirs) l).
  - generalize (filter (λ d, d ∈ l.*1) ignore_dirs). intros ds.
    revert l Hnd. induction ds as [|d ds IH]; intros l Hnd.
    + simpl. symmetry. apply filter_all. intros e _. apply not_elem_of_nil.
    + simpl. rewrite IH by by apply list_remove_NoDup.
      rewrite list_remove_filter by done. rewrite list_filter_filter.
      apply list_filter_iff. intros e. rewrite not_elem_of_cons. tauto.
  - apply filter_ext_elem. intros e He.
    rewrite list_elem_of_filter.
    assert (e.1 ∈ l.*1) by (apply list_elem_of_fmap; by exists e).
    tauto.
Qed.

End Prune.

(** X7: where the names of the subdirectories of a directory are
    distinct, the walk of [files/] goes on in the subdirectories that are
    not named [cvs], [.svn] or [.bzr], in the order of the listing, and in
    no other; the files of the directory itself come first. *)
Theorem X7_walk_skips_ignored_directories (dirs : list (str * dirtree))
    (nondirs : list str) (top : str) :
  NoDup dirs.*1 →
  os_walk (Dir dirs nondirs) top =
    (top, dirs.*1, nondirs) ::
    mjoin ((λ e, os_walk e.2 (pjoin top [e.1])) <$>
             filter (λ e, e.1 ∉ ignore_dirs) dirs).
Proof.
  intros Hnd. simpl. f_equal.
  rewrite (prune_ignore_dirs_fmap (λ e, (e.1, os_walk e.2))) by done.
  rewrite prune_ignore_dirs_filter by done.
  by rewrite <-list_fmap_compose.
Qed.

Lemma X7_walk_skips_ignored_directories_witness :
  os_walk (Dir [(lit "cvs", Dir [] [lit "x y"]);
                (lit "sub dir", Dir [] [lit "b.patch"; lit "c~"])]
             [lit "a.patch"]) (lit "files") =
  [(lit "files", [lit "cvs"; lit "sub dir"], [lit "a.patch"]);
   (lit "files/sub dir", [], [lit "b.patch"; lit "c~"])].
Proof.
  refine (eq_trans (X7_walk_skips_ignored_directories _ _ _ _) _).
  - apply (bool_decide_unpack _). vm_compute. exact I.
  - vm_compute. reflexivity.
Defined.

Lemma bind_ret_tt {P} (m : gen P unit) : bind m (λ _, ret tt) = m.
Proof.
  destruct m as [tr [e|[]]]; unfold bind; simpl; [done|].
  by rewrite (right_id_L [] (++)).
Qed.

(** The listing hashes nothing. *)
Lemma scan_pkgdir_no_chksum {atom} (w : world) (pkg : Pkg atom) pkg_path :
  chksum_calls (PkgDirCheck.scan_pkgdir w pkg pkg_path).1 = [].
Proof.
  assert (Forall (λ ev : event (Pkg atom), ∃ r, ev = Yield r)
            (PkgDirCheck.scan_pkgdir w pkg pkg_path).1) as Hall.
  { unfold PkgDirCheck.scan_pkgdir.
    apply bind_trace_Forall; [constructor|].
    intros filenames. apply bind_trace_Forall.
    - apply for_each_trace_Forall. intros fn acc _.
      rewrite (pkgdir_entry_trace_indep _ _ _ _ _ no_names).
      fold (entry_events w pkg pkg_path fn). rewrite entry_events_eq.
      repeat case_match; simpl;
        repeat first [apply Forall_nil_2|apply Forall_cons_2; [by eexists|]].
    - intros acc. rewrite (summary_events_eq pkg acc tt).
      unfold summary_events.
      repeat case_match; simpl;
        repeat first [apply Forall_nil_2|apply Forall_cons_2; [by eexists|]].
  }
  induction Hall as [|ev tr [r ->] Hall IH]; [done|apply IH].
Qed.

(** X8: where there is no [files] directory, or where it cannot be
    listed, the check is the check of the entries of the package
    directory: the walk finds no file, nothing is hashed, and the check
    ends as the listing does. *)
Theorem X8_no_files_directory {atom} (w : world) (pkg : Pkg atom)
    (rest : list (Pkg atom)) :
  scandir w (filesdir (pkg_path_of w pkg)) = Unlisted →
  visited w (pkg_path_of w pkg) = [] ∧
  PkgDirCheck.feed w (pkg :: rest) =
    PkgDirCheck.scan_pkgdir w pkg (pkg_path_of w pkg) ∧
  chksum_calls (PkgDirCheck.feed w (pkg :: rest)).1 = [].
Proof.
  intros Hs.
  assert (PkgDirCheck.feed w (pkg :: rest) =
          PkgDirCheck.scan_pkgdir w pkg (pkg_path_of w pkg)) as Hf.
  { unfold PkgDirCheck.feed, PkgDirCheck.walk_filesdir.
    change (pjoin (target_repo_location w) [category pkg; package pkg])
      with (pkg_path_of w pkg).
    change (pjoin (pkg_path_of w pkg) [lit "files"])
      with (filesdir (pkg_path_of w pkg)).
    rewrite Hs. simpl. rewrite !bind_ret. apply bind_ret_tt. }
  split_and!.
  - unfold visited. by rewrite Hs.
  - done.
  - rewrite Hf. apply scan_pkgdir_no_chksum.
Qed.

Lemma X8_no_files_directory_witness :
  PkgDirCheck.feed unreadable_world [pn "1.0"] =
  PkgDirCheck.scan_pkgdir unreadable_world (pn "1.0")
    (pkg_path_of unreadable_world (pn "1.0")).
Proof.
  apply (X8_no_files_directory unreadable_world (pn "1.0") []).
  vm_compute. reflexivity.
Defined.

(** ** The paths of the files of [files/] *)

Lemma startswith_sep_app (base s : str) :
  base ≠ [] → startswith (base ++ s) [sep] = startswith base [sep].
Proof. by destruct base. Qed.

Lemma endswith_sep_app (l base : str) :
  base ≠ [] → endswith (l ++ base) [sep] = endswith base [sep].
Proof.
  intros Hne. unfold endswith.
  assert (0 < length base)%nat as Hlen by (destruct base; [done|simpl; lia]).
  rewrite length_app. cbn [length].
  rewrite drop_app_ge by lia.
  replace (length l + length base - 1 - length l)%nat
    with (length base - 1)%nat by lia.
  destruct (Nat.leb_spec 1 (length l + length base)),
    (Nat.leb_spec 1 (length base)); try lia. done.
Qed.

(** X9: below a package directory whose path does not end in a slash,
    for a directory of the walk and a file name that do not begin with
    one, the path that is reported for the file is the path of the file
    from the package directory, and joining it to the package directory
    gives back the path that [os.lstat] was called with: the file that is
    hashed is the file whose size was taken. *)
Theorem X9_hashed_path_is_walked_path (pkg_path base filename : str) :
  pkg_path ≠ [] → endswith pkg_path [sep] = false →
  base ≠ [] → startswith base [sep] = false →
  startswith filename [sep] = false →
  let root := pkg_path ++ sep :: base in
  rel_path pkg_path root filename = pjoin base [filename] ∧
  pjoin pkg_path [rel_path pkg_path root filename] = pjoin root [filename] ∧
  filesdir pkg_path = pkg_path ++ sep :: lit "files".
Proof.
  intros Hp Hpe Hb Hbs Hf root.
  assert (rel_path pkg_path root filename = pjoin base [filename]) as Hrel.
  { unfold rel_path, root. f_equal.
    rewrite (cons_middle sep), (assoc_L (++)).
    apply drop_app_length'. rewrite length_app. simpl. lia. }
  assert (bool_decide (pkg_path = []) = false) as Hp'
    by by apply bool_decide_eq_false.
  assert (bool_decide (base = []) = false) as Hb'
    by by apply bool_decide_eq_false.
  split_and!.
  - done.
  - rewrite Hrel. unfold pjoin, root. simpl. unfold join2 at 2 3.
    rewrite Hf, Hb'. simpl.
    rewrite bool_decide_eq_false_2 by (by destruct pkg_path). cbn [orb].
    rewrite (endswith_sep_app pkg_path (sep :: base)) by done.
    change (endswith (sep :: base) [sep])
      with (endswith ([sep] ++ base) [sep]).
    rewrite (endswith_sep_app [sep] base) by done.
    unfold join2.
    destruct (endswith base [sep]).
    + rewrite startswith_sep_app, Hbs, Hp', Hpe by done. simpl.
      by rewrite <-(assoc_L (++)).
    + rewrite startswith_sep_app, Hbs, Hp', Hpe by done. simpl.
      by rewrite <-(assoc_L (++)).
  - unfold filesdir, pjoin. simpl. unfold join2.
    by rewrite Hp', Hpe.
Qed.

Lemma X9_hashed_path_is_walked_path_witness :
  pjoin (lit "/repo/cat/pn")
    [rel_path (lit "/repo/cat/pn") (lit "/repo/cat/pn/files/sub dir")
       (lit "b.patch")] =
  lit "/repo/cat/pn/files/sub dir/b.patch".
Proof.
  refine (eq_trans
            (proj1 (proj2 (X9_hashed_path_is_walked_path
                             (lit "/repo/cat/pn") (lit "files/sub dir")
                             (lit "b.patch") _ _ _ _ _))) _);
    try discriminate; vm_compute; reflexivity.
Defined.

(** ** The name of the package directory *)

Lemma basename_app_sep (l b : str) : basename (l ++ sep :: b) = basename b.
Proof.
  unfold basename. by rewrite foldl_app.
Qed.

Lemma basename_acc (acc b : str) :
  sep ∉ b →
  foldl (λ acc c, if c =? sep then [] else acc ++ [c]) acc b = acc ++ b.
Proof.
  revert acc. induction b as [|c b IH]; intros acc Hb; simpl.
  - by rewrite (right_id_L [] (++)).
  - apply not_elem_of_cons in Hb as [Hc Hb].
    destruct (N.eqb_spec c sep) as [->|_]; [done|].
    rewrite IH by done. by rewrite <-(assoc_L (++)).
Qed.

Lemma basename_no_sep (b : str) : sep ∉ b → basename b = b.
Proof. apply (basename_acc [] b). Qed.

Lemma basename_join2 (path b : str) :
  sep ∉ b → basename (join2 path b) = b.
Proof.
  intros Hb. unfold join2.
  assert (startswith b [sep] = false) as ->.
  { destruct b as [|c b]; [done|]. apply not_elem_of_cons in Hb as [Hc _].
    unfold startswith, str_eqb. simpl. apply bool_decide_eq_false.
    by intros [= ->]. }
  destruct (bool_decide (path = [])) eqn:Hp; simpl.
  { apply bool_decide_eq_true in Hp as ->. by apply basename_no_sep. }
  destruct (endswith path [sep]) eqn:He.
  - unfold endswith in He. apply andb_true_iff in He as [_ He].
    apply bool_decide_eq_true in He.
    rewrite <-(take_drop (length path - length [sep]) path), He.
    rewrite <-(assoc_L (++)). simpl. rewrite basename_app_sep.
    by apply basename_no_sep.
  - rewrite basename_app_sep. by apply basename_no_sep.
Qed.

(** X10: when the name of the package has no slash in it, the last part
    of the path of the package directory is that name; so an ebuild is
    put among the mismatched ones when the package of its atom is not the
    package of the package set. *)
Theorem X10_mismatch_is_with_package_name {atom} (w : world)
    (pkg : Pkg atom) :
  sep ∉ package pkg →
  basename (pkg_path_of w pkg) = package pkg ∧
  ∀ filename,
    mismatched_name w pkg (pkg_path_of w pkg) filename =
      if gitignored w (pjoin (pkg_path_of w pkg) [filename]) then None
      else if endswith filename PkgDirCheck.ebuild_ext then
        match atom_cls w (lit "=" ++ category pkg ++ lit "/" ++
                          pkg_name_of filename) with
        | Some pn => if bool_decide (pn = package pkg) then None
                     else Some (pkg_name_of filename)
        | None => None
        end
      else None.
Proof.
  intros Hp.
  assert (basename (pkg_path_of w pkg) = package pkg) as Hb.
  { unfold pkg_path_of, pjoin. simpl. by apply basename_join2. }
  split; [done|]. intros filename. unfold mismatched_name.
  rewrite Hb. unfold str_eqb. repeat case_match; simpl in *; congruence.
Qed.

Lemma X10_mismatch_is_with_package_name_witness :
  basename (pkg_path_of demo_world (pn "1.0")) = lit "pn".
Proof.
  apply (proj1 (X10_mismatch_is_with_package_name demo_world (pn "1.0")
                  ltac:(apply (bool_decide_unpack _); vm_compute; exact I))).
Defined.

(** ** Every pair of duplicates is found *)

Lemma two_elements {X} (l : list X) x y :
  x ∈ l → y ∈ l → x ≠ y → (1 < length l)%nat.
Proof.
  destruct l as [|a [|b l]]; simpl; [by intros ?%elem_of_nil| |lia].
  intros ->%list_elem_of_singleton ->%list_elem_of_singleton. done.
Qed.

(** X11: in a check that ends, two files of [files/] that were recorded
    with the same size under different paths, and for which the checksum
    function returns the same digest, are named together in a
    [DuplicateFiles]. *)
Theorem X11_equal_files_are_reported {atom} (w : world) (pkg : Pkg atom)
    (rest : list (Pkg atom)) (tr : list (event (Pkg atom)))
    (size digest : N) (f g : str) :
  PkgDirCheck.feed w (pkg :: rest) = (tr, inr tt) →
  let pkg_path := pkg_path_of w pkg in
  (size, f) ∈ recorded w pkg_path →
  (size, g) ∈ recorded w pkg_path →
  f ≠ g →
  digest_of w pkg_path f = Some digest →
  digest_of w pkg_path g = Some digest →
  ∃ files, files ∈ duplicate_files (yields tr) ∧ f ∈ files ∧ g ∈ files.
Proof.
  intros Hfeed pkg_path Hf Hg Hne Hdf Hdg.
  set (fbs := grouping (recorded w pkg_path) []).
  set (group := (filter (λ kf, kf.1 = size) (recorded w pkg_path)).*2).
  assert (f ∈ group ∧ g ∈ group) as [Hfg Hgg].
  { unfold group. rewrite !list_elem_of_fmap. split.
    - exists (size, f). split; [done|]. by apply list_elem_of_filter.
    - exists (size, g). split; [done|]. by apply list_elem_of_filter. }
  assert ((size, group) ∈ fbs) as Hgroup.
  { apply elem_of_grouping. split; [done|]. intros Hnil.
    rewrite Hnil in Hfg. by apply elem_of_nil in Hfg. }
  assert (f ∈ colliding fbs ∧ g ∈ colliding fbs) as [Hfc Hgc].
  { rewrite !elem_of_colliding. split; exists size, group;
      (split_and!; [done|by apply (two_elements group f g)|done]). }
  set (files := filter (λ f, digest_of w pkg_path f = Some digest)
                  (colliding fbs)).
  assert (f ∈ files ∧ g ∈ files) as [Hff Hgf].
  { unfold files. by rewrite !list_elem_of_filter. }
  exists (sorted_strs files).
  split_and!; [|by rewrite sorted_strs_Permutation..].
  rewrite (feed_duplicate_files _ _ _ _ Hfeed). apply list_elem_of_fmap.
  exists (digest, files). split; [done|]. apply list_elem_of_filter.
  split; [by apply (two_elements files f g)|].
  apply digest_group_eq. split; [done|]. intros Hnil.
  rewrite Hnil in Hff. by apply elem_of_nil in Hff.
Qed.

Lemma X11_equal_files_are_reported_witness :
  ∃ files,
    files ∈ duplicate_files
              (yields (PkgDirCheck.feed demo_world [pn "1.0"]).1) ∧
    lit "files/a.patch" ∈ files ∧ lit "files/sub dir/b.patch" ∈ files.
Proof.
  apply (X11_equal_files_are_reported demo_world (pn "1.0") []
           (PkgDirCheck.feed demo_world [pn "1.0"]).1 10 7).
  - vm_compute. reflexivity.
  - apply (bool_decide_unpack _). vm_compute. exact I.
  - apply (bool_decide_unpack _). vm_compute. exact I.
  - discriminate.
  - vm_compute. reflexivity.
  - vm_compute. reflexivity.
Defined.

(** * The scan of the package directory, whether it ends or not *)

Lemma reached_all {X} (err : X → option exn) (l : list X) :
  head (omap err l) = None → reached err l = l.
Proof.
  induction l as [|x l IH]; [done|].
  change (omap err (x :: l))
    with (match err x with
          | Some e => e :: omap err l
          | None => omap err l
          end).
  simpl. destruct (err x); [done|]. intros H. by rewrite IH.
Qed.

Lemma reached_first {X} (err : X → option exn) (before after : list X) x :
  (∀ y, y ∈ before → err y = None) → is_Some (err x) →
  reached err (before ++ x :: after) = before ++ [x] ∧
  head (omap err (before ++ x :: after)) = err x.
Proof.
  intros Hb [e Hx]. induction before as [|y before IH].
  - simpl. by rewrite Hx.
  - change (omap err ((y :: before) ++ x :: after))
      with (match err y with
            | Some e => e :: omap err (before ++ x :: after)
            | None => omap err (before ++ x :: after)
            end).
    simpl. rewrite (Hb y) by left.
    destruct IH as [-> ->]; [intros; apply Hb; by right|done].
Qed.

Section ScanTrace.
Context {atom : Type} (w : world) (pkg : Pkg atom) (pkg_path : str).

Import PkgDirCheck.

(** The loop yields what the checks of the entries it comes to yield. *)
Lemma scan_loop_trace filenames acc :
  (for_each filenames (pkgdir_entry w pkg pkg_path) acc).1 =
  mjoin (entry_events w pkg pkg_path <$>
           reached (open_error w pkg_path) filenames).
Proof.
  revert acc. induction filenames as [|fn fns IH]; intros acc; [done|].
  cbn [for_each reached]. unfold bind.
  pose proof (pkgdir_entry_outcome w pkg pkg_path fn acc) as Ho.
  assert ((pkgdir_entry w pkg pkg_path fn acc).1
          = entry_events w pkg pkg_path fn) as Ht
    by apply pkgdir_entry_trace_indep.
  destruct (open_error w pkg_path fn) as [e|].
  - rewrite Ho. simpl. by rewrite Ht, (right_id_L [] (++)).
  - destruct Ho as [acc' ->]. simpl. by rewrite Ht, IH.
Qed.

(** The scan of the package directory, for every way it can go. *)
Lemma scan_pkgdir_eq :
  scan_pkgdir w pkg pkg_path =
    match listdir w pkg_path with
    | inl e => ([], inl e)
    | inr filenames =>
        match head (omap (open_error w pkg_path) filenames) with
        | Some e =>
            (mjoin (entry_events w pkg pkg_path <$>
                      reached (open_error w pkg_path) filenames), inl e)
        | None =>
            (mjoin (entry_events w pkg pkg_path <$> filenames) ++
             summary_events pkg
               {| mismatched :=
                    omap (mismatched_name w pkg pkg_path) filenames;
                  invalid := omap (invalid_name w pkg pkg_path) filenames;
                  unknown := omap (unknown_entry w pkg_path) filenames |},
             inr tt)
        end
    end.
Proof.
  unfold scan_pkgdir. destruct (listdir w pkg_path) as [e|filenames]; [done|].
  change (call (inr filenames)) with (@ret (Pkg atom) _ filenames).
  rewrite bind_ret. fold no_names.
  pose proof (scan_loop_outcome w pkg pkg_path filenames no_names) as Ho.
  pose proof (scan_loop_trace filenames no_names) as Ht.
  destruct (for_each filenames (pkgdir_entry w pkg pkg_path) no_names)
    as [tr [e|acc]] eqn:Hloop; simpl in Ho, Ht; subst tr.
  - destruct (head _) as [e'|]; [|by destruct Ho].
    injection Ho as <-. done.
  - destruct (head _) as [e'|] eqn:Hh; [done|].
    rewrite reached_all by done.
    unfold bind at 1. cbn [fst snd].
    rewrite (summary_events_eq pkg acc tt). cbn [fst snd].
    by apply scan_loop_collects in Hloop as ->.
Qed.

(** The passes over [files/] yield no [InvalidUTF8]. *)
Lemma files_passes_no_utf8 ev :
  ev ∈ (files_by_size <- walk_filesdir w pkg pkg_path ;;
        files_by_digest <- group_by_digest w pkg_path files_by_size ;;
        yield_duplicates pkg files_by_digest)%gen.1 →
  invalid_utf8 (yields [ev]) = [].
Proof.
  revert ev. apply Forall_forall. apply bind_trace_Forall.
  - apply Forall_forall. intros ev (rf & _ & Hev)%walk_filesdir_event.
    rewrite file_events_eq in Hev. revert ev Hev. apply Forall_forall.
    repeat case_match; repeat constructor.
  - intros fbs. apply bind_trace_Forall.
    + apply Forall_forall. by intros ev (f & _ & ->)%group_by_digest_event.
    + intros fbd. rewrite yield_duplicates_eq. simpl.
      apply Forall_fmap, Forall_forall. by intros [d files] _.
Qed.

(** The check of an entry reads no more of a file than its first 8192
    bytes. *)
Lemma pkgdir_entry_with_content path content content' filename acc :
  open_rb w path = inr content →
  read 8192 content' = read 8192 content →
  pkgdir_entry (with_content w path content') pkg pkg_path filename acc =
  pkgdir_entry w pkg pkg_path filename acc.
Proof.
  intros Ho Hc. set (w' := with_content w path content').
  destruct (gitignored w (pjoin pkg_path [filename])) eqn:Hi.
  { by rewrite !pkgdir_entry_ignored. }
  assert (open_rb w' (pjoin pkg_path [filename]) =
          if bool_decide (pjoin pkg_path [filename] = path)
          then inr content' else open_rb w (pjoin pkg_path [filename]))
    as Ho' by done.
  destruct (endswith filename ebuild_ext) eqn:He.
  - case_bool_decide as Hp.
    + subst path. apply injective_projections.
      * rewrite !pkgdir_entry_trace by done. rewrite He, Ho, Ho'.
        change (decode w') with (decode w). by rewrite Hc.
      * by rewrite (pkgdir_entry_names w' _ _ _ _ content'),
          (pkgdir_entry_names w _ _ _ _ content).
    + apply injective_projections.
      * rewrite !pkgdir_entry_trace by done. by rewrite He, Ho'.
      * destruct (open_rb w (pjoin pkg_path [filename]))
          as [e|content0] eqn:Ho0.
        -- transitivity (@inl exn names e); [|symmetry];
             by apply pkgdir_entry_raises.
        -- by rewrite (pkgdir_entry_names w' _ _ _ _ content0),
             (pkgdir_entry_names w _ _ _ _ content0).
  - apply injective_projections.
    + rewrite !pkgdir_entry_trace by done. by rewrite He.
    + by rewrite !pkgdir_entry_other.
Qed.

End ScanTrace.

Lemma feed_with_content {atom} (w : world) path content content'
    (pkgset : list (Pkg atom)) :
  open_rb w path = inr content →
  read 8192 content' = read 8192 content →
  PkgDirCheck.feed (with_content w path content') pkgset
  = PkgDirCheck.feed w pkgset.
Proof.
  intros Ho Hc. destruct pkgset as [|pkg rest]; [done|].
  unfold PkgDirCheck.feed.
  set (pkg_path := pjoin (target_repo_location w)
                     [category pkg; package pkg]).
  change (pjoin (target_repo_location (with_content w path content'))
            [category pkg; package pkg]) with pkg_path.
  assert (PkgDirCheck.scan_pkgdir (with_content w path content') pkg pkg_path
          = PkgDirCheck.scan_pkgdir w pkg pkg_path) as ->; [|done].
  unfold PkgDirCheck.scan_pkgdir.
  change (listdir (with_content w path content')) with (listdir w).
  destruct (listdir w pkg_path) as [e|filenames]; [done|].
  change (call (inr filenames)) with (@ret (Pkg atom) _ filenames).
  rewrite !bind_ret.
  rewrite (for_each_ext _ _ (PkgDirCheck.pkgdir_entry w pkg pkg_path)); [done|].
  intros fn acc _. by apply (pkgdir_entry_with_content _ _ _ _ content).
Qed.

Lemma head_omap_None {X Y} (f : X → option Y) (l : list X) :
  (∀ x, x ∈ l → f x = None) → head (omap f l) = None.
Proof.
  induction l as [|x l IH]; intros Hl; [done|].
  change (omap f (x :: l))
    with (match f x with Some y => y :: omap f l | None => omap f l end).
  rewrite (Hl x) by left. apply IH. intros. apply Hl. by right.
Qed.

Lemma invalid_utf8_nil {P} (tr : list (event P)) :
  (∀ ev, ev ∈ tr → invalid_utf8 (yields [ev]) = []) →
  invalid_utf8 (yields tr) = [].
Proof.
  induction tr as [|ev tr IH]; intros Htr; [done|].
  change (ev :: tr) with ([ev] ++ tr). unfold invalid_utf8 in *.
  rewrite yields_app, omap_app, (Htr ev) by left.
  apply IH. intros. apply Htr. by right.
Qed.

Lemma entry_events_utf8 {atom} (w : world) (pkg : Pkg atom) pkg_path
    filename :
  invalid_utf8 (yields (entry_events w pkg pkg_path filename)) =
  option_list (utf8_error w pkg_path filename).
Proof.
  rewrite entry_events_eq. unfold utf8_error. repeat case_match; done.
Qed.

(** The events of the whole check begin with those of the scan of the
    package directory, and are those when the scan is stopped. *)
Lemma feed_scan {atom} (w : world) (pkg : Pkg atom) rest :
  let pkg_path := pkg_path_of w pkg in
  let files_passes : gen (Pkg atom) unit :=
    (files_by_size <- PkgDirCheck.walk_filesdir w pkg pkg_path ;;
     files_by_digest <-
       PkgDirCheck.group_by_digest w pkg_path files_by_size ;;
     PkgDirCheck.yield_duplicates pkg files_by_digest)%gen in
  PkgDirCheck.feed w (pkg :: rest) =
    match (PkgDirCheck.scan_pkgdir w pkg pkg_path).2 with
    | inl e => ((PkgDirCheck.scan_pkgdir w pkg pkg_path).1, inl e)
    | inr _ =>
        ((PkgDirCheck.scan_pkgdir w pkg pkg_path).1 ++ files_passes.1,
         files_passes.2)
    end.
Proof. done. Qed.

(** C3, amended: the scan of the package directory is stopped by the
    failure of [listdir], before anything is yielded, and by the first
    failure to open an ebuild that is looked at: the check then ends with
    that exception, having yielded the results of the entries before that
    ebuild and what the check of the ebuild yields before it opens the
    file, and nothing for the entries after it, no result for the names
    and nothing for [files/].  When every ebuild that is looked at can be
    opened, each entry is checked and the results for the names follow.
    The check of an entry yields an [ExecutableFile] when [os.stat] finds
    a regular file with an execute bit, and none when [os.stat] fails; a
    [BannedCharacter]; and an [InvalidUTF8] when the first bytes of an
    ebuild do not decode, after which the check of the entry goes on; a
    name that is not an atom is put aside for [InvalidPN]. *)
Theorem C3_scan_stops_at_unopenable_ebuild {atom} (w : world)
    (pkg : Pkg atom) (rest : list (Pkg atom)) :
  let pkg_path := pkg_path_of w pkg in
  (∀ e, listdir w pkg_path = inl e →
        PkgDirCheck.feed w (pkg :: rest) = ([], inl e)) ∧
  (∀ before filename after e,
     listdir w pkg_path = inr (before ++ filename :: after) →
     (∀ f, f ∈ before → open_error w pkg_path f = None) →
     open_error w pkg_path filename = Some e →
     PkgDirCheck.feed w (pkg :: rest) =
       (mjoin (entry_events w pkg pkg_path <$> before) ++
        entry_events w pkg pkg_path filename, inl e)) ∧
  (∀ filenames,
     listdir w pkg_path = inr filenames →
     (∀ f, f ∈ filenames → open_error w pkg_path f = None) →
     let tr_scan :=
       mjoin (entry_events w pkg pkg_path <$> filenames) ++
       summary_events pkg
         {| PkgDirCheck.mismatched :=
              omap (mismatched_name w pkg pkg_path) filenames;
            PkgDirCheck.invalid :=
              omap (invalid_name w pkg pkg_path) filenames;
            PkgDirCheck.unknown :=
              omap (unknown_entry w pkg_path) filenames |} in
     PkgDirCheck.scan_pkgdir w pkg pkg_path = (tr_scan, inr tt) ∧
     ∃ tr_files, (PkgDirCheck.feed w (pkg :: rest)).1 = tr_scan ++ tr_files) ∧
  (∀ filename acc,
     (PkgDirCheck.pkgdir_entry w pkg pkg_path filename acc).1 =
       entry_events w pkg pkg_path filename ∧
     entry_events w pkg pkg_path filename =
       if gitignored w (pjoin pkg_path [filename]) then [] else
       (if executable w (pjoin pkg_path [filename])
        then [Yield (ExecutableFile filename pkg)] else []) ++
       (if nonempty (banned_chars filename)
        then [Yield (BannedCharacter filename
                       (sorted_chars (banned_chars filename)) pkg)]
        else []) ++
       (if endswith filename PkgDirCheck.ebuild_ext then
          match open_rb w (pjoin pkg_path [filename]) with
          | inr content =>
              match decode w (read 8192 content) with
              | Some e => [Yield (InvalidUTF8 filename e pkg)]
              | None => []
              end
          | inl _ => []
          end
        else [])) ∧
  (∀ path e, os_stat w path = inl e → executable w path = false) ∧
  (PkgDirCheck.scan_pkgdir w pkg pkg_path).2 =
    match listdir w pkg_path with
    | inl e => inl e
    | inr filenames =>
        match head (omap (open_error w pkg_path) filenames) with
        | Some e => inl e
        | None => inr tt
        end
    end ∧
  (∀ filename acc,
     match open_error w pkg_path filename with
     | Some e =>
         (PkgDirCheck.pkgdir_entry w pkg pkg_path filename acc).2 = inl e
     | None =>
         ∃ acc',
           (PkgDirCheck.pkgdir_entry w pkg pkg_path filename acc).2
           = inr acc'
     end) ∧
  (∀ filename acc content err,
     gitignored w (pjoin pkg_path [filename]) = false →
     endswith filename PkgDirCheck.ebuild_ext = true →
     open_rb w (pjoin pkg_path [filename]) = inr content →
     decode w (read 8192 content) = Some err →
     Yield (InvalidUTF8 filename err pkg)
       ∈ (PkgDirCheck.pkgdir_entry w pkg pkg_path filename acc).1 ∧
     ∃ acc',
       (PkgDirCheck.pkgdir_entry w pkg pkg_path filename acc).2 = inr acc') ∧
  (∀ filename acc content,
     gitignored w (pjoin pkg_path [filename]) = false →
     endswith filename PkgDirCheck.ebuild_ext = true →
     open_rb w (pjoin pkg_path [filename]) = inr content →
     atom_cls w (lit "=" ++ category pkg ++ lit "/" ++ pkg_name_of filename)
       = None →
     (PkgDirCheck.pkgdir_entry w pkg pkg_path filename acc).2 =
       inr {| PkgDirCheck.mismatched := PkgDirCheck.mismatched acc;
              PkgDirCheck.invalid :=
                PkgDirCheck.invalid acc ++ [pkg_name_of filename];
              PkgDirCheck.unknown := PkgDirCheck.unknown acc |}).
Proof.
  intros pkg_path.
  pose proof (feed_scan w pkg rest) as Hfeed. cbv zeta in Hfeed.
  fold pkg_path in Hfeed.
  pose proof (scan_pkgdir_eq w pkg pkg_path) as Hscan.
  split_and!.
  - intros e Hl. rewrite Hl in Hscan. by rewrite Hfeed, Hscan.
  - intros before filename after e Hl Hb He. rewrite Hl in Hscan.
    destruct (reached_first (open_error w pkg_path) before after filename)
      as [Hr Hh]; [done|by rewrite He|].
    rewrite Hh, He, Hr in Hscan. rewrite Hfeed, Hscan. simpl.
    rewrite fmap_app, join_app. simpl. by rewrite (right_id_L [] (++)).
  - intros filenames Hl Hok tr_scan. rewrite Hl in Hscan.
    rewrite head_omap_None in Hscan by done. split; [done|].
    rewrite Hfeed, Hscan. simpl. by eexists.
  - intros filename acc. split; [apply pkgdir_entry_trace_indep|].
    apply entry_events_eq.
  - intros path e He. unfold executable. by rewrite He.
  - apply scan_pkgdir_outcome.
  - apply pkgdir_entry_outcome.
  - intros filename acc content err Hi He Ho Hd. split.
    + rewrite pkgdir_entry_trace by done. rewrite He, Ho, Hd.
      rewrite !elem_of_app. right. right. left.
    + rewrite (pkgdir_entry_names _ _ _ _ _ content) by done. by eexists.
  - intros filename acc content Hi He Ho Ha.
    rewrite (pkgdir_entry_names _ _ _ _ _ content) by done. by rewrite Ha.
Qed.

Lemma C3_scan_stops_at_unopenable_ebuild_witness :
  PkgDirCheck.feed unreadable_world [pn "1.0"] =
  ([], inl (OSError (lit "/repo/cat/pn/x.ebuild"))).
Proof.
  refine (eq_trans
            (proj1 (proj2 (C3_scan_stops_at_unopenable_ebuild
                             unreadable_world (pn "1.0") []))
               [] (lit "x.ebuild") [lit "bad name"]
               (OSError (lit "/repo/cat/pn/x.ebuild")) _ _ _) _).
  - vm_compute. reflexivity.
  - intros f Hf. by apply elem_of_nil in Hf.
  - vm_compute. reflexivity.
  - vm_compute. reflexivity.
Defined.

(** C9: the [InvalidUTF8] results of a check, whether it ends or not, are
    those of the entries of the package directory that the scan comes to,
    in their order: one, with the name and the error, for each entry that
    is looked at, whose name ends in [.ebuild], that can be opened and
    whose first 8192 bytes, or whose bytes when there are fewer, do not
    decode; none for an entry whose first 8192 bytes decode.  The check
    reads no more than 8192 bytes of the file: what it yields and how it
    ends do not change with the bytes after them, so that an error in the
    first 8192 bytes is reported whatever follows, and an error after
    them is not. *)
Theorem C9_invalid_utf8_of_first_8192_bytes {atom} (w : world)
    (pkg : Pkg atom) (rest : list (Pkg atom)) (filenames : list str) :
  let pkg_path := pkg_path_of w pkg in
  listdir w pkg_path = inr filenames →
  let checked := reached (open_error w pkg_path) filenames in
  invalid_utf8 (yields (PkgDirCheck.feed w (pkg :: rest)).1) =
    omap (utf8_error w pkg_path) checked ∧
  (∀ filename err,
     (filename, err)
       ∈ invalid_utf8 (yields (PkgDirCheck.feed w (pkg :: rest)).1) ↔
     filename ∈ checked ∧
     gitignored w (pjoin pkg_path [filename]) = false ∧
     endswith filename PkgDirCheck.ebuild_ext = true ∧
     ∃ content,
       open_rb w (pjoin pkg_path [filename]) = inr content ∧
       decode w (read 8192 content) = Some err) ∧
  ((∀ f, f ∈ filenames → open_error w pkg_path f = None) →
   checked = filenames) ∧
  (∀ content, N.of_nat (length (read 8192 content)) ≤ 8192) ∧
  (∀ path content content',
     open_rb w path = inr content →
     read 8192 content' = read 8192 content →
     PkgDirCheck.feed (with_content w path content') (pkg :: rest) =
     PkgDirCheck.feed w (pkg :: rest)) ∧
  (∀ filename acc content,
     gitignored w (pjoin pkg_path [filename]) = false →
     endswith filename PkgDirCheck.ebuild_ext = true →
     open_rb w (pjoin pkg_path [filename]) = inr content →
     invalid_utf8
       (yields (PkgDirCheck.pkgdir_entry w pkg pkg_path filename acc).1) =
       match decode w (read 8192 content) with
       | Some err => [(filename, err)]
       | None => []
       end).
Proof.
  intros pkg_path Hl checked.
  assert (invalid_utf8 (yields (PkgDirCheck.feed w (pkg :: rest)).1) =
          omap (utf8_error w pkg_path) checked) as Hutf8.
  { pose proof (feed_scan w pkg rest) as Hfeed. cbv zeta in Hfeed.
    fold pkg_path in Hfeed.
    pose proof (scan_pkgdir_eq w pkg pkg_path) as Hscan.
    rewrite Hl in Hscan. unfold checked.
    destruct (head (omap (open_error w pkg_path) filenames)) as [e|] eqn:Hh.
    - rewrite Hfeed, Hscan. simpl. unfold invalid_utf8.
      apply select_events. intros. apply entry_events_utf8.
    - rewrite reached_all by done. rewrite Hfeed, Hscan. simpl.
      unfold invalid_utf8. rewrite !yields_app, !omap_app.
      rewrite (select_events _ _ (utf8_error w pkg_path))
        by (intros; apply entry_events_utf8).
      pose proof (summary_events_classes pkg
                    {| PkgDirCheck.mismatched :=
                         omap (mismatched_name w pkg pkg_path) filenames;
                       PkgDirCheck.invalid :=
                         omap (invalid_name w pkg pkg_path) filenames;
                       PkgDirCheck.unknown :=
                         omap (unknown_entry w pkg_path) filenames |})
        as (_ & _ & _ & _ & _ & Hs).
      unfold invalid_utf8 in Hs. rewrite Hs.
      pose proof (invalid_utf8_nil _ (files_passes_no_utf8 w pkg pkg_path))
        as Hf.
      unfold invalid_utf8 in Hf. rewrite Hf.
      by rewrite !(right_id_L [] (++)). }
  split_and!.
  - done.
  - intros filename err. rewrite Hutf8, list_elem_of_omap.
    unfold utf8_error. split.
    + intros (fn & Hin & Hu).
      destruct (gitignored w (pjoin pkg_path [fn])) eqn:Hi; [done|].
      destruct (endswith fn PkgDirCheck.ebuild_ext) eqn:He; [|done].
      destruct (open_rb w (pjoin pkg_path [fn])) as [e|content] eqn:Ho;
        [done|].
      destruct (decode w (read 8192 content)) as [err'|] eqn:Hd; [|done].
      injection Hu as -> ->. split_and!; try done. by exists content.
    + intros (Hin & Hi & He & content & Ho & Hd). exists filename.
      split; [done|]. by rewrite Hi, He, Ho, Hd.
  - intros Hok. apply reached_all. by apply head_omap_None.
  - intros content. unfold read. rewrite length_take. lia.
  - intros path content content'. apply feed_with_content.
  - intros filename acc content Hi He Ho.
    rewrite pkgdir_entry_trace by done. rewrite He, Ho.
    repeat case_match; done.
Qed.

Lemma C9_invalid_utf8_of_first_8192_bytes_witness :
  invalid_utf8 (yields (PkgDirCheck.feed demo_world [pn "1.0"]).1) =
  [(lit "foo-1.ebuild", lit "invalid start byte")].
Proof.
  refine (eq_trans
            (proj1 (C9_invalid_utf8_of_first_8192_bytes demo_world
                      (pn "1.0") []
                      [lit "pn-1.0.ebuild"; lit "foo-1.ebuild";
                       lit "pn 1.0.ebuild~"; lit "Manifest"; lit "files";
                       lit "read me"] _)) _).
  - vm_compute. reflexivity.
  - vm_compute. reflexivity.
Defined.
